(** * The typography mesh hero: particle engine of [TypographyMeshHero.jsx]

    A shallow embedding of the simulation core of the component: word
    normalisation, mode-strength normalisation, target assignment and
    retargeting of the foreground instance field, the adaptive quality
    controller and the per-frame particle integration of [animate].

    Modelling conventions.
    - A JavaScript number is an exact rational ([Qc], canonical fractions with
      Leibniz equality).  The rounding of the arithmetic of doubles, [NaN],
      the infinities and the sign of zero are outside the model; a bound
      that Part III states of a computed number leaves room for that
      rounding.  The rounding to single precision of a store into a
      [Float32Array] is [Math_fround]: the build of the foreground mesh
      rounds what it stores; elsewhere a store keeps the exact number.  Where
      the source coerces an arbitrary value to a number ([Number(v)]), the
      result is a [jsnumber], which does have [NaN] and the infinities.
    - The functions of the host that are not rational ([Math.sin], [Math.cos],
      [Math.exp], [Math.pow], [Math.hypot]), [String.prototype.toUpperCase],
      the string and object cases of [Number(v)] and the canvas rasteriser are
      fields of the class [Host]: every theorem holds for every host.
    - A string is the list of its UTF-16 code units.
    - A typed array is a list; a store past the end does nothing, as in the
      source; a read past the end gives [undefined] in the source, which no
      array cell of the model can hold: such a read ends the modelled
      execution with [UndefinedRead].  A read of [undefined.x] is [TypeError].
    - The closure variables of the effect that owns the simulation are the
      fields of the record [Sim]; each handler is a function on [Sim].  The
      shader uniforms, the camera and the render call of a frame are outside
      the model.
    - The build of the foreground mesh (on a resize) draws random numbers:
      [Math.random] is a parameter of the build, the sequence of its draws,
      and the build counts the draws it makes.

    Part I is the program, Part II the properties that its specification
    states.  Part III has further properties of the same code and of the
    code around it: the
    easing functions, the key tables of the shaders, the normalisation of
    the settings, the build of the lattice, the sampler of the target points,
    and the sanitisers of the application ([App.jsx], module [App]) that
    feed the component. *)

From Stdlib Require Import QArith Qcanon Qround Qabs Qpower ZArith Ascii String
  Lqa.
From stdpp Require Import numbers list gmap strings fin_maps.

Local Open Scope Qc_scope.

(* ===================================================================== *)
(** * Part I. The program                                                 *)
(* ===================================================================== *)

(** ** Numbers *)

Definition num : Type := Qc.

(** A decimal literal of the source: [#0.62] is the rational 62/100. *)
Notation "# x" := (Q2Qc x%Q) (at level 1, format "# x") : Qc_scope.

(** The result of [Number(v)]. *)
Inductive jsnumber : Type :=
| JNaN
| JInfinity (negative : bool)
| JFinite (q : num).

(** A string: its UTF-16 code units. *)
Definition jsstring : Type := list N.

(** A JavaScript value, as far as [normalizeModeStrengths] can tell values
    apart.  An object is its property lookup: [get k] is [VUndefined] for a
    property the object does not have. *)
Inductive jsval : Type :=
| VUndefined
| VNull
| VBool (b : bool)
| VNumber (n : jsnumber)
| VString (s : jsstring)
| VObject (get : string → jsval).

(** A literal of ASCII characters as code units. *)
Definition js (s : string) : jsstring :=
  map N_of_ascii (list_ascii_of_string s).

(** A target point [{x, y, glyph}] of the sampler. *)
Module Target.
Record t : Type := { x : num; y : num; glyph : num }.
End Target.

(** ** The rational part of [Math] *)

Definition Math_max (a b : num) : num := if decide (a < b) then b else a.
Definition Math_min (a b : num) : num := if decide (b < a) then b else a.
Definition Math_abs (v : num) : num := if decide (v < 0) then - v else v.
Definition Math_sign (v : num) : num :=
  if decide (0 < v) then 1 else if decide (v < 0) then - 1 else 0.
Definition Math_floor (v : num) : Z := Qfloor v.
(** [Math.round] rounds half-way cases up. *)
Definition Math_round (v : num) : Z := Qfloor (v + #0.5).

Definition ofZ (n : Z) : num := Qc_of_Z n.
Definition ofNat (n : nat) : num := Qc_of_Z (Z.of_nat n).

(** ** The host *)

Class Host : Type := {
  (** [String.prototype.toUpperCase] *)
  toUpperCase : jsstring → jsstring;
  Math_sin : num → num;
  Math_cos : num → num;
  Math_exp : num → num;
  Math_pow : num → num → num;
  Math_hypot : num → num → num;
  (** [Number(s)] for a string and [Number(o)] for an object *)
  StringToNumber : jsstring → jsnumber;
  ObjectToNumber : (string → jsval) → jsnumber;
  (** The canvas: the word drawn in the solid font at the given viewport
      width and height and sampled on the grid derived from the lattice
      step; the second component is the font size that fitted. *)
  rasterize : num → num → num → jsstring → jsstring → list Target.t * num;
}.

(** A host for running the model on concrete inputs.  Its [toUpperCase] is
    the real one on strings of ASCII code units (a-z become A-Z, unit by
    unit); the other fields are rational stand-ins. *)
Definition asciiUpper (c : N) : N :=
  if ((97 <=? c) && (c <=? 122))%N then (c - 32)%N else c.

Definition demoRaster (w h step : num) (font word : jsstring)
  : list Target.t * num :=
  (imap (λ i c, {| Target.x := Qc_of_Z (Z.of_nat i) - w / #2;
                   Target.y := h / #2;
                   Target.glyph := Qc_of_Z (Z.of_N c) |}) word, step).

Definition demoHost : Host := {|
  toUpperCase := map asciiUpper;
  Math_sin := λ v, v / (1 + Math_abs v);
  Math_cos := λ v, 1 / (1 + Math_abs v);
  Math_exp := λ v, 1 / (1 + Math_abs v);
  Math_pow := λ b e, b;
  Math_hypot := λ a b, Math_abs a + Math_abs b;
  StringToNumber := λ _, JNaN;
  ObjectToNumber := λ _, JNaN;
  rasterize := demoRaster;
|}.

(** ** Constants and small helpers (module level of the source) *)

Definition INTERACTION_MODE_IDS : list string :=
  ["fluid"; "nebula"; "tide"; "vortex"; "ripple"; "magnet"]%string.

(** [Array.prototype.indexOf], with [None] for -1. *)
Fixpoint indexOf (ids : list string) (mode : string) : option nat :=
  match ids with
  | [] => None
  | id :: rest =>
      if decide (id = mode) then Some 0%nat else S <$> indexOf rest mode
  end.

Definition getInteractionModeIndex (mode : string) : nat :=
  default 0%nat (indexOf INTERACTION_MODE_IDS mode).

Definition clamp01 (value : num) : num := Math_max 0 (Math_min 1 value).

Definition smoothstep (edge0 edge1 v : num) : num :=
  let t := clamp01 ((v - edge0) / (edge1 - edge0)) in
  t * t * (#3 - #2 * t).

Section Helpers.
Context `{Host}.

Definition expSmoothing (rate deltaSeconds : num) : num :=
  1 - Math_exp (- rate * deltaSeconds).

Definition hash01 (seed : num) : num :=
  let value := Math_sin (seed * #12.9898) * #43758.5453 in
  value - ofZ (Math_floor value).

(** *** [normalizeWord] *)

(** The class [[A-Z0-9 ]] of the first [replace]. *)
Definition isWordUnit (c : N) : bool :=
  ((65 <=? c) && (c <=? 90) || (48 <=? c) && (c <=? 57) || (c =? 32))%N.

(** The class [\s] of a regular expression, which is also what [trim]
    strips: white space and line terminators. *)
Definition isWhiteSpace (c : N) : bool :=
  ((9 <=? c) && (c <=? 13) || (c =? 32) || (c =? 160) || (c =? 5760)
   || (8192 <=? c) && (c <=? 8202) || (c =? 8232) || (c =? 8233)
   || (c =? 8239) || (c =? 8287) || (c =? 12288) || (c =? 65279))%N.

(** [.replace(/[^A-Z0-9 ]/g, "")] *)
Definition removeOtherUnits (s : jsstring) : jsstring :=
  filter (λ c, isWordUnit c = true) s.

(** [.replace(/\s+/g, " ")]: every maximal run of white space becomes one
    space; [inRun] says that the unit before was white space. *)
Fixpoint collapseRuns (inRun : bool) (s : jsstring) : jsstring :=
  match s with
  | [] => []
  | c :: rest =>
      if isWhiteSpace c
      then (if inRun then collapseRuns true rest else 32%N :: collapseRuns true rest)
      else c :: collapseRuns false rest
  end.

Fixpoint trimStart (s : jsstring) : jsstring :=
  match s with
  | [] => []
  | c :: rest => if isWhiteSpace c then trimStart rest else s
  end.

Definition trimEnd (s : jsstring) : jsstring :=
  reverse (trimStart (reverse s)).

Definition trim (s : jsstring) : jsstring := trimEnd (trimStart s).

(** [value || "GEIST"]: [None] is [undefined] or [null]; the empty string is
    falsy as well. *)
Definition orGeist (value : option jsstring) : jsstring :=
  match value with
  | Some (c :: rest) => c :: rest
  | _ => js "GEIST"
  end.

Definition normalizeWord (value : option jsstring) : jsstring :=
  let next :=
    trim (collapseRuns false (removeOtherUnits (toUpperCase (orGeist value)))) in
  if (0 <? length next)%nat then next else js "GEIST".

End Helpers.

(** ** [normalizeModeStrengths] *)

Section ModeStrengths.
Context `{Host}.

(** [Number(v)] *)
Definition ToNumber (v : jsval) : jsnumber :=
  match v with
  | VUndefined => JNaN
  | VNull => JFinite 0
  | VBool b => JFinite (if b then 1 else 0)
  | VNumber n => n
  | VString s => StringToNumber s
  | VObject get => ObjectToNumber get
  end.

(** [modeStrengths && typeof modeStrengths === "object" ? modeStrengths : {}],
    as the lookup of a property of the chosen object. *)
Definition strengthSource (modeStrengths : jsval) : string → jsval :=
  match modeStrengths with
  | VObject get => get
  | _ => λ _, VUndefined
  end.

(** [Number.isFinite(raw) ? Math.max(0.4, Math.min(1.8, raw)) : 1] *)
Definition clampStrength (raw : jsnumber) : num :=
  match raw with
  | JFinite q => Math_max #0.4 (Math_min #1.8 q)
  | _ => 1
  end.

Definition normalizeModeStrengths (modeStrengths : jsval) : gmap string num :=
  let source := strengthSource modeStrengths in
  foldl (λ normalized modeId,
           let raw := ToNumber (source modeId) in
           <[modeId := clampStrength raw]> normalized)
        ∅ INTERACTION_MODE_IDS.

End ModeStrengths.

(** ** The state of the simulation *)

(** The object [foregroundData]: a count and one typed array per field
    ([Float32Array] cells are [num], [Uint32Array] cells are [N]). *)
Module ForegroundData.
Record t : Type := {
  count : nat;
  homeX : list num;
  homeY : list num;
  posX : list num;
  posY : list num;
  velX : list num;
  velY : list num;
  seed : list num;
  targetX : list num;
  targetY : list num;
  baseGlyph : list num;
  targetGlyph : list num;
  targetSlot : list N;
}.

(** The four arrays a target assignment writes. *)
Definition withTargets (tx ty tg : list num) (ts : list N) (d : t) : t :=
  {| count := count d; homeX := homeX d; homeY := homeY d;
     posX := posX d; posY := posY d; velX := velX d; velY := velY d;
     seed := seed d; targetX := tx; targetY := ty;
     baseGlyph := baseGlyph d; targetGlyph := tg; targetSlot := ts |}.

(** The four arrays the integration writes. *)
Definition withMotion (px py vx vy : list num) (d : t) : t :=
  {| count := count d; homeX := homeX d; homeY := homeY d;
     posX := px; posY := py; velX := vx; velY := vy;
     seed := seed d; targetX := targetX d; targetY := targetY d;
     baseGlyph := baseGlyph d; targetGlyph := targetGlyph d;
     targetSlot := targetSlot d |}.

(** What [buildForegroundMesh] establishes: every array has [count] cells. *)
Definition wf (d : t) : Prop :=
  length (homeX d) = count d ∧ length (homeY d) = count d ∧
  length (posX d) = count d ∧ length (posY d) = count d ∧
  length (velX d) = count d ∧ length (velY d) = count d ∧
  length (seed d) = count d ∧
  length (targetX d) = count d ∧ length (targetY d) = count d ∧
  length (baseGlyph d) = count d ∧ length (targetGlyph d) = count d ∧
  length (targetSlot d) = count d.
End ForegroundData.

(** [motionRef.current] *)
Module Motion.
Record t : Type := { flow : num; drag : num; camera : num; settle : num }.
End Motion.

(** The mutable variables of the effect's closure that the simulation reads
    or writes.  [glyphs] and [offsets] are the arrays of the instanced
    attributes [aGlyph] and [aOffset]; [foregroundMesh] says whether the mesh
    exists; [activeFontSolid] is [activeFontSet.solid]. *)
Record Sim : Type := {
  viewportWidth : num;
  viewportHeight : num;
  foregroundStep : num;
  solidFontSize : num;
  activeFontSolid : jsstring;
  currentWord : jsstring;
  retargetMorph : num;
  retargetExcite : num;
  qualityScale : num;
  qualityEvalAt : num;
  fpsEma : num;
  foregroundData : ForegroundData.t;
  foregroundTargets : list Target.t;
  targetCount : nat;
  foregroundMesh : bool;
  glyphs : list num;
  offsets : list num;
  disposed : bool;
  pointerTargetX : num;
  pointerTargetY : num;
  pointerX : num;
  pointerY : num;
  pointerStrengthTarget : num;
  pointerStrength : num;
  pointerVelocityTargetX : num;
  pointerVelocityTargetY : num;
  pointerVelocityX : num;
  pointerVelocityY : num;
  pointerEnergy : num;
  ambientDriftX : num;
  ambientDriftY : num;
}.

(** Each of the following replaces a group of variables and keeps the rest. *)

(** The variables of the quality controller. *)
Definition withQuality (qualityScale' qualityEvalAt' fpsEma' : num)
    (s : Sim) : Sim :=
  {| viewportWidth := viewportWidth s; viewportHeight := viewportHeight s;
     foregroundStep := foregroundStep s; solidFontSize := solidFontSize s;
     activeFontSolid := activeFontSolid s; currentWord := currentWord s;
     retargetMorph := retargetMorph s; retargetExcite := retargetExcite s;
     qualityScale := qualityScale'; qualityEvalAt := qualityEvalAt';
     fpsEma := fpsEma'; foregroundData := foregroundData s;
     foregroundTargets := foregroundTargets s; targetCount := targetCount s;
     foregroundMesh := foregroundMesh s; glyphs := glyphs s;
     offsets := offsets s; disposed := disposed s;
     pointerTargetX := pointerTargetX s; pointerTargetY := pointerTargetY s;
     pointerX := pointerX s; pointerY := pointerY s;
     pointerStrengthTarget := pointerStrengthTarget s;
     pointerStrength := pointerStrength s;
     pointerVelocityTargetX := pointerVelocityTargetX s;
     pointerVelocityTargetY := pointerVelocityTargetY s;
     pointerVelocityX := pointerVelocityX s;
     pointerVelocityY := pointerVelocityY s; pointerEnergy := pointerEnergy s;
     ambientDriftX := ambientDriftX s; ambientDriftY := ambientDriftY s |}.

(** The two retarget scalars. *)
Definition withRetarget (retargetMorph' retargetExcite' : num) (s : Sim)
    : Sim :=
  {| viewportWidth := viewportWidth s; viewportHeight := viewportHeight s;
     foregroundStep := foregroundStep s; solidFontSize := solidFontSize s;
     activeFontSolid := activeFontSolid s; currentWord := currentWord s;
     retargetMorph := retargetMorph'; retargetExcite := retargetExcite';
     qualityScale := qualityScale s; qualityEvalAt := qualityEvalAt s;
     fpsEma := fpsEma s; foregroundData := foregroundData s;
     foregroundTargets := foregroundTargets s; targetCount := targetCount s;
     foregroundMesh := foregroundMesh s; glyphs := glyphs s;
     offsets := offsets s; disposed := disposed s;
     pointerTargetX := pointerTargetX s; pointerTargetY := pointerTargetY s;
     pointerX := pointerX s; pointerY := pointerY s;
     pointerStrengthTarget := pointerStrengthTarget s;
     pointerStrength := pointerStrength s;
     pointerVelocityTargetX := pointerVelocityTargetX s;
     pointerVelocityTargetY := pointerVelocityTargetY s;
     pointerVelocityX := pointerVelocityX s;
     pointerVelocityY := pointerVelocityY s; pointerEnergy := pointerEnergy s;
     ambientDriftX := ambientDriftX s; ambientDriftY := ambientDriftY s |}.

(** What a word change replaces before it assigns targets. *)
Definition withWord (currentWord' : jsstring)
    (foregroundTargets' : list Target.t) (solidFontSize' : num) (s : Sim)
    : Sim :=
  {| viewportWidth := viewportWidth s; viewportHeight := viewportHeight s;
     foregroundStep := foregroundStep s; solidFontSize := solidFontSize';
     activeFontSolid := activeFontSolid s; currentWord := currentWord';
     retargetMorph := retargetMorph s; retargetExcite := retargetExcite s;
     qualityScale := qualityScale s; qualityEvalAt := qualityEvalAt s;
     fpsEma := fpsEma s; foregroundData := foregroundData s;
     foregroundTargets := foregroundTargets'; targetCount := targetCount s;
     foregroundMesh := foregroundMesh s; glyphs := glyphs s;
     offsets := offsets s; disposed := disposed s;
     pointerTargetX := pointerTargetX s; pointerTargetY := pointerTargetY s;
     pointerX := pointerX s; pointerY := pointerY s;
     pointerStrengthTarget := pointerStrengthTarget s;
     pointerStrength := pointerStrength s;
     pointerVelocityTargetX := pointerVelocityTargetX s;
     pointerVelocityTargetY := pointerVelocityTargetY s;
     pointerVelocityX := pointerVelocityX s;
     pointerVelocityY := pointerVelocityY s; pointerEnergy := pointerEnergy s;
     ambientDriftX := ambientDriftX s; ambientDriftY := ambientDriftY s |}.

(** What [assignForegroundTargets] writes. *)
Definition withAssignment (foregroundData' : ForegroundData.t)
    (targetCount' : nat) (s : Sim) : Sim :=
  {| viewportWidth := viewportWidth s; viewportHeight := viewportHeight s;
     foregroundStep := foregroundStep s; solidFontSize := solidFontSize s;
     activeFontSolid := activeFontSolid s; currentWord := currentWord s;
     retargetMorph := retargetMorph s; retargetExcite := retargetExcite s;
     qualityScale := qualityScale s; qualityEvalAt := qualityEvalAt s;
     fpsEma := fpsEma s; foregroundData := foregroundData';
     foregroundTargets := foregroundTargets s; targetCount := targetCount';
     foregroundMesh := foregroundMesh s; glyphs := glyphs s;
     offsets := offsets s; disposed := disposed s;
     pointerTargetX := pointerTargetX s; pointerTargetY := pointerTargetY s;
     pointerX := pointerX s; pointerY := pointerY s;
     pointerStrengthTarget := pointerStrengthTarget s;
     pointerStrength := pointerStrength s;
     pointerVelocityTargetX := pointerVelocityTargetX s;
     pointerVelocityTargetY := pointerVelocityTargetY s;
     pointerVelocityX := pointerVelocityX s;
     pointerVelocityY := pointerVelocityY s; pointerEnergy := pointerEnergy s;
     ambientDriftX := ambientDriftX s; ambientDriftY := ambientDriftY s |}.

(** The targets of the pointer smoothing, set by pointer events. *)
Definition withPointerTargets
    (pointerTargetX' pointerTargetY' pointerStrengthTarget' pointerVelocityTargetX' pointerVelocityTargetY' : num)
    (s : Sim) : Sim :=
  {| viewportWidth := viewportWidth s; viewportHeight := viewportHeight s;
     foregroundStep := foregroundStep s; solidFontSize := solidFontSize s;
     activeFontSolid := activeFontSolid s; currentWord := currentWord s;
     retargetMorph := retargetMorph s; retargetExcite := retargetExcite s;
     qualityScale := qualityScale s; qualityEvalAt := qualityEvalAt s;
     fpsEma := fpsEma s; foregroundData := foregroundData s;
     foregroundTargets := foregroundTargets s; targetCount := targetCount s;
     foregroundMesh := foregroundMesh s; glyphs := glyphs s;
     offsets := offsets s; disposed := disposed s;
     pointerTargetX := pointerTargetX'; pointerTargetY := pointerTargetY';
     pointerX := pointerX s; pointerY := pointerY s;
     pointerStrengthTarget := pointerStrengthTarget';
     pointerStrength := pointerStrength s;
     pointerVelocityTargetX := pointerVelocityTargetX';
     pointerVelocityTargetY := pointerVelocityTargetY';
     pointerVelocityX := pointerVelocityX s;
     pointerVelocityY := pointerVelocityY s; pointerEnergy := pointerEnergy s;
     ambientDriftX := ambientDriftX s; ambientDriftY := ambientDriftY s |}.

(** The smoothed pointer. *)
Definition withPointer
    (pointerX' pointerY' pointerStrength' pointerVelocityX' pointerVelocityY' pointerEnergy' : num)
    (s : Sim) : Sim :=
  {| viewportWidth := viewportWidth s; viewportHeight := viewportHeight s;
     foregroundStep := foregroundStep s; solidFontSize := solidFontSize s;
     activeFontSolid := activeFontSolid s; currentWord := currentWord s;
     retargetMorph := retargetMorph s; retargetExcite := retargetExcite s;
     qualityScale := qualityScale s; qualityEvalAt := qualityEvalAt s;
     fpsEma := fpsEma s; foregroundData := foregroundData s;
     foregroundTargets := foregroundTargets s; targetCount := targetCount s;
     foregroundMesh := foregroundMesh s; glyphs := glyphs s;
     offsets := offsets s; disposed := disposed s;
     pointerTargetX := pointerTargetX s; pointerTargetY := pointerTargetY s;
     pointerX := pointerX'; pointerY := pointerY';
     pointerStrengthTarget := pointerStrengthTarget s;
     pointerStrength := pointerStrength';
     pointerVelocityTargetX := pointerVelocityTargetX s;
     pointerVelocityTargetY := pointerVelocityTargetY s;
     pointerVelocityX := pointerVelocityX';
     pointerVelocityY := pointerVelocityY'; pointerEnergy := pointerEnergy';
     ambientDriftX := ambientDriftX s; ambientDriftY := ambientDriftY s |}.

(** The ambient drift vector. *)
Definition withAmbientDrift (ambientDriftX' ambientDriftY' : num) (s : Sim)
    : Sim :=
  {| viewportWidth := viewportWidth s; viewportHeight := viewportHeight s;
     foregroundStep := foregroundStep s; solidFontSize := solidFontSize s;
     activeFontSolid := activeFontSolid s; currentWord := currentWord s;
     retargetMorph := retargetMorph s; retargetExcite := retargetExcite s;
     qualityScale := qualityScale s; qualityEvalAt := qualityEvalAt s;
     fpsEma := fpsEma s; foregroundData := foregroundData s;
     foregroundTargets := foregroundTargets s; targetCount := targetCount s;
     foregroundMesh := foregroundMesh s; glyphs := glyphs s;
     offsets := offsets s; disposed := disposed s;
     pointerTargetX := pointerTargetX s; pointerTargetY := pointerTargetY s;
     pointerX := pointerX s; pointerY := pointerY s;
     pointerStrengthTarget := pointerStrengthTarget s;
     pointerStrength := pointerStrength s;
     pointerVelocityTargetX := pointerVelocityTargetX s;
     pointerVelocityTargetY := pointerVelocityTargetY s;
     pointerVelocityX := pointerVelocityX s;
     pointerVelocityY := pointerVelocityY s; pointerEnergy := pointerEnergy s;
     ambientDriftX := ambientDriftX'; ambientDriftY := ambientDriftY' |}.

(** What the particle loop of a frame writes. *)
Definition withParticles (foregroundData' : ForegroundData.t)
    (glyphs' offsets' : list num) (s : Sim) : Sim :=
  {| viewportWidth := viewportWidth s; viewportHeight := viewportHeight s;
     foregroundStep := foregroundStep s; solidFontSize := solidFontSize s;
     activeFontSolid := activeFontSolid s; currentWord := currentWord s;
     retargetMorph := retargetMorph s; retargetExcite := retargetExcite s;
     qualityScale := qualityScale s; qualityEvalAt := qualityEvalAt s;
     fpsEma := fpsEma s; foregroundData := foregroundData';
     foregroundTargets := foregroundTargets s; targetCount := targetCount s;
     foregroundMesh := foregroundMesh s; glyphs := glyphs';
     offsets := offsets'; disposed := disposed s;
     pointerTargetX := pointerTargetX s; pointerTargetY := pointerTargetY s;
     pointerX := pointerX s; pointerY := pointerY s;
     pointerStrengthTarget := pointerStrengthTarget s;
     pointerStrength := pointerStrength s;
     pointerVelocityTargetX := pointerVelocityTargetX s;
     pointerVelocityTargetY := pointerVelocityTargetY s;
     pointerVelocityX := pointerVelocityX s;
     pointerVelocityY := pointerVelocityY s; pointerEnergy := pointerEnergy s;
     ambientDriftX := ambientDriftX s; ambientDriftY := ambientDriftY s |}.

(** ** Outcomes *)

(** How a handler ends: normally, with a [TypeError] (a property read of
    [undefined]), or by reading a typed array past its end. *)
Inductive result (A : Type) : Type :=
| Done (a : A)
| TypeError
| UndefinedRead.
Arguments Done {A} a.
Arguments TypeError {A}.
Arguments UndefinedRead {A}.

#[global] Instance result_ret : MRet result := λ A a, Done a.
#[global] Instance result_bind : MBind result := λ A B k m,
  match m with
  | Done a => k a
  | TypeError => TypeError
  | UndefinedRead => UndefinedRead
  end.

(** [array[i]] of a [Float32Array] *)
Definition readCell (array : list num) (i : nat) : result num :=
  match array !! i with
  | Some v => Done v
  | None => UndefinedRead
  end.

(** The conversion of a store into a [Uint32Array]. *)
Definition ToUint32 (n : Z) : N := Z.to_N (n mod 2 ^ 32).

(** [for (let i = 0; i < n; i += 1) body], over the indices given. *)
Fixpoint forEach {A : Type} (body : A → nat → result A) (indices : list nat)
    (a : A) : result A :=
  match indices with
  | [] => Done a
  | i :: rest => a' ← body a i; forEach body rest a'
  end.

(** ** Target assignment and retargeting *)

Section Assignment.
Context `{Host}.

(** The slot of particle [i] when the target list has [nextCount] > 0
    points; [targetCount] is the count of the list before. *)
Definition slotOf (preserveSlots : bool) (targetCount nextCount : nat)
    (targetSlot : list N) (i : nat) : Z :=
  if preserveSlots && (0 <? targetCount)%nat then
    let oldSlot := ofZ (Z.of_N (default 0%N (targetSlot !! i))) in
    let ratio :=
      if (targetCount <=? 1)%nat then 0 else oldSlot / (ofNat targetCount - 1) in
    let jitter :=
      (hash01 (ofNat i * #31.7 + ofNat targetCount * #0.17) - #0.5) * #1.8 in
    let slot := Math_round (ratio * (ofNat nextCount - 1) + jitter) in
    Z.max 0 (Z.min (Z.of_nat nextCount - 1) slot)
  else
    (Z.of_nat i * 17) `mod` Z.of_nat nextCount.

(** The body of the loop of [assignForegroundTargets] for particle [i]. *)
Definition assignParticle (preserveSlots : bool)
    (foregroundTargets : list Target.t) (targetCount : nat)
    (d : ForegroundData.t) (i : nat) : result ForegroundData.t :=
  let nextCount := length foregroundTargets in
  if (nextCount =? 0)%nat then
    homeX ← readCell (ForegroundData.homeX d) i;
    homeY ← readCell (ForegroundData.homeY d) i;
    baseGlyph ← readCell (ForegroundData.baseGlyph d) i;
    mret (ForegroundData.withTargets
            (<[i := homeX]> (ForegroundData.targetX d))
            (<[i := homeY]> (ForegroundData.targetY d))
            (<[i := baseGlyph]> (ForegroundData.targetGlyph d))
            (<[i := 0%N]> (ForegroundData.targetSlot d)) d)
  else
    let slot :=
      slotOf preserveSlots targetCount nextCount (ForegroundData.targetSlot d) i in
    match foregroundTargets !! Z.to_nat slot with
    | None => TypeError
    | Some target =>
        mret (ForegroundData.withTargets
                (<[i := Target.x target]> (ForegroundData.targetX d))
                (<[i := Target.y target]> (ForegroundData.targetY d))
                (<[i := Target.glyph target]> (ForegroundData.targetGlyph d))
                (<[i := ToUint32 slot]> (ForegroundData.targetSlot d)) d)
    end.

Definition assignForegroundTargets (preserveSlots : bool) (s : Sim)
    : result Sim :=
  let nextCount := length (foregroundTargets s) in
  d ← forEach (assignParticle preserveSlots (foregroundTargets s) (targetCount s))
              (seq 0 (ForegroundData.count (foregroundData s)))
              (foregroundData s);
  mret (withAssignment d nextCount s).

(** [buildForegroundTargets(text)]: the word is normalised again, drawn and
    sampled by the canvas; the font size that fitted is kept. *)
Definition buildForegroundTargets (text : jsstring) (s : Sim)
    : list Target.t * num :=
  let targetWord := normalizeWord (Some text) in
  rasterize (viewportWidth s) (viewportHeight s) (foregroundStep s)
            (activeFontSolid s) targetWord.

Definition retargetWord (nextWord : option jsstring) (s : Sim) : result Sim :=
  let normalized := normalizeWord nextWord in
  if bool_decide (normalized = [])
     || bool_decide (normalized = currentWord s)
     || (ForegroundData.count (foregroundData s) =? 0)%nat
  then Done s
  else
    let sampled := buildForegroundTargets normalized s in
    let s := withWord normalized sampled.1 sampled.2 s in
    s ← assignForegroundTargets true s;
    mret (withRetarget 0 1 s).

End Assignment.

(** ** Pointer events *)

Definition onPointerMove (clientX clientY : num) (s : Sim) : Sim :=
  let nextX := (clientX / viewportWidth s - #0.5) * #2 in
  let nextY := (clientY / viewportHeight s - #0.5) * #2 in
  withPointerTargets nextX nextY 1
    (nextX - pointerTargetX s) (nextY - pointerTargetY s) s.

Definition resetPointerState (immediate : bool) (s : Sim) : Sim :=
  let s := withPointerTargets 0 0 0 0 0 s in
  if immediate then withPointer 0 0 0 0 0 0 s else s.

(** ** One frame: [animate] *)

(** What a call of [animate] reads from outside the closure: the clock, the
    device pixel ratio, [motionRef.current], and the props behind
    [interactionModeRef.current] (the index of the mode id) and
    [modeStrengthsRef.current] (the normalised strengths). *)
Record Frame : Type := {
  clockDelta : num;
  elapsedTime : num;
  devicePixelRatio : num;
  motion : Motion.t;
  interactionMode : string;
  modeStrengths : jsval;
}.

Definition withMode (mode : string) (f : Frame) : Frame :=
  {| clockDelta := clockDelta f; elapsedTime := elapsedTime f;
     devicePixelRatio := devicePixelRatio f; motion := motion f;
     interactionMode := mode; modeStrengths := modeStrengths f |}.

(** The values of one particle that the integration reads. *)
Module Particle.
Record t : Type := {
  seed : num;
  homeX : num; homeY : num;
  targetX : num; targetY : num;
  posX : num; posY : num;
  velX : num; velY : num;
}.
End Particle.

(** The constants of a mode that the foreground uses (the five fields of
    [modeConfig] for the background layers feed shader uniforms only). *)
Module ModeConfig.
Record t : Type := {
  pointerWarpRadiusFactor : num;
  pointerWarpBase : num;
  pointerWarpFloat : num;
  pointerFlowBase : num;
  pointerFlowFloat : num;
}.
End ModeConfig.

(** What a mode's vector field returns. *)
Module Field.
Record t : Type := {
  flowA : num; flowB : num;
  pressureScale : num; dragScale : num; flowScale : num;
}.
End Field.

(** The three additions of the pointer branch to the target position. *)
Module PointerTerms.
Record t : Type := {
  influence : num;
  flowX : num; flowY : num;
  dragX : num; dragY : num;
  pressureX : num; pressureY : num;
}.
End PointerTerms.

(** What the integration of one particle writes. *)
Module Stepped.
Record t : Type := {
  velX : num; velY : num;
  posX : num; posY : num;
  showTarget : bool;
}.
End Stepped.

(** [window.devicePixelRatio || 1] *)
Definition orOne (v : num) : num := if decide (v = 0) then 1 else v.

(** The initial value of [qualityScale]. *)
Definition initialQualityScale (dpr : num) : num :=
  Math_max #0.72 (1 - Math_max 0 (orOne dpr - 1) * #0.12).

Definition meshEnd : num := #2.6.
Definition convergeEnd : num := #7.2.
Definition holdEnd : num := #9.1.
Definition solidEnd : num := #12.

Definition delta (f : Frame) : num := Math_min #0.05 (clockDelta f).
Definition fps (f : Frame) : num := 1 / Math_max #0.0001 (delta f).

Definition targetQualityOf (dpr fpsEma : num) : num :=
  let q := 1 - Math_max 0 (orOne dpr - 1) * #0.14 in
  let q := if decide (fpsEma < #58) then q - #0.04 else q in
  let q := if decide (fpsEma < #50) then q - #0.07 else q in
  let q := if decide (fpsEma < #42) then q - #0.09 else q in
  let q := if decide (fpsEma < #34) then q - #0.12 else q in
  let q := if decide (#63 < fpsEma) then q + #0.05 else q in
  Math_max #0.62 (Math_min #1.05 q).

Definition modeIndex (f : Frame) : nat :=
  getInteractionModeIndex (interactionMode f).

Definition modeConfig (modeIndex : nat) : ModeConfig.t :=
  match modeIndex with
  | 1%nat => {| ModeConfig.pointerWarpRadiusFactor := #0.46;
            ModeConfig.pointerWarpBase := #0.58;
            ModeConfig.pointerWarpFloat := #0.3;
            ModeConfig.pointerFlowBase := #0.74;
            ModeConfig.pointerFlowFloat := #0.32 |}
  | 2%nat => {| ModeConfig.pointerWarpRadiusFactor := #0.4;
            ModeConfig.pointerWarpBase := #0.92;
            ModeConfig.pointerWarpFloat := #0.38;
            ModeConfig.pointerFlowBase := #0.36;
            ModeConfig.pointerFlowFloat := #0.2 |}
  | 3%nat => {| ModeConfig.pointerWarpRadiusFactor := #0.54;
            ModeConfig.pointerWarpBase := #1.06;
            ModeConfig.pointerWarpFloat := #0.42;
            ModeConfig.pointerFlowBase := #0.84;
            ModeConfig.pointerFlowFloat := #0.34 |}
  | 4%nat => {| ModeConfig.pointerWarpRadiusFactor := #0.6;
            ModeConfig.pointerWarpBase := #0.7;
            ModeConfig.pointerWarpFloat := #0.26;
            ModeConfig.pointerFlowBase := #0.78;
            ModeConfig.pointerFlowFloat := #0.28 |}
  | 5%nat => {| ModeConfig.pointerWarpRadiusFactor := #0.38;
            ModeConfig.pointerWarpBase := #1.08;
            ModeConfig.pointerWarpFloat := #0.36;
            ModeConfig.pointerFlowBase := #0.26;
            ModeConfig.pointerFlowFloat := #0.16 |}
  | _ => {| ModeConfig.pointerWarpRadiusFactor := #0.34;
            ModeConfig.pointerWarpBase := #0.66;
            ModeConfig.pointerWarpFloat := #0.32;
            ModeConfig.pointerFlowBase := #0.6;
            ModeConfig.pointerFlowFloat := #0.26 |}
  end.

Definition pointerWorldX (s : Sim) : num := pointerX s * viewportWidth s * #0.5.
Definition pointerWorldY (s : Sim) : num := - pointerY s * viewportHeight s * #0.5.
Definition pointerWorldVelX (s : Sim) : num :=
  pointerVelocityX s * viewportWidth s * #0.52.
Definition pointerWorldVelY (s : Sim) : num :=
  - pointerVelocityY s * viewportHeight s * #0.52.

Definition pointerWarpRadius (f : Frame) (s : Sim) : num :=
  Math_min (viewportWidth s) (viewportHeight s)
  * ModeConfig.pointerWarpRadiusFactor (modeConfig (modeIndex f)).

Definition retargetBlend (s : Sim) : num :=
  smoothstep #0.02 #0.96 (retargetMorph s).

Section Animate.
Context `{Host}.

(** *** Scalars of the frame (functions of the clock and the motion) *)

Definition timelineSpeed (f : Frame) : num :=
  #0.72 + Motion.settle (motion f) * #0.58.
Definition motionTime (f : Frame) : num := elapsedTime f * timelineSpeed f.
Definition baseConverge (f : Frame) : num :=
  smoothstep meshEnd convergeEnd (motionTime f).
Definition lockPhase (f : Frame) : num :=
  smoothstep holdEnd solidEnd (motionTime f).
Definition flow (f : Frame) : num :=
  #0.5 + #0.5 * Math_sin (motionTime f * (#0.22 * Motion.flow (motion f))
                          + Math_sin (motionTime f
                                      * (#0.07 * Motion.flow (motion f) + #0.03))).
Definition rhythmWarp (f : Frame) : num :=
  Math_sin (motionTime f * #0.9) * #0.04 * (1 - baseConverge f).
Definition converge (f : Frame) : num := clamp01 (baseConverge f + rhythmWarp f).
Definition solidifyMix (f : Frame) : num :=
  smoothstep (solidEnd - #1.3) (solidEnd + #0.4) (motionTime f).
Definition floatingMix (f : Frame) : num := 1 - solidifyMix f.
Definition foregroundAlpha (f : Frame) : num :=
  #0.56 + #0.34 * converge f + #0.1 * solidifyMix f.

(** [modeStrengthsRef.current[modeId] ?? 1] with
    [modeId = INTERACTION_MODES[modeIndex]?.id ?? "fluid"] *)
Definition modeStrength (f : Frame) : num :=
  let modeId := default "fluid"%string (INTERACTION_MODE_IDS !! modeIndex f) in
  default 1 (normalizeModeStrengths (modeStrengths f) !! modeId).

Definition pointerWarpStrength (f : Frame) (s : Sim) : num :=
  foregroundStep s
  * (ModeConfig.pointerWarpBase (modeConfig (modeIndex f))
     + ModeConfig.pointerWarpFloat (modeConfig (modeIndex f)) * floatingMix f)
  * Motion.flow (motion f)
  * modeStrength f.

Definition pointerFlowStrength (f : Frame) (s : Sim) : num :=
  foregroundStep s
  * (ModeConfig.pointerFlowBase (modeConfig (modeIndex f))
     + ModeConfig.pointerFlowFloat (modeConfig (modeIndex f)) * floatingMix f)
  * Motion.flow (motion f)
  * (#0.84 + #0.24 * Motion.drag (motion f))
  * modeStrength f.

(** *** The smoothing of the frame's state (lines 1845-1880 of the source) *)

Definition animateScalars (f : Frame) (s : Sim) : Sim :=
  let t := elapsedTime f in
  let m := motion f in
  let retargetMorph' :=
    Math_min 1 (retargetMorph s + delta f * (#0.72 + #0.9 * Motion.settle m)) in
  let retargetExcite' :=
    retargetExcite s + (0 - retargetExcite s) * expSmoothing #2.8 (delta f) in
  let pointerFollow := expSmoothing (#7.2 * Motion.drag m) (delta f) in
  let velocityFollow := expSmoothing (#12.5 * Motion.drag m) (delta f) in
  let strengthFollow := expSmoothing (#4.4 * Motion.drag m) (delta f) in
  let trailFade :=
    Math_exp (- #6.4 * delta f * (#0.8 + Motion.drag m * #0.2)) in
  let pointerX' := pointerX s + (pointerTargetX s - pointerX s) * pointerFollow in
  let pointerY' := pointerY s + (pointerTargetY s - pointerY s) * pointerFollow in
  let pointerVelocityX' :=
    pointerVelocityX s
    + (pointerVelocityTargetX s - pointerVelocityX s) * velocityFollow in
  let pointerVelocityY' :=
    pointerVelocityY s
    + (pointerVelocityTargetY s - pointerVelocityY s) * velocityFollow in
  let pointerVelocityTargetX' := pointerVelocityTargetX s * trailFade in
  let pointerVelocityTargetY' := pointerVelocityTargetY s * trailFade in
  let pointerStrength' :=
    pointerStrength s
    + (pointerStrengthTarget s - pointerStrength s) * strengthFollow in
  let pointerSpeed :=
    Math_min #1.5 (Math_hypot pointerVelocityX' pointerVelocityY' * #15) in
  let pointerEnergy' :=
    pointerEnergy s
    + (pointerSpeed - pointerEnergy s)
      * expSmoothing (#3.6 * Motion.drag m) (delta f) in
  let driftFollow := expSmoothing (#0.85 * Motion.flow m) (delta f) in
  let driftTargetX :=
    Math_sin (t * #0.19 * Motion.flow m + Math_sin (t * #0.07 + #0.8)) * #0.8
    + Math_cos (t * #0.11 * Motion.flow m + #1.5) * #0.34 in
  let driftTargetY :=
    Math_cos (t * #0.17 * Motion.flow m + Math_sin (t * #0.05 + #0.3)) * #0.72
    + Math_sin (t * #0.13 * Motion.flow m + #2.1) * #0.3 in
  let ambientDriftX' :=
    ambientDriftX s + (driftTargetX - ambientDriftX s) * driftFollow in
  let ambientDriftY' :=
    ambientDriftY s + (driftTargetY - ambientDriftY s) * driftFollow in
  withAmbientDrift ambientDriftX' ambientDriftY'
    (withPointer pointerX' pointerY' pointerStrength'
       pointerVelocityX' pointerVelocityY' pointerEnergy'
       (withPointerTargets (pointerTargetX s) (pointerTargetY s)
          (pointerStrengthTarget s)
          pointerVelocityTargetX' pointerVelocityTargetY'
          (withRetarget retargetMorph' retargetExcite' s))).

(** *** One particle (the body of the loop, lines 2071-2256) *)

Definition delay (seed : num) : num :=
  (Math_sin (seed * #4.13) * #0.5 + #0.5) * #0.34.

Definition combinedConverge (f : Frame) (s : Sim) (seed : num) : num :=
  let delayedConverge :=
    smoothstep (delay seed) 1 (converge f + lockPhase f * #0.08) in
  clamp01 (delayedConverge * (#0.58 + #0.42 * retargetBlend s)).

(** The target position after convergence and ambient motion, before the
    pointer branch. *)
Definition ambientTarget (f : Frame) (s : Sim) (p : Particle.t) : num * num :=
  let t := elapsedTime f in
  let seed := Particle.seed p in
  let combinedConverge := combinedConverge f s seed in
  let preJitter :=
    (1 - combinedConverge)
    * (#0.24 + #0.16 * flow f + retargetExcite s * #0.34) in
  let nx :=
    Math_sin (t * #0.92 + seed) * foregroundStep s * #0.14 * preJitter in
  let ny :=
    Math_cos (t * #0.86 + seed * #1.11) * foregroundStep s * #0.14
    * preJitter in
  let baseX := Particle.homeX p + nx in
  let baseY := Particle.homeY p + ny in
  let targetX := baseX + (Particle.targetX p - baseX) * combinedConverge in
  let targetY := baseY + (Particle.targetY p - baseY) * combinedConverge in
  let lockFloat :=
    (#0.32 + #0.68 * lockPhase f) * floatingMix f
    * (#0.84 + retargetExcite s * #0.45) in
  let floatAmp :=
    foregroundStep s
    * (#0.03 + #0.045 * (Math_sin (seed * #2.1) * #0.5 + #0.5))
    * Motion.flow (motion f) in
  let ambientA :=
    Math_sin ((baseY + seed * #120) * #0.012 + t * #0.52)
    + Math_cos ((baseX - baseY) * #0.007 - t * #0.44) in
  let ambientB :=
    Math_cos ((baseX - seed * #105) * #0.011 - t * #0.49)
    + Math_sin ((baseX + baseY) * #0.006 + t * #0.39) in
  let ambientLen := Math_hypot ambientA ambientB + #0.0001 in
  let targetX := targetX + (ambientA / ambientLen) * floatAmp * lockFloat in
  let targetY := targetY + (ambientB / ambientLen) * floatAmp * lockFloat in
  let targetX := targetX + ambientDriftX s * foregroundStep s * #0.24 * lockFloat in
  let targetY := targetY + ambientDriftY s * foregroundStep s * #0.24 * lockFloat in
  (targetX, targetY).

(** The vector field of the selected mode at the target position
    [(targetX, targetY)], [(dx, dy)] and [dist] away from the pointer. *)
Definition modeField (f : Frame) (seed targetX targetY dx dy dist organicPulse : num)
    : Field.t :=
  let t := elapsedTime f in
  let m := motion f in
  match modeIndex f with
  | 1%nat =>
      let orbitA := - dy / dist in
      let orbitB := dx / dist in
      let cloudA :=
        Math_sin ((targetY - targetX) * #0.012 + t * #0.61 + seed * #7.1)
        + Math_cos ((targetX + targetY) * #0.008 - t * #0.52 + seed * #4.9)
          * #0.65 in
      let cloudB :=
        Math_cos ((targetY + targetX) * #0.011 - t * #0.57 + seed * #6.2)
        + Math_sin ((targetX - targetY) * #0.009 + t * #0.49 + seed * #5.3)
          * #0.65 in
      {| Field.flowA := orbitA * (#0.6 + #0.35 * organicPulse) + cloudA * #0.7;
         Field.flowB := orbitB * (#0.6 + #0.35 * organicPulse) + cloudB * #0.7;
         Field.pressureScale := #0.1;
         Field.dragScale := (#0.14 + #0.09 * organicPulse) * Motion.drag m;
         Field.flowScale := (#0.58 + #0.34 * organicPulse) * Motion.flow m |}
  | 2%nat =>
      let tideA :=
        Math_sin (targetY * #0.011 + t * #0.92 + seed * #3.8)
        + Math_cos ((targetX + targetY) * #0.006 + t * #0.34) in
      let tideB :=
        Math_sin (targetX * #0.01 - t * #0.77 + seed * #3.1)
        + Math_cos ((targetX - targetY) * #0.005 - t * #0.28) in
      {| Field.flowA := tideA;
         Field.flowB := tideB;
         Field.pressureScale := #0.2;
         Field.dragScale := (#0.08 + #0.05 * organicPulse) * Motion.drag m;
         Field.flowScale := (#0.32 + #0.2 * organicPulse) * Motion.flow m |}
  | 3%nat =>
      let orbitA := - dy / dist in
      let orbitB := dx / dist in
      let spiral := Math_sin (dist * #0.03 - t * #1.2 + seed * #7.4) in
      let curlA :=
        Math_cos ((targetX + targetY) * #0.012 + t * #0.72 + seed * #4.1)
        * #0.62 in
      let curlB :=
        Math_sin ((targetY - targetX) * #0.013 - t * #0.67 + seed * #3.6)
        * #0.62 in
      {| Field.flowA :=
           orbitA * (#0.9 + #0.3 * organicPulse)
           + (dx / dist) * spiral * #0.35
           + curlA;
         Field.flowB :=
           orbitB * (#0.9 + #0.3 * organicPulse)
           + (dy / dist) * spiral * #0.35
           + curlB;
         Field.pressureScale := #0.26;
         Field.dragScale := (#0.09 + #0.05 * organicPulse) * Motion.drag m;
         Field.flowScale := (#0.74 + #0.34 * organicPulse) * Motion.flow m |}
  | 4%nat =>
      let wave := Math_sin (dist * #0.044 - t * #1.52 + seed * #5.2) in
      let radialA := (dx / dist) * wave in
      let radialB := (dy / dist) * wave in
      let crossA := (- dy / dist) * (#0.34 + #0.2 * organicPulse) in
      let crossB := (dx / dist) * (#0.34 + #0.2 * organicPulse) in
      {| Field.flowA := radialA + crossA;
         Field.flowB := radialB + crossB;
         Field.pressureScale := #0.12;
         Field.dragScale := (#0.11 + #0.05 * organicPulse) * Motion.drag m;
         Field.flowScale := (#0.62 + #0.24 * organicPulse) * Motion.flow m |}
  | 5%nat =>
      let pullA := - dx / dist in
      let pullB := - dy / dist in
      let latticeA :=
        Math_sin (targetY * #0.021 + t * #0.86 + seed * #6.6) * #0.52 in
      let latticeB :=
        Math_cos (targetX * #0.022 - t * #0.82 + seed * #5.7) * #0.52 in
      {| Field.flowA := pullA * (#0.92 + #0.26 * organicPulse) + latticeA;
         Field.flowB := pullB * (#0.92 + #0.26 * organicPulse) + latticeB;
         Field.pressureScale := - #0.16;
         Field.dragScale := (#0.14 + #0.05 * organicPulse) * Motion.drag m;
         Field.flowScale := (#0.28 + #0.14 * organicPulse) * Motion.flow m |}
  | _ =>
      {| Field.flowA :=
           Math_sin (targetY * #0.016 + t * #0.58 + seed * #6.7)
           + Math_cos ((targetX + targetY) * #0.01 - t * #0.43 + seed * #2.9)
             * #0.5;
         Field.flowB :=
           Math_cos (targetX * #0.015 - t * #0.52 + seed * #5.3)
           + Math_sin ((targetX - targetY) * #0.009 + t * #0.39 + seed * #3.7)
             * #0.5;
         Field.pressureScale := #0.16;
         Field.dragScale := (#0.1 + #0.08 * organicPulse) * Motion.drag m;
         Field.flowScale := (#0.44 + #0.28 * organicPulse) * Motion.flow m |}
  end.

(** [radial] of the pointer branch: the clamped proximity to the pointer. *)
Definition pointerRadial (f : Frame) (s : Sim) (dist : num) : num :=
  clamp01 (1 - dist / pointerWarpRadius f s).

(** The pointer branch (lines 2122-2229): what it adds to the target. *)
Definition pointerTerms (f : Frame) (s : Sim) (seed targetX targetY : num)
    : PointerTerms.t :=
  let t := elapsedTime f in
  let dx := targetX - pointerWorldX s in
  let dy := targetY - pointerWorldY s in
  let dist := Math_hypot dx dy + #0.0001 in
  let radial := pointerRadial f s dist in
  let falloff := radial * radial * (#3 - #2 * radial) in
  let influence := falloff * pointerStrength s in
  let nxDir := dx / dist in
  let nyDir := dy / dist in
  let organicPulse := Math_sin (t * #0.6 + seed * #8.7) * #0.5 + #0.5 in
  let field := modeField f seed targetX targetY dx dy dist organicPulse in
  let flowLen := Math_hypot (Field.flowA field) (Field.flowB field) + #0.0001 in
  let flowX := Field.flowA field / flowLen in
  let flowY := Field.flowB field / flowLen in
  let pressure :=
    (#0.52 - radial) * pointerWarpStrength f s * influence
    * Field.pressureScale field in
  let drag := Field.dragScale field * influence in
  {| PointerTerms.influence := influence;
     PointerTerms.flowX :=
       flowX * pointerFlowStrength f s * influence * Field.flowScale field;
     PointerTerms.flowY :=
       flowY * pointerFlowStrength f s * influence * Field.flowScale field;
     PointerTerms.dragX := pointerWorldVelX s * drag;
     PointerTerms.dragY := pointerWorldVelY s * drag;
     PointerTerms.pressureX := nxDir * pressure;
     PointerTerms.pressureY := nyDir * pressure |}.

(** The target position the spring pulls to: the ambient target, moved by
    the pointer branch when the pointer is present. *)
Definition adjustedTarget (f : Frame) (s : Sim) (p : Particle.t) : num * num :=
  let targetX := (ambientTarget f s p).1 in
  let targetY := (ambientTarget f s p).2 in
  if decide (#0.001 < pointerStrength s) then
    let terms := pointerTerms f s (Particle.seed p) targetX targetY in
    let targetX := targetX + PointerTerms.flowX terms in
    let targetY := targetY + PointerTerms.flowY terms in
    let targetX :=
      targetX + (PointerTerms.dragX terms + PointerTerms.pressureX terms) in
    let targetY :=
      targetY + (PointerTerms.dragY terms + PointerTerms.pressureY terms) in
    (targetX, targetY)
  else (targetX, targetY).

(** The spring step and the choice of the displayed glyph. *)
Definition integrate (f : Frame) (s : Sim) (p : Particle.t) : Stepped.t :=
  let m := motion f in
  let targetX := (adjustedTarget f s p).1 in
  let targetY := (adjustedTarget f s p).2 in
  let combinedConverge := combinedConverge f s (Particle.seed p) in
  let physicsStep := Math_min #1.8 (delta f * #60) in
  let stiffness :=
    (#0.048 + #0.018 * combinedConverge) * physicsStep * Motion.settle m in
  let damping :=
    Math_pow
      (Math_max #0.78 (Math_min #0.9 (#0.845 - (Motion.drag m - 1) * #0.04)))
      physicsStep in
  let velX := Particle.velX p + (targetX - Particle.posX p) * stiffness in
  let velY := Particle.velY p + (targetY - Particle.posY p) * stiffness in
  let velX := velX * damping in
  let velY := velY * damping in
  let posX := Particle.posX p + velX * physicsStep in
  let posY := Particle.posY p + velY * physicsStep in
  let glyphProgress :=
    smoothstep #0.18 #0.92 (Math_min combinedConverge (retargetBlend s)) in
  let switchGate :=
    #0.5 + (Math_sin (Particle.seed p * #23.1) * #0.5 + #0.5) * #0.2 in
  {| Stepped.velX := velX; Stepped.velY := velY;
     Stepped.posX := posX; Stepped.posY := posY;
     Stepped.showTarget := bool_decide (switchGate < glyphProgress) |}.

(** The cells of particle [i]. *)
Definition readParticle (d : ForegroundData.t) (i : nat) : result Particle.t :=
  seed ← readCell (ForegroundData.seed d) i;
  homeX ← readCell (ForegroundData.homeX d) i;
  homeY ← readCell (ForegroundData.homeY d) i;
  targetX ← readCell (ForegroundData.targetX d) i;
  targetY ← readCell (ForegroundData.targetY d) i;
  velX ← readCell (ForegroundData.velX d) i;
  velY ← readCell (ForegroundData.velY d) i;
  posX ← readCell (ForegroundData.posX d) i;
  posY ← readCell (ForegroundData.posY d) i;
  mret {| Particle.seed := seed;
          Particle.homeX := homeX; Particle.homeY := homeY;
          Particle.targetX := targetX; Particle.targetY := targetY;
          Particle.posX := posX; Particle.posY := posY;
          Particle.velX := velX; Particle.velY := velY |}.

(** The stores at the end of the loop body: velocity, position, displayed
    glyph and offsets of particle [i]. *)
Definition writeParticle (s : Sim) (i : nat) (next : Stepped.t) : result Sim :=
  let d := foregroundData s in
  glyph ← readCell (if Stepped.showTarget next
                    then ForegroundData.targetGlyph d
                    else ForegroundData.baseGlyph d) i;
  mret (withParticles
          (ForegroundData.withMotion
             (<[i := Stepped.posX next]> (ForegroundData.posX d))
             (<[i := Stepped.posY next]> (ForegroundData.posY d))
             (<[i := Stepped.velX next]> (ForegroundData.velX d))
             (<[i := Stepped.velY next]> (ForegroundData.velY d)) d)
          (<[i := glyph]> (glyphs s))
          (<[(i * 2 + 1)%nat := Stepped.posY next]>
             (<[(i * 2)%nat := Stepped.posX next]> (offsets s)))
          s).

(** The body of the particle loop of [animate] for index [i]. *)
Definition animateParticle (f : Frame) (s : Sim) (i : nat) : result Sim :=
  p ← readParticle (foregroundData s) i;
  writeParticle s i (integrate f s p).

(** [animate] after the quality controller (lines 1810-2264): the state is
    smoothed, then every particle is integrated when the mesh exists and is
    visible. *)
Definition animateField (f : Frame) (s : Sim) : result Sim :=
  let s := animateScalars f s in
  if foregroundMesh s && bool_decide (#0.001 < foregroundAlpha f) then
    forEach (animateParticle f)
            (seq 0 (ForegroundData.count (foregroundData s))) s
  else Done s.

(** [animate]: the quality controller (lines 1779-1808) first; when it steps
    the quality scale the frame ends there. *)
Definition animate (f : Frame) (s : Sim) : result Sim :=
  if disposed s then Done s else
  let t := elapsedTime f in
  let fpsEma' := fpsEma s + (fps f - fpsEma s) * #0.08 in
  if decide (qualityEvalAt s < t) then
    let targetQuality := targetQualityOf (devicePixelRatio f) fpsEma' in
    if decide (#0.08 < Math_abs (targetQuality - qualityScale s)) then
      let stepped :=
        qualityScale s + Math_sign (targetQuality - qualityScale s) * #0.08 in
      Done (withQuality (Math_max #0.62 (Math_min #1.05 stepped))
              (t + #3.2) fpsEma' s)
    else
      animateField f (withQuality (qualityScale s) (t + #3.2) fpsEma' s)
  else
    animateField f (withQuality (qualityScale s) (qualityEvalAt s) fpsEma' s).

(** ** Runs *)

(** What happens to the simulation between two rebuilds of the mesh: a frame,
    a pointer move, a pointer reset (leave, cancel, blur, hidden tab) or a
    change of the prop [word], whose effect calls
    [retargetWord(normalizeWord(word))]. *)
Inductive Event : Type :=
| Tick (f : Frame)
| PointerMove (clientX clientY : num)
| PointerReset
| WordChange (word : option jsstring).

Definition handle (e : Event) (s : Sim) : result Sim :=
  match e with
  | Tick f => animate f s
  | PointerMove clientX clientY => Done (onPointerMove clientX clientY s)
  | PointerReset => Done (resetPointerState true s)
  | WordChange word => retargetWord (Some (normalizeWord word)) s
  end.

(** The outcomes after each event of a run; the run ends at an error. *)
Fixpoint trace (events : list Event) (s : Sim) : list (result Sim) :=
  match events with
  | [] => []
  | e :: rest =>
      match handle e s with
      | Done s' => Done s' :: trace rest s'
      | failed => [failed]
      end
  end.

End Animate.

(** ** Vocabulary of the statements *)

(** No two neighbouring units of a string are both white space. *)
Fixpoint noSpaceRun (s : jsstring) : bool :=
  match s with
  | a :: rest =>
      match rest with
      | b :: _ => negb (isWhiteSpace a && isWhiteSpace b) && noSpaceRun rest
      | [] => true
      end
  | [] => true
  end.

(** The first unit of a string is white space. *)
Definition startsWithSpace (s : jsstring) : bool :=
  match s with
  | c :: _ => isWhiteSpace c
  | [] => false
  end.

(** The shape of a normalised word: units of [[A-Z0-9 ]] only, no two
    neighbouring spaces, no space at either end. *)
Definition wordShape (w : jsstring) : Prop :=
  Forall (λ c, isWordUnit c = true) w
  ∧ noSpaceRun w = true
  ∧ head w ≠ Some 32%N
  ∧ last w ≠ Some 32%N.

(** Every value of a normalised map lies in [[0.4, 1.8]]. *)
Definition inStrengthRange (v : num) : Prop := #0.4 ≤ v ∧ v ≤ #1.8.

(** The bounds of the quality scale. *)
Definition inQualityRange (q : num) : Prop := #0.62 ≤ q ∧ q ≤ #1.05.

(** An outcome whose state, if there is one, has its quality scale within
    the bounds. *)
Definition qualityHolds (r : result Sim) : Prop :=
  match r with
  | Done s => inQualityRange (qualityScale s)
  | _ => True
  end.

(** The quality controller as the effect initialises it: the scale from the
    device pixel ratio, the first evaluation after 2 seconds, 60 frames per
    second assumed. *)
Definition initialQuality (dpr : num) (s : Sim) : Sim :=
  withQuality (initialQualityScale dpr) #2 #60 s.

(** The count and the arrays of home, position, velocity, seed and base
    glyph of [d'] are those of [d]. *)
Definition sameParticles (d d' : ForegroundData.t) : Prop :=
  ForegroundData.count d' = ForegroundData.count d
  ∧ ForegroundData.homeX d' = ForegroundData.homeX d
  ∧ ForegroundData.homeY d' = ForegroundData.homeY d
  ∧ ForegroundData.posX d' = ForegroundData.posX d
  ∧ ForegroundData.posY d' = ForegroundData.posY d
  ∧ ForegroundData.velX d' = ForegroundData.velX d
  ∧ ForegroundData.velY d' = ForegroundData.velY d
  ∧ ForegroundData.seed d' = ForegroundData.seed d
  ∧ ForegroundData.baseGlyph d' = ForegroundData.baseGlyph d.

(** The target of particle [i]: its position, glyph and slot. *)
Definition targetCells (d : ForegroundData.t) (i : nat)
    : option num * option num * option num * option N :=
  (ForegroundData.targetX d !! i, ForegroundData.targetY d !! i,
   ForegroundData.targetGlyph d !! i, ForegroundData.targetSlot d !! i).

(** Everything of the simulation outside the foreground field, the word, its
    target list and count, the fitted font size and the two retarget scalars
    is the same in [s'] as in [s]. *)
Definition sameElsewhere (s s' : Sim) : Prop :=
  viewportWidth s' = viewportWidth s
  ∧ viewportHeight s' = viewportHeight s
  ∧ foregroundStep s' = foregroundStep s
  ∧ activeFontSolid s' = activeFontSolid s
  ∧ qualityScale s' = qualityScale s
  ∧ qualityEvalAt s' = qualityEvalAt s
  ∧ fpsEma s' = fpsEma s
  ∧ foregroundMesh s' = foregroundMesh s
  ∧ glyphs s' = glyphs s
  ∧ offsets s' = offsets s
  ∧ disposed s' = disposed s
  ∧ pointerTargetX s' = pointerTargetX s
  ∧ pointerTargetY s' = pointerTargetY s
  ∧ pointerX s' = pointerX s
  ∧ pointerY s' = pointerY s
  ∧ pointerStrengthTarget s' = pointerStrengthTarget s
  ∧ pointerStrength s' = pointerStrength s
  ∧ pointerVelocityTargetX s' = pointerVelocityTargetX s
  ∧ pointerVelocityTargetY s' = pointerVelocityTargetY s
  ∧ pointerVelocityX s' = pointerVelocityX s
  ∧ pointerVelocityY s' = pointerVelocityY s
  ∧ pointerEnergy s' = pointerEnergy s
  ∧ ambientDriftX s' = ambientDriftX s
  ∧ ambientDriftY s' = ambientDriftY s.

(** The state with the pointer absent: its strength is 0, so the pointer
    branch of the particle loop is skipped. *)
Definition pointerAbsent (s : Sim) : Sim :=
  withPointer (pointerX s) (pointerY s) 0
    (pointerVelocityX s) (pointerVelocityY s) (pointerEnergy s) s.

(** The per-particle state that a frame shows: positions, velocities and the
    displayed glyphs. *)
Definition particleState (s : Sim)
    : list num * list num * list num * list num * list num :=
  (ForegroundData.posX (foregroundData s), ForegroundData.posY (foregroundData s),
   ForegroundData.velX (foregroundData s), ForegroundData.velY (foregroundData s),
   glyphs s).

(** Two events that differ at most in the interaction mode of a frame. *)
Definition sameButMode (e1 e2 : Event) : Prop :=
  match e1 with
  | Tick f1 => ∃ mode, e2 = Tick (withMode mode f1)
  | _ => e2 = e1
  end.

(** Two outcomes that are states with the same per-particle state. *)
Definition sameParticleState (r1 r2 : result Sim) : Prop :=
  ∃ s1 s2, r1 = Done s1 ∧ r2 = Done s2 ∧ particleState s1 = particleState s2.

Section RunVocabulary.
Context `{Host}.

(** A run without error in which the pointer strength is 0 at every tick
    (after the smoothing of that tick, which is what its particle loop
    reads). *)
Fixpoint quietRun (events : list Event) (s : Sim) : Prop :=
  match events with
  | [] => True
  | e :: rest =>
      match handle e s with
      | Done s' =>
          match e with
          | Tick _ => pointerStrength s' = 0
          | _ => True
          end
          ∧ quietRun rest s'
      | _ => False
      end
  end.

End RunVocabulary.

(** ** A small field for running the model *)

(** Three particles on a row, five target points, the word GEIST; the slots
    are those of a fresh build ([(i * 17) mod 5]). *)
Definition demoTargets : list Target.t :=
  [ {| Target.x := - #2; Target.y := 0; Target.glyph := #6 |};
    {| Target.x := - 1; Target.y := 0; Target.glyph := #4 |};
    {| Target.x := 0; Target.y := 0; Target.glyph := #8 |};
    {| Target.x := 1; Target.y := 0; Target.glyph := #18 |};
    {| Target.x := #2; Target.y := 0; Target.glyph := #19 |} ].

Definition demoData : ForegroundData.t := {|
  ForegroundData.count := 3%nat;
  ForegroundData.homeX := [ - #16; 0; #16 ];
  ForegroundData.homeY := [ #8; #8; #8 ];
  ForegroundData.posX := [ - #15; 1; #17 ];
  ForegroundData.posY := [ #7; #8; #9 ];
  ForegroundData.velX := [ 0; 0; 0 ];
  ForegroundData.velY := [ 0; 0; 0 ];
  ForegroundData.seed := [ #0.5; #1.5; #2.5 ];
  ForegroundData.targetX := [ - #2; 0; #2 ];
  ForegroundData.targetY := [ 0; 0; 0 ];
  ForegroundData.baseGlyph := [ #3; #4; #5 ];
  ForegroundData.targetGlyph := [ #6; #8; #19 ];
  ForegroundData.targetSlot := [ 0; 2; 4 ]%N;
|}.

Definition demoSim : Sim := {|
  viewportWidth := #640;
  viewportHeight := #480;
  foregroundStep := #16;
  solidFontSize := #200;
  activeFontSolid := js "monospace";
  currentWord := js "GEIST";
  retargetMorph := 1;
  retargetExcite := 0;
  qualityScale := 1;
  qualityEvalAt := #2;
  fpsEma := #60;
  foregroundData := demoData;
  foregroundTargets := demoTargets;
  targetCount := 5%nat;
  foregroundMesh := true;
  glyphs := [ #3; #4; #5 ];
  offsets := [ - #15; #7; 1; #8; #17; #9 ];
  disposed := false;
  pointerTargetX := 0;
  pointerTargetY := 0;
  pointerX := 0;
  pointerY := 0;
  pointerStrengthTarget := 0;
  pointerStrength := 0;
  pointerVelocityTargetX := 0;
  pointerVelocityTargetY := 0;
  pointerVelocityX := 0;
  pointerVelocityY := 0;
  pointerEnergy := 0;
  ambientDriftX := 0;
  ambientDriftY := 0;
|}.

(** The same field while the sampler has found no point. *)
Definition demoBlank : Sim := withWord (js "GEIST") [] #200 demoSim.

(** The same field as the build leaves it before the assignment: the target
    arrays are fresh (all 0) and the target count is 0. *)
Definition demoUnassigned : Sim :=
  withAssignment
    (ForegroundData.withTargets [0; 0; 0] [0; 0; 0] [0; 0; 0] [0; 0; 0]%N
       demoData)
    0 demoSim.

(** A particle far from the origin, for the demo field with the pointer
    present at the centre of the viewport. *)
Definition demoParticle : Particle.t := {|
  Particle.seed := #0.5;
  Particle.homeX := #300; Particle.homeY := #200;
  Particle.targetX := #280; Particle.targetY := #190;
  Particle.posX := #301; Particle.posY := #199;
  Particle.velX := 0; Particle.velY := 0;
|}.

(** A particle that is itself far from the centre of the viewport, while its
    home and its target are near it. *)
Definition demoFarParticle : Particle.t := {|
  Particle.seed := #0.5;
  Particle.homeX := #30; Particle.homeY := #20;
  Particle.targetX := #28; Particle.targetY := #19;
  Particle.posX := #300; Particle.posY := #200;
  Particle.velX := 0; Particle.velY := 0;
|}.

Definition demoFrame : Frame := {|
  clockDelta := #0.016;
  elapsedTime := #3;
  devicePixelRatio := #2;
  motion := {| Motion.flow := 1; Motion.drag := 1;
               Motion.camera := 1; Motion.settle := 1 |};
  interactionMode := "vortex";
  modeStrengths := VUndefined;
|}.

Definition demoPointerSim : Sim := withPointer 0 0 1 0 0 0 demoSim.

(** A run of the demo field without pointer: two frames around a word
    change, in the mode vortex. *)
Definition demoRun : list Event :=
  [ Tick demoFrame;
    WordChange (Some (js "mesh"));
    Tick demoFrame ].

(** The same run in the modes magnet and tide. *)
Definition demoRunOtherModes : list Event :=
  [ Tick (withMode "magnet" demoFrame);
    WordChange (Some (js "mesh"));
    Tick (withMode "tide" demoFrame) ].

(** ** More of the module level: colour modes and easing *)

Definition COLOR_MODE_IDS : list string := ["white"; "colorful"]%string.

Definition getColorModeIndex (mode : string) : nat :=
  default 0%nat (indexOf COLOR_MODE_IDS mode).

(** [easeOutBack]: [Math.pow] with the literal exponents 3 and 2 is a
    product of rationals and is written as such. *)
Definition easeOutBack (x : num) : num :=
  let c1 := #1.70158 in
  let c3 := c1 + 1 in
  let t := clamp01 x in
  1 + c3 * (t - 1) ^ 3 + c1 * (t - 1) ^ 2.

(** ** Vocabulary of the further properties *)

(** The sine of the host stays within [[-1, 1]], as the real sine does. *)
Definition sineBounded `{Host} : Prop :=
  ∀ v, - 1 ≤ Math_sin v ∧ Math_sin v ≤ 1.


Definition demoRetargeted : Sim := withRetarget 0 1 demoSim.

(** A frame before the first evaluation of the quality (which the demo field
    has at 2 seconds): it goes through the particle loop. *)
Definition demoEarlyFrame : Frame := {|
  clockDelta := #0.016;
  elapsedTime := 1;
  devicePixelRatio := #2;
  motion := {| Motion.flow := 1; Motion.drag := 1;
               Motion.camera := 1; Motion.settle := 1 |};
  interactionMode := "vortex";
  modeStrengths := VUndefined;
|}.

(** The pointer has been reset and has not moved since: its targets and its
    smoothed position, velocity and strength are 0. *)
Definition pointerIdle (s : Sim) : Prop :=
  pointerTargetX s = 0 ∧ pointerTargetY s = 0
  ∧ pointerStrengthTarget s = 0
  ∧ pointerVelocityTargetX s = 0 ∧ pointerVelocityTargetY s = 0
  ∧ pointerX s = 0 ∧ pointerY s = 0
  ∧ pointerStrength s = 0
  ∧ pointerVelocityX s = 0 ∧ pointerVelocityY s = 0.

Definition noPointerMove (e : Event) : Prop :=
  match e with
  | PointerMove _ _ => False
  | _ => True
  end.

(** An outcome whose state, if there is one, has the pointer idle. *)
Definition pointerIdleAfter (r : result Sim) : Prop :=
  match r with
  | Done s => pointerIdle s
  | _ => True
  end.

(** Two states with the same pointer variables, besides the energy. *)
Definition samePointer (s s' : Sim) : Prop :=
  pointerTargetX s' = pointerTargetX s ∧ pointerTargetY s' = pointerTargetY s
  ∧ pointerStrengthTarget s' = pointerStrengthTarget s
  ∧ pointerVelocityTargetX s' = pointerVelocityTargetX s
  ∧ pointerVelocityTargetY s' = pointerVelocityTargetY s
  ∧ pointerX s' = pointerX s ∧ pointerY s' = pointerY s
  ∧ pointerStrength s' = pointerStrength s
  ∧ pointerVelocityX s' = pointerVelocityX s
  ∧ pointerVelocityY s' = pointerVelocityY s.

(** The count and the arrays that a frame only reads are the same in [d']
    as in [d]. *)
Definition sameFixedArrays (d d' : ForegroundData.t) : Prop :=
  ForegroundData.count d' = ForegroundData.count d
  ∧ ForegroundData.homeX d' = ForegroundData.homeX d
  ∧ ForegroundData.homeY d' = ForegroundData.homeY d
  ∧ ForegroundData.seed d' = ForegroundData.seed d
  ∧ ForegroundData.baseGlyph d' = ForegroundData.baseGlyph d
  ∧ ForegroundData.targetX d' = ForegroundData.targetX d
  ∧ ForegroundData.targetY d' = ForegroundData.targetY d
  ∧ ForegroundData.targetGlyph d' = ForegroundData.targetGlyph d
  ∧ ForegroundData.targetSlot d' = ForegroundData.targetSlot d.

(** What a frame leaves of the simulation besides those arrays: the
    viewport, the lattice step, the fonts, the word, its target list and
    count, and whether the mesh exists. *)
Definition sameScene (s s' : Sim) : Prop :=
  viewportWidth s' = viewportWidth s
  ∧ viewportHeight s' = viewportHeight s
  ∧ foregroundStep s' = foregroundStep s
  ∧ solidFontSize s' = solidFontSize s
  ∧ activeFontSolid s' = activeFontSolid s
  ∧ currentWord s' = currentWord s
  ∧ foregroundTargets s' = foregroundTargets s
  ∧ targetCount s' = targetCount s
  ∧ foregroundMesh s' = foregroundMesh s
  ∧ disposed s' = disposed s.

(** An outcome that is a state with a well-formed field. *)
Definition endsWellFormed (r : result Sim) : Prop :=
  ∃ s', r = Done s' ∧ ForegroundData.wf (foregroundData s').

(** The array of the attribute [aOffset] holds the positions of the
    particles: cell [2 i] is [posX[i]] and cell [2 i + 1] is [posY[i]]. *)
Definition offsetsMirror (s : Sim) : Prop :=
  length (offsets s) = (ForegroundData.count (foregroundData s) * 2)%nat
  ∧ ∀ i, (i < ForegroundData.count (foregroundData s))%nat →
      offsets s !! (i * 2)%nat = ForegroundData.posX (foregroundData s) !! i
      ∧ offsets s !! (i * 2 + 1)%nat
        = ForegroundData.posY (foregroundData s) !! i.

Definition offsetsMirrorAfter (r : result Sim) : Prop :=
  match r with
  | Done s => offsetsMirror s
  | _ => True
  end.

(** ** The motion settings (the effect on [motionSettings]) *)

(** A number that is not [NaN]. *)
Inductive realnumber : Type :=
| RInfinity (negative : bool)
| RFinite (q : num).

(** [value.key] for a property that no primitive has: a [TypeError] on
    [undefined] and [null], [undefined] on the other primitives. *)
Definition getProperty (value : jsval) (key : string) : result jsval :=
  match value with
  | VUndefined | VNull => TypeError
  | VObject get => Done (get key)
  | _ => Done VUndefined
  end.

(** [Math.max(lo, Math.min(hi, raw))] *)
Definition clampReal (lo hi : num) (raw : realnumber) : num :=
  match raw with
  | RFinite q => Math_max lo (Math_min hi q)
  | RInfinity false => Math_max lo hi
  | RInfinity true => lo
  end.

Section MotionSettings.
Context `{Host}.

(** [Number(v) || 1]: [NaN] and 0 are falsy. *)
Definition numberOrOne (v : jsval) : realnumber :=
  match ToNumber v with
  | JNaN => RFinite 1
  | JFinite q => if decide (q = 0) then RFinite 1 else RFinite q
  | JInfinity negative => RInfinity negative
  end.

Definition motionSetting (v : jsval) : num :=
  clampReal #0.5 #1.6 (numberOrOne v).

(** The effect that fills [motionRef.current]. *)
Definition motionEffect (motionSettings : jsval) : result Motion.t :=
  flow ← getProperty motionSettings "flow";
  drag ← getProperty motionSettings "drag";
  camera ← getProperty motionSettings "camera";
  settle ← getProperty motionSettings "settle";
  mret {| Motion.flow := motionSetting flow;
          Motion.drag := motionSetting drag;
          Motion.camera := motionSetting camera;
          Motion.settle := motionSetting settle |}.

End MotionSettings.

(** ** The application around the component ([App.jsx]) *)

Module App.
Section App.
Context `{Host}.

(** [sanitizeWord]: as [normalizeWord], but only the start is trimmed, and
    the result is cut to 18 units. *)
Definition sanitizeWord (value : jsstring) : jsstring :=
  take 18 (trimStart (collapseRuns false (removeOtherUnits (toUpperCase value)))).

(** [Number.isFinite(parsed) ? Math.max(lo, Math.min(hi, parsed)) : fallback]
    with [parsed = Number(value)] *)
Definition clampOr (lo hi fallback : num) (value : jsval) : num :=
  match ToNumber value with
  | JFinite q => Math_max lo (Math_min hi q)
  | _ => fallback
  end.

Definition clampMotion : jsval → num := clampOr #0.5 #1.6 1.
Definition clampModeStrength : jsval → num := clampOr #0.4 #1.8 1.

(** [a ?? b] *)
Definition orElse (a b : jsval) : jsval :=
  match a with
  | VUndefined | VNull => b
  | _ => a
  end.

(** The object [MODE_STRENGTH_DEFAULTS], as its property lookup. *)
Definition MODE_STRENGTH_DEFAULTS (key : string) : jsval :=
  if decide (key ∈ INTERACTION_MODE_IDS) then VNumber (JFinite 1)
  else VUndefined.

(** [normalizeModeStrengths(value, fallback)]; [fallback] is an object. *)
Definition normalizeModeStrengths (value : jsval) (fallback : string → jsval)
    : gmap string num :=
  let source := strengthSource value in
  foldl (λ normalized modeId,
           <[modeId :=
               clampModeStrength
                 (orElse (orElse (source modeId) (fallback modeId))
                         (VNumber (JFinite 1)))]> normalized)
        ∅ INTERACTION_MODE_IDS.

End App.
End App.

(** The object that holds a map of strengths, as the prop [modeStrengths]
    that the application passes to the component. *)
Definition strengthsObject (strengths : gmap string num) : jsval :=
  VObject (λ key,
    match strengths !! key with
    | Some q => VNumber (JFinite q)
    | None => VUndefined
    end).

(** The bounds of a motion setting. *)
Definition inMotionRange (v : num) : Prop := #0.5 ≤ v ∧ v ≤ #1.6.

(** [toUpperCase] leaves a string of upper-case letters, digits and spaces
    as it is, as the real one does. *)
Definition upperFixesWords `{Host} : Prop :=
  ∀ s, Forall (λ c, isWordUnit c = true) s → toUpperCase s = s.

(** ** The settings of the paper effect, the background mesh and the fonts *)

(** [v === a || v === b || ... ? v : fallback] *)
Definition oneOf (names : list string) (fallback : string) (v : jsval)
    : jsstring :=
  match v with
  | VString s => if bool_decide (s ∈ js <$> names) then s else js fallback
  | _ => js fallback
  end.

Module PaperFx.
Record t : Type := {
  enabled : bool;
  intensity : num;
  amount : num;
  speed : num;
  effect : jsstring;
  dotShape : jsstring;
  dotDensity : num;
  grainShape : jsstring;
  palette : jsstring;
}.
End PaperFx.

Module BackgroundMeshFx.
Record t : Type := {
  style : jsstring;
  amount : num;
  dotShape : jsstring;
  dotDensity : num;
  grainShape : jsstring;
}.
End BackgroundMeshFx.

Module FontSet.
Record t : Type := {
  line : jsstring;
  solid : jsstring;
  background : jsstring;
}.
End FontSet.

Definition PAPER_EFFECTS : list string :=
  ["swirl"; "waves"; "rays"; "dotgrid"; "grain"]%string.
Definition DOT_SHAPES : list string := ["diamond"; "square"; "triangle"]%string.
Definition GRAIN_SHAPES : list string :=
  ["wave"; "dots"; "truchet"; "ripple"; "blob"; "sphere"]%string.
Definition PAPER_PALETTES : list string := ["aurora"; "mono"]%string.
Definition MESH_STYLES : list string := ["dotgrid"; "grain"]%string.

Section EffectSettings.
Context `{Host}.

(** [v === undefined || v === null ? fallback : Number(v)], and then
    [Number.isFinite(raw) ? raw : fallback] with the same fallback. *)
Definition numberOr (fallback : num) (v : jsval) : num :=
  match v with
  | VUndefined | VNull => fallback
  | _ =>
      match ToNumber v with
      | JFinite q => q
      | _ => fallback
      end
  end.

(** [normalizePaperFx]; the guard on the argument is that of
    [normalizeModeStrengths]. *)
Definition normalizePaperFx (paperFx : jsval) : PaperFx.t :=
  let source := strengthSource paperFx in
  {| PaperFx.enabled :=
       match source "enabled"%string with
       | VBool false => false
       | _ => true
       end;
     PaperFx.intensity :=
       Math_max 0 (Math_min 1 (numberOr #0.34 (source "intensity"%string)));
     PaperFx.amount :=
       Math_max 0 (Math_min 1 (numberOr #0.58 (source "amount"%string)));
     PaperFx.speed :=
       Math_max #0.2 (Math_min #2.2 (numberOr 1 (source "speed"%string)));
     PaperFx.effect := oneOf PAPER_EFFECTS "warp" (source "effect"%string);
     PaperFx.dotShape := oneOf DOT_SHAPES "circle" (source "dotShape"%string);
     PaperFx.dotDensity :=
       Math_max #0.1
         (Math_min 1 (numberOr #0.58 (source "dotDensity"%string)));
     PaperFx.grainShape :=
       oneOf GRAIN_SHAPES "corners" (source "grainShape"%string);
     PaperFx.palette := oneOf PAPER_PALETTES "prism" (source "palette"%string);
  |}.

Definition normalizeBackgroundMeshFx (backgroundMeshFx : jsval)
    : BackgroundMeshFx.t :=
  let source := strengthSource backgroundMeshFx in
  {| BackgroundMeshFx.style :=
       oneOf MESH_STYLES "letters" (source "style"%string);
     BackgroundMeshFx.amount :=
       Math_max 0 (Math_min 1 (numberOr #0.58 (source "amount"%string)));
     BackgroundMeshFx.dotShape :=
       oneOf DOT_SHAPES "circle" (source "dotShape"%string);
     BackgroundMeshFx.dotDensity :=
       Math_max #0.1
         (Math_min 1 (numberOr #0.58 (source "dotDensity"%string)));
     BackgroundMeshFx.grainShape :=
       oneOf GRAIN_SHAPES "corners" (source "grainShape"%string);
  |}.

End EffectSettings.

Definition getPaperPaletteIndex (palette : jsstring) : nat :=
  if bool_decide (palette = js "aurora") then 1%nat
  else if bool_decide (palette = js "mono") then 2%nat
  else 0%nat.

Definition getPaperEffectIndex (effect : jsstring) : nat :=
  if bool_decide (effect = js "swirl") then 1%nat
  else if bool_decide (effect = js "waves") then 2%nat
  else if bool_decide (effect = js "rays") then 3%nat
  else if bool_decide (effect = js "dotgrid") then 4%nat
  else if bool_decide (effect = js "grain") then 5%nat
  else 0%nat.

Definition getPaperDotShapeIndex (shape : jsstring) : nat :=
  if bool_decide (shape = js "diamond") then 1%nat
  else if bool_decide (shape = js "square") then 2%nat
  else if bool_decide (shape = js "triangle") then 3%nat
  else 0%nat.

Definition getPaperGrainShapeIndex (shape : jsstring) : nat :=
  if bool_decide (shape = js "wave") then 1%nat
  else if bool_decide (shape = js "dots") then 2%nat
  else if bool_decide (shape = js "truchet") then 3%nat
  else if bool_decide (shape = js "ripple") then 4%nat
  else if bool_decide (shape = js "blob") then 5%nat
  else if bool_decide (shape = js "sphere") then 6%nat
  else 0%nat.

(** The object with the fields of normalised settings, as a prop. *)
Definition paperFxObject (p : PaperFx.t) : jsval :=
  VObject (λ key,
    if decide (key = "enabled"%string) then VBool (PaperFx.enabled p)
    else if decide (key = "intensity"%string)
      then VNumber (JFinite (PaperFx.intensity p))
    else if decide (key = "amount"%string)
      then VNumber (JFinite (PaperFx.amount p))
    else if decide (key = "speed"%string)
      then VNumber (JFinite (PaperFx.speed p))
    else if decide (key = "effect"%string) then VString (PaperFx.effect p)
    else if decide (key = "dotShape"%string) then VString (PaperFx.dotShape p)
    else if decide (key = "dotDensity"%string)
      then VNumber (JFinite (PaperFx.dotDensity p))
    else if decide (key = "grainShape"%string)
      then VString (PaperFx.grainShape p)
    else if decide (key = "palette"%string) then VString (PaperFx.palette p)
    else VUndefined).

Definition backgroundMeshFxObject (b : BackgroundMeshFx.t) : jsval :=
  VObject (λ key,
    if decide (key = "style"%string) then VString (BackgroundMeshFx.style b)
    else if decide (key = "amount"%string)
      then VNumber (JFinite (BackgroundMeshFx.amount b))
    else if decide (key = "dotShape"%string)
      then VString (BackgroundMeshFx.dotShape b)
    else if decide (key = "dotDensity"%string)
      then VNumber (JFinite (BackgroundMeshFx.dotDensity b))
    else if decide (key = "grainShape"%string)
      then VString (BackgroundMeshFx.grainShape b)
    else VUndefined).

(** A font family written in double quotes. *)
Definition quoted (name : string) : jsstring := 34%N :: js name ++ [34%N].

Definition monospaceTail : jsstring :=
  js ", ui-monospace, SFMono-Regular, Menlo, Monaco, monospace".

(** The fallback of [normalizeFontSet]. *)
Definition fallbackFontSet : FontSet.t := {|
  FontSet.line := quoted "Geist Pixel Line" ++ monospaceTail;
  FontSet.solid := quoted "Geist Pixel Square" ++ monospaceTail;
  FontSet.background := quoted "Geist Pixel Line" ++ monospaceTail;
|}.

(** [typeof v === "string" && v.trim().length > 0 ? v.trim() : fallback] *)
Definition fontOr (fallback : jsstring) (v : jsval) : jsstring :=
  match v with
  | VString s => if (0 <? length (trim s))%nat then trim s else fallback
  | _ => fallback
  end.

Definition normalizeFontSet (fontSet : jsval) : FontSet.t :=
  match fontSet with
  | VObject get =>
      {| FontSet.line := fontOr (FontSet.line fallbackFontSet) (get "line"%string);
         FontSet.solid :=
           fontOr (FontSet.solid fallbackFontSet) (get "solid"%string);
         FontSet.background :=
           fontOr (FontSet.background fallbackFontSet)
                  (get "background"%string) |}
  | _ => fallbackFontSet
  end.

Definition fontSetObject (fonts : FontSet.t) : jsval :=
  VObject (λ key,
    if decide (key = "line"%string) then VString (FontSet.line fonts)
    else if decide (key = "solid"%string) then VString (FontSet.solid fonts)
    else if decide (key = "background"%string)
      then VString (FontSet.background fonts)
    else VUndefined).

(** A string that is not empty and has no white space at either end. *)
Definition trimmedName (s : jsstring) : Prop :=
  s ≠ [] ∧ startsWithSpace s = false ∧ startsWithSpace (reverse s) = false.

(** One of the names, or the fallback. *)
Definition nameAmong (names : list string) (fallback : string) (s : jsstring)
    : Prop :=
  s ∈ js <$> (fallback :: names).

(** ** Single precision *)

(** [floor (log2 a)] for a positive rational [a]: the difference of the bit
    lengths of numerator and denominator, or one less. *)
Definition ilog2 (a : Q) : Z :=
  let e := (Z.log2 (Qnum a) - Z.log2 (Zpos (Qden a)))%Z in
  if Qle_bool (Qpower 2 e) a then e else (e - 1)%Z.

(** The nearest whole number, the even one of two that are as near. *)
Definition roundHalfEven (y : Q) : Z :=
  let n := Qfloor y in
  match (y - inject_Z n ?= Qmake 1 2)%Q with
  | Lt => n
  | Gt => (n + 1)%Z
  | Eq => if Z.even n then n else (n + 1)%Z
  end.

(** The single-precision number nearest to a positive rational: 24 bits of
    precision at the exponent of the number, and below 2^-126 the fixed step
    2^-149 of the subnormal numbers. *)
Definition nearestSingle (a : Q) : Q :=
  let e := Z.max (ilog2 a) (-126) in
  let quantum := Qpower 2 (e - 23) in
  (inject_Z (roundHalfEven (a / quantum)) * quantum)%Q.

(** [Math.fround], the conversion that a store into a [Float32Array]
    performs: rounding to the nearest single-precision number, ties to the
    even one.  (A number of 2^128 or more becomes an infinity in the source;
    no store of the model comes near.) *)
Definition Math_fround (v : num) : num :=
  let a := Qabs v in
  if Qeq_bool a 0 then 0
  else Q2Qc (if Qle_bool 0 v then nearestSingle a
             else (- nearestSingle a)%Q).

(** Bounds of the rounding: the unit roundoff 2^-24 is below 6 parts in
    10^8, and half the step of the subnormal numbers, 2^-150, is below
    10^-40. *)
Definition singleRoundoff : num := #0.00000006.
Definition singleTiny : num :=
  #0.0000000000000000000000000000000000000001.

(** ** The build of the foreground mesh *)

(** The glyphs of the foreground atlas, as code units. *)
Definition FOREGROUND_GLYPHS : jsstring :=
  js "ABCDEFGHIJKLMNOPQRSTUVWXYZ0123456789".

Definition Math_ceil (v : num) : Z := Qceiling v.

(** [Math.PI]: the double nearest to pi, which is this rational. *)
Definition Math_PI : num :=
  #3.141592653589793115997963468544185161590576171875.

(** [randomBetween(min, max)] for the given draw of [Math.random()]. *)
Definition randomBetween (draw min max : num) : num :=
  draw * (max - min) + min.

(** The size of the viewport. *)
Definition withViewport (viewportWidth' : num) (viewportHeight' : num)
    (s : Sim) : Sim :=
  {| viewportWidth := viewportWidth'; viewportHeight := viewportHeight';
     foregroundStep := foregroundStep s; solidFontSize := solidFontSize s;
     activeFontSolid := activeFontSolid s; currentWord := currentWord s;
     retargetMorph := retargetMorph s; retargetExcite := retargetExcite s;
     qualityScale := qualityScale s; qualityEvalAt := qualityEvalAt s;
     fpsEma := fpsEma s; foregroundData := foregroundData s;
     foregroundTargets := foregroundTargets s; targetCount := targetCount s;
     foregroundMesh := foregroundMesh s; glyphs := glyphs s;
     offsets := offsets s; disposed := disposed s;
     pointerTargetX := pointerTargetX s; pointerTargetY := pointerTargetY s;
     pointerX := pointerX s; pointerY := pointerY s;
     pointerStrengthTarget := pointerStrengthTarget s;
     pointerStrength := pointerStrength s;
     pointerVelocityTargetX := pointerVelocityTargetX s;
     pointerVelocityTargetY := pointerVelocityTargetY s;
     pointerVelocityX := pointerVelocityX s;
     pointerVelocityY := pointerVelocityY s;
     pointerEnergy := pointerEnergy s; ambientDriftX := ambientDriftX s;
     ambientDriftY := ambientDriftY s |}.

(** The step of the lattice. *)
Definition withStep (foregroundStep' : num)
    (s : Sim) : Sim :=
  {| viewportWidth := viewportWidth s; viewportHeight := viewportHeight s;
     foregroundStep := foregroundStep'; solidFontSize := solidFontSize s;
     activeFontSolid := activeFontSolid s; currentWord := currentWord s;
     retargetMorph := retargetMorph s; retargetExcite := retargetExcite s;
     qualityScale := qualityScale s; qualityEvalAt := qualityEvalAt s;
     fpsEma := fpsEma s; foregroundData := foregroundData s;
     foregroundTargets := foregroundTargets s; targetCount := targetCount s;
     foregroundMesh := foregroundMesh s; glyphs := glyphs s;
     offsets := offsets s; disposed := disposed s;
     pointerTargetX := pointerTargetX s; pointerTargetY := pointerTargetY s;
     pointerX := pointerX s; pointerY := pointerY s;
     pointerStrengthTarget := pointerStrengthTarget s;
     pointerStrength := pointerStrength s;
     pointerVelocityTargetX := pointerVelocityTargetX s;
     pointerVelocityTargetY := pointerVelocityTargetY s;
     pointerVelocityX := pointerVelocityX s;
     pointerVelocityY := pointerVelocityY s;
     pointerEnergy := pointerEnergy s; ambientDriftX := ambientDriftX s;
     ambientDriftY := ambientDriftY s |}.

(** The mesh and the arrays of its two dynamic attributes. *)
Definition withMesh (foregroundMesh' : bool) (glyphs' : list num) (offsets' : list num)
    (s : Sim) : Sim :=
  {| viewportWidth := viewportWidth s; viewportHeight := viewportHeight s;
     foregroundStep := foregroundStep s; solidFontSize := solidFontSize s;
     activeFontSolid := activeFontSolid s; currentWord := currentWord s;
     retargetMorph := retargetMorph s; retargetExcite := retargetExcite s;
     qualityScale := qualityScale s; qualityEvalAt := qualityEvalAt s;
     fpsEma := fpsEma s; foregroundData := foregroundData s;
     foregroundTargets := foregroundTargets s; targetCount := targetCount s;
     foregroundMesh := foregroundMesh'; glyphs := glyphs';
     offsets := offsets'; disposed := disposed s;
     pointerTargetX := pointerTargetX s; pointerTargetY := pointerTargetY s;
     pointerX := pointerX s; pointerY := pointerY s;
     pointerStrengthTarget := pointerStrengthTarget s;
     pointerStrength := pointerStrength s;
     pointerVelocityTargetX := pointerVelocityTargetX s;
     pointerVelocityTargetY := pointerVelocityTargetY s;
     pointerVelocityX := pointerVelocityX s;
     pointerVelocityY := pointerVelocityY s;
     pointerEnergy := pointerEnergy s; ambientDriftX := ambientDriftX s;
     ambientDriftY := ambientDriftY s |}.

(** The arrays of the field that only the build writes. *)
Definition withHome (homeX' homeY' seed' baseGlyph' : list num)
    (d : ForegroundData.t) : ForegroundData.t :=
  {| ForegroundData.count := ForegroundData.count d;
     ForegroundData.homeX := homeX'; ForegroundData.homeY := homeY';
     ForegroundData.posX := ForegroundData.posX d;
     ForegroundData.posY := ForegroundData.posY d;
     ForegroundData.velX := ForegroundData.velX d;
     ForegroundData.velY := ForegroundData.velY d;
     ForegroundData.seed := seed';
     ForegroundData.targetX := ForegroundData.targetX d;
     ForegroundData.targetY := ForegroundData.targetY d;
     ForegroundData.baseGlyph := baseGlyph';
     ForegroundData.targetGlyph := ForegroundData.targetGlyph d;
     ForegroundData.targetSlot := ForegroundData.targetSlot d |}.

(** [foregroundData] after the thirteen assignments of fresh typed arrays:
    every cell is 0. *)
Definition allocate (count : nat) : ForegroundData.t :=
  {| ForegroundData.count := count;
     ForegroundData.homeX := replicate count 0;
     ForegroundData.homeY := replicate count 0;
     ForegroundData.posX := replicate count 0;
     ForegroundData.posY := replicate count 0;
     ForegroundData.velX := replicate count 0;
     ForegroundData.velY := replicate count 0;
     ForegroundData.seed := replicate count 0;
     ForegroundData.targetX := replicate count 0;
     ForegroundData.targetY := replicate count 0;
     ForegroundData.baseGlyph := replicate count 0;
     ForegroundData.targetGlyph := replicate count 0;
     ForegroundData.targetSlot := replicate count 0%N |}.

(** What the loops of the build carry: the field, the arrays [offsets] and
    [glyph] of the two dynamic attributes, the running [index], and the
    number of draws of [Math.random()] made so far. *)
Module Build.
Record t : Type := {
  data : ForegroundData.t;
  offsets : list num;
  glyph : list num;
  index : nat;
  drawn : nat;
}.
End Build.

(** [baseStep] and [foregroundStep] of the build (the quality scale is not
    0, see the bounds of the quality controller). *)
Definition latticeStep (s : Sim) : num :=
  let baseStep :=
    Math_max #14
      (Math_min #23
         (ofZ (Math_round
                 (Math_min (viewportWidth s) (viewportHeight s) / #43)))) in
  Math_max #14 (Math_min #34 (baseStep / qualityScale s)).

Section Build.
Context `{Host}.

(** [Math.random()]: the value of the k-th draw since the page was loaded. *)
Variable random : nat → num.

(** The body of the two loops of the build at [row] and [col] (lines
    1482-1520): twelve draws, of which the last six go to attributes that
    the simulation never reads (tone, depth and the two tints).  The arrays
    are [Float32Array]s: each store rounds to single precision.  What is
    read back from one array and stored into another ([offsets] from [posX]
    and [posY], [baseGlyph] from [glyph]) is a single-precision number
    already. *)
Definition buildCell (step : num) (s : Sim) (row col : nat) (b : Build.t)
    : result Build.t :=
  let d := Build.data b in
  let index := Build.index b in
  let k := Build.drawn b in
  let x := - viewportWidth s * #0.5 + ofNat col * step + step * #0.5 in
  let y := viewportHeight s * #0.5 - ofNat row * step - step * #0.5 in
  let homeX := <[index := Math_fround x]> (ForegroundData.homeX d) in
  let homeY := <[index := Math_fround y]> (ForegroundData.homeY d) in
  let posX :=
    <[index := Math_fround
                 (x + randomBetween (random k)
                        (- step * #0.25) (step * #0.25))]>
      (ForegroundData.posX d) in
  let posY :=
    <[index := Math_fround
                 (y + randomBetween (random (k + 1)%nat)
                        (- step * #0.25) (step * #0.25))]>
      (ForegroundData.posY d) in
  let velX :=
    <[index := Math_fround
                 (randomBetween (random (k + 2)%nat) (- #0.45) #0.45)]>
      (ForegroundData.velX d) in
  let velY :=
    <[index := Math_fround
                 (randomBetween (random (k + 3)%nat) (- #0.45) #0.45)]>
      (ForegroundData.velY d) in
  let seed :=
    <[index := Math_fround
                 (randomBetween (random (k + 4)%nat) 0 (Math_PI * #2))]>
      (ForegroundData.seed d) in
  offsetX ← readCell posX index;
  offsetY ← readCell posY index;
  let offsets :=
    <[(index * 2 + 1)%nat := offsetY]>
      (<[(index * 2)%nat := offsetX]> (Build.offsets b)) in
  let glyph :=
    <[index := Math_fround
                 (ofZ (Math_floor
                         (randomBetween (random (k + 5)%nat) 0
                            (ofNat (length FOREGROUND_GLYPHS)))))]>
      (Build.glyph b) in
  baseGlyph ← readCell glyph index;
  mret {| Build.data :=
            withHome homeX homeY seed
              (<[index := baseGlyph]> (ForegroundData.baseGlyph d))
              (ForegroundData.withMotion posX posY velX velY d);
          Build.offsets := offsets;
          Build.glyph := glyph;
          Build.index := S index;
          Build.drawn := (k + 12)%nat |}.

(** The two loops: rows outside, columns inside. *)
Definition buildCells (step : num) (s : Sim) (rows columns : nat)
    (b : Build.t) : result Build.t :=
  forEach (λ b row,
             forEach (λ b col, buildCell step s row col b) (seq 0 columns) b)
          (seq 0 rows) b.

(** [buildForegroundMesh], from the choice of the step to the new mesh; the
    glyph atlases, the other attributes and the material are outside the
    model.  The viewport is the one that [onResize] has set, so the counts
    of columns and rows are positive.  [drawn] is the number of draws made
    before; the result has the number of draws made after. *)
Definition buildForegroundMesh (drawn : nat) (s : Sim)
    : result (Sim * nat) :=
  let step := latticeStep s in
  let s := withStep step s in
  let columns := Z.to_nat (Math_ceil (viewportWidth s / step)) in
  let rows := Z.to_nat (Math_ceil (viewportHeight s / step)) in
  let count := (columns * rows)%nat in
  b ← buildCells step s rows columns
        {| Build.data := allocate count;
           Build.offsets := replicate (count * 2) 0;
           Build.glyph := replicate count 0;
           Build.index := 0%nat;
           Build.drawn := drawn |};
  let sampled := buildForegroundTargets (currentWord s) s in
  let s := withWord (currentWord s) sampled.1 sampled.2 s in
  let s := withAssignment (Build.data b) 0%nat s in
  s ← assignForegroundTargets false s;
  mret (withMesh true (Build.glyph b) (Build.offsets b) s, Build.drawn b).

(** [onResize] as far as the simulation goes: the viewport is at least 320
    by 240, and the scene is rebuilt ([drawn] counts the draws up to the
    build of the foreground, those of the background layers included). *)
Definition onResize (innerWidth innerHeight : num) (drawn : nat) (s : Sim)
    : result (Sim * nat) :=
  let s :=
    withViewport (Math_max #320 innerWidth) (Math_max #240 innerHeight) s in
  buildForegroundMesh drawn s.

End Build.

(** The sizes of the lattice of a state. *)
Definition latticeColumns (s : Sim) : nat :=
  Z.to_nat (Math_ceil (viewportWidth s / foregroundStep s)).
Definition latticeRows (s : Sim) : nat :=
  Z.to_nat (Math_ceil (viewportHeight s / foregroundStep s)).

(** What the build stores for one particle. *)
Module Cell.
Record t : Type := {
  homeX : num; homeY : num;
  posX : num; posY : num;
  velX : num; velY : num;
  seed : num;
  glyph : num;
}.
End Cell.

(** The centre of the cell at [row] and [col] of a lattice of the given
    step over the viewport of [s]: [x] and [y] of the loop body. *)
Definition centreX (step : num) (s : Sim) (col : nat) : num :=
  - viewportWidth s * #0.5 + ofNat col * step + step * #0.5.
Definition centreY (step : num) (s : Sim) (row : nat) : num :=
  viewportHeight s * #0.5 - ofNat row * step - step * #0.5.

(** The values that the build stores for the cell at [row] and [col], when
    the draws of the cell start at [k]. *)
Definition cellOf (random : nat → num) (step : num) (s : Sim)
    (row col k : nat) : Cell.t :=
  let x := centreX step s col in
  let y := centreY step s row in
  {| Cell.homeX := Math_fround x;
     Cell.homeY := Math_fround y;
     Cell.posX :=
       Math_fround
         (x + randomBetween (random k) (- step * #0.25) (step * #0.25));
     Cell.posY :=
       Math_fround
         (y + randomBetween (random (k + 1)%nat)
                (- step * #0.25) (step * #0.25));
     Cell.velX :=
       Math_fround (randomBetween (random (k + 2)%nat) (- #0.45) #0.45);
     Cell.velY :=
       Math_fround (randomBetween (random (k + 3)%nat) (- #0.45) #0.45);
     Cell.seed :=
       Math_fround (randomBetween (random (k + 4)%nat) 0 (Math_PI * #2));
     Cell.glyph :=
       Math_fround
         (ofZ (Math_floor (randomBetween (random (k + 5)%nat) 0
                             (ofNat (length FOREGROUND_GLYPHS))))) |}.

(** The field [d] and the attribute arrays hold the values [c] for the
    particle [i]. *)
Definition cellStored (d : ForegroundData.t) (glyphs offsets : list num)
    (i : nat) (c : Cell.t) : Prop :=
  ForegroundData.homeX d !! i = Some (Cell.homeX c)
  ∧ ForegroundData.homeY d !! i = Some (Cell.homeY c)
  ∧ ForegroundData.posX d !! i = Some (Cell.posX c)
  ∧ ForegroundData.posY d !! i = Some (Cell.posY c)
  ∧ ForegroundData.velX d !! i = Some (Cell.velX c)
  ∧ ForegroundData.velY d !! i = Some (Cell.velY c)
  ∧ ForegroundData.seed d !! i = Some (Cell.seed c)
  ∧ ForegroundData.baseGlyph d !! i = Some (Cell.glyph c)
  ∧ glyphs !! i = Some (Cell.glyph c)
  ∧ offsets !! (i * 2)%nat = Some (Cell.posX c)
  ∧ offsets !! (i * 2 + 1)%nat = Some (Cell.posY c).

(** The arrays of a build in progress have their full size. *)
Definition buildSized (count : nat) (b : Build.t) : Prop :=
  ForegroundData.wf (Build.data b)
  ∧ ForegroundData.count (Build.data b) = count
  ∧ length (Build.offsets b) = (count * 2)%nat
  ∧ length (Build.glyph b) = count.

(** The build has done the first [n] cells, in the order of the loops. *)
Definition cellsBuilt (random : nat → num) (step : num) (s : Sim)
    (drawn rows columns n : nat) (b : Build.t) : Prop :=
  Build.index b = n
  ∧ Build.drawn b = (drawn + 12 * n)%nat
  ∧ buildSized (columns * rows) b
  ∧ ∀ row col, (col < columns)%nat → (row * columns + col < n)%nat →
      cellStored (Build.data b) (Build.glyph b) (Build.offsets b)
        (row * columns + col)
        (cellOf random step s row col (drawn + 12 * (row * columns + col))).

(** The state after a build: the lattice, the stored cells, the mesh. *)
Definition meshBuilt (random : nat → num) (drawn : nat) (s' : Sim) : Prop :=
  ForegroundData.wf (foregroundData s')
  ∧ ForegroundData.count (foregroundData s')
    = (latticeColumns s' * latticeRows s')%nat
  ∧ length (glyphs s') = ForegroundData.count (foregroundData s')
  ∧ length (offsets s')
    = (ForegroundData.count (foregroundData s') * 2)%nat
  ∧ foregroundMesh s' = true
  ∧ targetCount s' = length (foregroundTargets s')
  ∧ ∀ row col,
      (row < latticeRows s')%nat → (col < latticeColumns s')%nat →
      cellStored (foregroundData s') (glyphs s') (offsets s')
        (row * latticeColumns s' + col)
        (cellOf random (foregroundStep s') s' row col
           (drawn + 12 * (row * latticeColumns s' + col))).

(** A source of random numbers in [[0, 1)], as [Math.random] is. *)
Definition unitDraws (random : nat → num) : Prop :=
  ∀ k, 0 ≤ random k ∧ random k < 1.

(** A random source for running the model: the draws go 0, 0.1, ..., 0.9 and
    around. *)
Definition demoRandom (k : nat) : num := ofNat (k mod 10) / #10.

(** The values of a cell lie where the draws of the build can put them, as
    far as single precision tells: the position within a quarter of the
    step around the home, the velocity within 0.45, the seed an angle of one
    turn, each with room for the rounding of the stores (a ten-millionth of
    the size of the viewport for a position); the glyph an index into
    [FOREGROUND_GLYPHS]. *)
Definition drawsInRange (width height step : num) (c : Cell.t) : Prop :=
  (- (step * #0.25 + (width + step * #2) * #0.0000001)
     ≤ Cell.posX c - Cell.homeX c
   ∧ Cell.posX c - Cell.homeX c
     ≤ step * #0.25 + (width + step * #2) * #0.0000001)
  ∧ (- (step * #0.25 + (height + step * #2) * #0.0000001)
       ≤ Cell.posY c - Cell.homeY c
     ∧ Cell.posY c - Cell.homeY c
       ≤ step * #0.25 + (height + step * #2) * #0.0000001)
  ∧ (- #0.4500001 ≤ Cell.velX c ∧ Cell.velX c ≤ #0.4500001)
  ∧ (- #0.4500001 ≤ Cell.velY c ∧ Cell.velY c ≤ #0.4500001)
  ∧ (0 ≤ Cell.seed c ∧ Cell.seed c ≤ #6.283186)
  ∧ ∃ g : nat, (g < length FOREGROUND_GLYPHS)%nat ∧ Cell.glyph c = ofNat g.

(** ** The sampler of the target points *)

(** The side of the mask canvas for a side of the viewport:
    [Math.max(1, Math.floor(viewport))]. *)
Definition maskSize (viewport : num) : Z := Z.max 1 (Math_floor viewport).

(** [sampleStep] *)
Definition sampleStepOf (foregroundStep : num) : Z :=
  Z.max 2 (Math_floor (foregroundStep * #0.38)).

(** The values of a loop variable [for (v = x; v < bound; v += step)]; the
    fuel bounds the number of rounds. *)
Fixpoint stepsFrom (fuel : nat) (x bound step : Z) : list Z :=
  match fuel with
  | O => []
  | S fuel =>
      if decide (x < bound)%Z
      then x :: stepsFrom fuel (x + step)%Z bound step
      else []
  end.

(** The values from 0: with a step of at least 1 there are at most [bound]
    rounds. *)
Definition stepsBelow (bound step : Z) : list Z :=
  stepsFrom (Z.to_nat bound) 0 bound step.

(** The horizontal range of one character of the word. *)
Module Range.
Record t : Type := { start : num; end_ : num; char : N }.
End Range.

(** The loop that lays the ranges side by side from [cursor] on. *)
Fixpoint rangesFrom (width : N → num) (cursor : num) (chars : list N)
    : list Range.t :=
  match chars with
  | [] => []
  | char :: chars =>
      {| Range.start := cursor; Range.end_ := cursor + width char;
         Range.char := char |}
      :: rangesFrom width (cursor + width char) chars
  end.

(** [glyphByChar]: a [Map] from the glyphs to their indices; of two entries
    with one key a [Map] keeps the later.  A string of one code unit is that
    code unit. *)
Definition glyphByChar : gmap N nat :=
  foldl (λ map entry, <[entry.1 := entry.2]> map) ∅
        (imap (λ idx char, (char, idx)) FOREGROUND_GLYPHS).

Section Sampler.

(** The canvas.  [measureText fontSize family text] is the width of [text]
    in the font of that size and family; [imageAlpha width height fontSize
    family word x y] is the alpha channel, at the pixel [x], [y], of a
    cleared canvas of that size after [word] has been filled in white at its
    centre in that font. *)
Variable measureText : num → jsstring → jsstring → num.
Variable imageAlpha : Z → Z → num → jsstring → jsstring → Z → Z → Z.

(** The font size: the word is made to fit nine tenths of the width. *)
Definition fittedFontSize (viewportWidth viewportHeight : num)
    (family targetWord : jsstring) : num :=
  let fontSize := Math_min (viewportWidth * #0.34) (viewportHeight * #0.58) in
  let maxWidth := viewportWidth * #0.9 in
  let measured := measureText fontSize family targetWord in
  if decide (maxWidth < measured) then fontSize * maxWidth / measured
  else fontSize.

(** The target for a pixel [x], [y] of the mask that is opaque enough. *)
Definition targetAt (width height : Z) (startX : num)
    (ranges : list Range.t) (chars : list N) (x y : Z) : Target.t :=
  let rangeIdx : Z :=
    match list_find (λ range, Range.start range ≤ ofZ x
                              ∧ ofZ x ≤ Range.end_ range) ranges with
    | Some (idx, _) => Z.of_nat idx
    | None =>
        if decide (ofZ x < startX) then 0%Z
        else (Z.of_nat (length ranges) - 1)%Z
    end in
  let targetChar :=
    default (default 71%N (chars !! 0%nat))
            (Range.char <$> ranges !! Z.to_nat (Z.max 0 rangeIdx)) in
  {| Target.x := ofZ x - ofZ width * #0.5;
     Target.y := ofZ height * #0.5 - ofZ y;
     Target.glyph := ofNat (default 0%nat (glyphByChar !! targetChar)) |}.

(** The body of [buildForegroundTargets] after the normalisation of the
    word: the targets and the font size.  (Part I has it as the field
    [rasterize] of the host.) *)
Definition sampleTargets (viewportWidth viewportHeight foregroundStep : num)
    (family targetWord : jsstring) : list Target.t * num :=
  let width := maskSize viewportWidth in
  let height := maskSize viewportHeight in
  let solidFontSize :=
    fittedFontSize viewportWidth viewportHeight family targetWord in
  let chars := targetWord in
  let widthOf := λ char, measureText solidFontSize family [char] in
  let totalWidth := foldl Qcplus 0 (widthOf <$> chars) in
  let startX := ofZ width * #0.5 - totalWidth * #0.5 in
  let ranges := rangesFrom widthOf startX chars in
  let sampleStep := sampleStepOf foregroundStep in
  let alpha := imageAlpha width height solidFontSize family targetWord in
  (y ← stepsBelow height sampleStep;
   omap (λ x, if decide (28 < alpha x y)%Z
              then Some (targetAt width height startX ranges chars x y)
              else None)
        (stepsBelow width sampleStep),
   solidFontSize).

End Sampler.


(** ** The glyphs shown are glyphs of the atlas *)

(** A number that is an index into [FOREGROUND_GLYPHS]. *)
Definition glyphIndex (v : num) : Prop :=
  ∃ g : nat, (g < length FOREGROUND_GLYPHS)%nat ∧ v = ofNat g.

(** The base glyphs, the target glyphs and the glyphs that the mesh shows
    are indices into the atlas. *)
Definition glyphsValid (s : Sim) : Prop :=
  Forall glyphIndex (ForegroundData.baseGlyph (foregroundData s))
  ∧ Forall glyphIndex (ForegroundData.targetGlyph (foregroundData s))
  ∧ Forall glyphIndex (glyphs s).

Definition endsGlyphsValid (r : result Sim) : Prop :=
  ∃ s', r = Done s' ∧ glyphsValid s'.

(** The target glyph of every particle is the glyph of a point of the target
    list, or the base glyph of the particle. *)
Definition targetsAssigned (targets : list Target.t) (d : ForegroundData.t)
    : Prop :=
  ∀ i, (i < ForegroundData.count d)%nat →
    ∃ g, ForegroundData.targetGlyph d !! i = Some g
      ∧ (g ∈ Target.glyph <$> targets
         ∨ ForegroundData.baseGlyph d !! i = Some g).

(** A host whose rasteriser is the sampler of the source, on some canvas. *)
Definition samplerHost `{Host} : Prop :=
  ∃ measureText imageAlpha,
    ∀ viewportWidth viewportHeight foregroundStep family targetWord,
      rasterize viewportWidth viewportHeight foregroundStep family targetWord
      = sampleTargets measureText imageAlpha viewportWidth viewportHeight
          foregroundStep family targetWord.

(** A canvas for running the model: every character is six tenths of the
    font size wide, and the word fills a band of a third of the height
    across the middle half of the mask. *)
Definition demoMeasure (fontSize : num) (family text : jsstring) : num :=
  fontSize * #0.6 * ofNat (length text).

Definition demoAlpha (width height : Z) (fontSize : num)
    (family word : jsstring) (x y : Z) : Z :=
  if decide (width ≤ 4 * x ∧ 4 * x ≤ 3 * width
             ∧ height ≤ 3 * y ∧ 3 * y ≤ 2 * height)%Z
  then 255%Z else 0%Z.

Definition canvasHost : Host := {|
  toUpperCase := toUpperCase (Host := demoHost);
  Math_sin := Math_sin (Host := demoHost);
  Math_cos := Math_cos (Host := demoHost);
  Math_exp := Math_exp (Host := demoHost);
  Math_pow := Math_pow (Host := demoHost);
  Math_hypot := Math_hypot (Host := demoHost);
  StringToNumber := StringToNumber (Host := demoHost);
  ObjectToNumber := ObjectToNumber (Host := demoHost);
  rasterize := sampleTargets demoMeasure demoAlpha;
|}.

(* ===================================================================== *)
(** * Part II. Properties                                                 *)
(* ===================================================================== *)

(** ** Word normalisation *)

Section WordProperties.
Context `{Host}.

Lemma noSpaceRun_cons a rest :
  noSpaceRun (a :: rest)
  = negb (isWhiteSpace a && startsWithSpace rest) && noSpaceRun rest.
Proof. destruct rest; simpl; [by rewrite andb_false_r | done]. Qed.

Lemma noSpaceRun_app_r l r : noSpaceRun (l ++ r) = true → noSpaceRun r = true.
Proof.
  induction l as [|a l IH]; [done|].
  rewrite <-app_comm_cons, noSpaceRun_cons. intros [_ ?]%andb_true_iff. auto.
Qed.

Lemma noSpaceRun_app_l l r : noSpaceRun (l ++ r) = true → noSpaceRun l = true.
Proof.
  induction l as [|a l IH]; [done|].
  rewrite <-app_comm_cons, !noSpaceRun_cons.
  intros [Ha Hl]%andb_true_iff. rewrite (IH Hl), andb_true_r.
  destruct l; simpl in *; [by rewrite andb_false_r | done].
Qed.

Lemma collapseRuns_units b s :
  Forall (λ c, isWordUnit c = true) s →
  Forall (λ c, isWordUnit c = true) (collapseRuns b s).
Proof.
  intros Hs. revert b. induction Hs as [|c s Hc Hs IH]; intros b; simpl; [done|].
  destruct (isWhiteSpace c); [destruct b|]; auto.
Qed.

Lemma collapseRuns_in_run s : startsWithSpace (collapseRuns true s) = false.
Proof.
  induction s as [|c s IH]; simpl; [done|].
  destruct (isWhiteSpace c) eqn:Hc; simpl; done.
Qed.

Lemma collapseRuns_noSpaceRun b s : noSpaceRun (collapseRuns b s) = true.
Proof.
  revert b. induction s as [|c s IH]; intros b; simpl; [done|].
  destruct (isWhiteSpace c) eqn:Hc.
  - destruct b; [done|].
    by rewrite noSpaceRun_cons, collapseRuns_in_run, andb_false_r, IH.
  - by rewrite noSpaceRun_cons, Hc, IH.
Qed.

Lemma trimStart_suffix s : ∃ d, s = d ++ trimStart s.
Proof.
  induction s as [|c s [d Hd]]; simpl; [by exists []|].
  destruct (isWhiteSpace c); [|by exists []].
  exists (c :: d). by rewrite <-app_comm_cons, <-Hd.
Qed.

Lemma trimStart_starts s : startsWithSpace (trimStart s) = false.
Proof.
  induction s as [|c s IH]; simpl; [done|].
  destruct (isWhiteSpace c) eqn:Hc; simpl; done.
Qed.

Lemma trimEnd_prefix s : ∃ e, s = trimEnd s ++ e.
Proof.
  unfold trimEnd. destruct (trimStart_suffix (reverse s)) as [d Hd].
  exists (reverse d).
  by rewrite <-reverse_app, <-Hd, reverse_involutive.
Qed.

Lemma trim_middle s : ∃ d e, s = d ++ trim s ++ e.
Proof.
  unfold trim. destruct (trimStart_suffix s) as [d Hd].
  destruct (trimEnd_prefix (trimStart s)) as [e He].
  exists d, e. by rewrite <-He.
Qed.

Lemma trim_head s c : head (trim s) = Some c → isWhiteSpace c = false.
Proof.
  unfold trim. intros Hc.
  destruct (trimEnd_prefix (trimStart s)) as [e He].
  pose proof (trimStart_starts s) as Hs. rewrite He in Hs.
  destruct (trimEnd (trimStart s)); simplify_eq/=. done.
Qed.

Lemma trim_last s c : last (trim s) = Some c → isWhiteSpace c = false.
Proof.
  unfold trim, trimEnd. rewrite last_reverse. intros Hc.
  pose proof (trimStart_starts (reverse (trimStart s))) as Hs.
  destruct (trimStart (reverse (trimStart s))); simplify_eq/=. done.
Qed.

Lemma cleaned_shape s :
  wordShape (trim (collapseRuns false (removeOtherUnits s))).
Proof.
  set (u := collapseRuns false (removeOtherUnits s)).
  assert (Hu : Forall (λ c, isWordUnit c = true) u).
  { apply collapseRuns_units, Forall_forall.
    intros c Hc. unfold removeOtherUnits in Hc.
    by apply list_elem_of_filter in Hc as [? _]. }
  destruct (trim_middle u) as (d & e & Hde).
  repeat split.
  - rewrite Hde in Hu. by apply Forall_app in Hu as [_ [? _]%Forall_app].
  - pose proof (collapseRuns_noSpaceRun false (removeOtherUnits s)) as Hn.
    fold u in Hn. rewrite Hde in Hn.
    by apply noSpaceRun_app_r, noSpaceRun_app_l in Hn.
  - by intros ?%trim_head.
  - by intros ?%trim_last.
Qed.

(** C4, as the code has it: [normalizeWord] returns, for every input, a
    non-empty string of units of [[A-Z0-9 ]] (so it holds no lower-case
    letter), in which no two spaces are neighbours and which neither starts
    nor ends with a space.  The length is not capped. *)
Theorem normalizeWord_shape (value : option jsstring) :
  wordShape (normalizeWord value) ∧ normalizeWord value ≠ [].
Proof.
  unfold normalizeWord.
  destruct (0 <? length _)%nat eqn:Hlen.
  - split; [apply cleaned_shape|].
    intros Hnil. rewrite Hnil in Hlen. done.
  - split; [|done]. repeat split; [|done..].
    by repeat constructor.
Qed.

End WordProperties.

(** C4, the counterexample to the cap of 18: a word of 21 letters and spaces
    comes back whole, in upper case. *)
Lemma normalizeWord_not_capped :
  normalizeWord (H := demoHost) (Some (js "typographic particles"))
  = js "TYPOGRAPHIC PARTICLES"
  ∧ (18 < length (normalizeWord (H := demoHost)
                    (Some (js "typographic particles"))))%nat.
Proof. split; [reflexivity | vm_compute; lia]. Qed.

(** ** The order of the rationals and the clamps *)

(** [ring] on numbers of the model. *)
Ltac num_ring := change num with Qc in *; ring.

Lemma Math_max_l a b : a ≤ Math_max a b.
Proof. unfold Math_max. case_decide; [by apply Qclt_le_weak | done]. Qed.

Lemma Math_max_lub a b c : a ≤ c → b ≤ c → Math_max a b ≤ c.
Proof. unfold Math_max. by case_decide. Qed.

Lemma Math_min_l a b : Math_min a b ≤ a.
Proof. unfold Math_min. case_decide; [by apply Qclt_le_weak | done]. Qed.

(** [Math.max(lo, Math.min(hi, v))] lies between [lo] and [hi]. *)
Lemma clamp_between lo hi v :
  lo ≤ hi → lo ≤ Math_max lo (Math_min hi v) ∧ Math_max lo (Math_min hi v) ≤ hi.
Proof.
  intros Hlohi. split; [apply Math_max_l|].
  apply Math_max_lub; [done | apply Math_min_l].
Qed.

(** ** Mode strengths *)

Section ModeStrengthProperties.
Context `{Host}.

Lemma foldl_insert_lookup {V : Type} (g : string → V) (ids : list string)
    (m : gmap string V) (id : string) :
  foldl (λ acc k, <[k := g k]> acc) m ids !! id
  = if decide (id ∈ ids) then Some (g id) else m !! id.
Proof.
  revert m. induction ids as [|k ids IH]; intros m; cbn [foldl].
  - destruct (decide (id ∈ [])) as [Hin|]; [by inversion Hin | done].
  - rewrite IH. destruct (decide (id ∈ ids)) as [Hin|Hin].
    + by rewrite decide_True by (apply elem_of_cons; by right).
    + destruct (decide (k = id)) as [->|Hne].
      * rewrite decide_True by (apply elem_of_cons; by left).
        by rewrite lookup_insert_eq.
      * rewrite lookup_insert_ne by done.
        by rewrite decide_False by (intros [?|?]%elem_of_cons; congruence).
Qed.

Lemma normalizeModeStrengths_lookup (modeStrengths : jsval) (id : string) :
  normalizeModeStrengths modeStrengths !! id
  = if decide (id ∈ INTERACTION_MODE_IDS)
    then Some (clampStrength (ToNumber (strengthSource modeStrengths id)))
    else None.
Proof.
  unfold normalizeModeStrengths.
  rewrite (foldl_insert_lookup
             (λ k, clampStrength (ToNumber (strengthSource modeStrengths k)))).
  by case_decide.
Qed.



End ModeStrengthProperties.


(** ** Outcomes and loops *)

Lemma bind_Done {A B : Type} (m : result A) (k : A → result B) (b : B) :
  m ≫= k = Done b ↔ ∃ a, m = Done a ∧ k a = Done b.
Proof.
  destruct m as [a| |]; simpl; split; try done; try by intros (? & ? & ?).
  - intros Hk. by exists a.
  - by intros (? & [= ->] & ?).
Qed.

(** A property that every iteration keeps is kept by the loop. *)
Lemma forEach_invariant {A : Type} (P : A → Prop) (body : A → nat → result A)
    (indices : list nat) (a a' : A) :
  (∀ a i a', P a → body a i = Done a' → P a') →
  P a → forEach body indices a = Done a' → P a'.
Proof.
  intros Hbody. revert a.
  induction indices as [|i indices IH]; intros a Ha; simpl.
  - by intros [= <-].
  - intros (a1 & H1 & Hrest)%bind_Done. eauto.
Qed.

(** ** The adaptive quality controller *)

Section QualityProperties.
Context `{Host}.

Lemma initialQualityScale_range (dpr : num) :
  inQualityRange (initialQualityScale dpr).
Proof.
  unfold initialQualityScale, inQualityRange. split.
  - trans #0.72; [by vm_compute | apply Math_max_l].
  - apply Math_max_lub; [by vm_compute|].
    trans (1 : Qc); [|by vm_compute].
    assert (Hp : 0 ≤ Math_max 0 (orOne dpr - 1) * #0.12).
    { apply Qcmult_nonneg_nonneg; [apply Math_max_l | by vm_compute]. }
    apply Qcopp_le_compat in Hp.
    apply (Qcplus_le_mono_l _ _ 1) in Hp.
    by rewrite Qcplus_0_r in Hp.
Qed.

Lemma animateParticle_quality (f : Frame) (s s' : Sim) (i : nat) :
  animateParticle f s i = Done s' → qualityScale s' = qualityScale s.
Proof.
  unfold animateParticle, writeParticle.
  intros (p & _ & (g & _ & [= <-])%bind_Done)%bind_Done. done.
Qed.

Lemma animateField_quality (f : Frame) (s s' : Sim) :
  animateField f s = Done s' → qualityScale s' = qualityScale s.
Proof.
  unfold animateField. case_match.
  - intros Hloop.
    apply (forEach_invariant
             (λ a, qualityScale a = qualityScale s) _ _ _ _) in Hloop; [done| |done].
    intros a i a' Ha Hstep. by rewrite (animateParticle_quality _ _ _ _ Hstep).
  - by intros [= <-].
Qed.

Lemma animate_quality (f : Frame) (s s' : Sim) :
  inQualityRange (qualityScale s) → animate f s = Done s' →
  inQualityRange (qualityScale s').
Proof.
  intros Hs. unfold animate.
  destruct (disposed s); [by intros [= <-]|].
  repeat case_decide.
  - intros [= <-]. simpl. by apply clamp_between.
  - intros Hfield%animateField_quality. by rewrite Hfield.
  - intros Hfield%animateField_quality. by rewrite Hfield.
Qed.

Lemma assignParticle_frame (preserveSlots : bool) (targets : list Target.t)
    (targetCount : nat) (d d' : ForegroundData.t) (i : nat) :
  assignParticle preserveSlots targets targetCount d i = Done d' →
  ∃ tx ty tg ts, d' = ForegroundData.withTargets tx ty tg ts d.
Proof.
  unfold assignParticle. case_match.
  - intros (hx & _ & (hy & _ & (bg & _ & [= <-])%bind_Done)%bind_Done)%bind_Done.
    eauto.
  - case_match; [|done]. intros [= <-]. eauto.
Qed.

Lemma assignForegroundTargets_frame (preserveSlots : bool) (s s' : Sim) :
  assignForegroundTargets preserveSlots s = Done s' →
  ∃ d n, s' = withAssignment d n s.
Proof.
  unfold assignForegroundTargets. intros (d & _ & [= <-])%bind_Done. eauto.
Qed.

Lemma retargetWord_quality (word : option jsstring) (s s' : Sim) :
  retargetWord word s = Done s' → qualityScale s' = qualityScale s.
Proof.
  unfold retargetWord. case_match; [by intros [= <-]|].
  intros (s1 & (d & n & ->)%assignForegroundTargets_frame & [= <-])%bind_Done.
  done.
Qed.

Lemma handle_quality (e : Event) (s s' : Sim) :
  inQualityRange (qualityScale s) → handle e s = Done s' →
  inQualityRange (qualityScale s').
Proof.
  intros Hs. destruct e as [f|cx cy| |word]; simpl.
  - by apply animate_quality.
  - by intros [= <-].
  - by intros [= <-].
  - intros Hw%retargetWord_quality. by rewrite Hw.
Qed.

Lemma trace_quality (events : list Event) (s : Sim) :
  inQualityRange (qualityScale s) → Forall qualityHolds (trace events s).
Proof.
  revert s. induction events as [|e events IH]; intros s Hs; simpl; [done|].
  destruct (handle e s) as [s'| |] eqn:He; [|by repeat constructor..].
  pose proof (handle_quality _ _ _ Hs He). constructor; [done | by apply IH].
Qed.

(** C5: from the initial value of the quality scale, whatever the device
    pixel ratio and the rest of the state, and under every sequence of
    frames (of any delta), pointer events and word changes, the quality
    scale of every state reached lies in [[0.62, 1.05]]. *)
Theorem qualityScale_in_range (dpr : num) (s : Sim) (events : list Event) :
  inQualityRange (qualityScale (initialQuality dpr s))
  ∧ Forall qualityHolds (trace events (initialQuality dpr s)).
Proof.
  assert (inQualityRange (qualityScale (initialQuality dpr s)))
    by apply initialQualityScale_range.
  split; [done | by apply trace_quality].
Qed.

End QualityProperties.

(** ** Target assignment *)

Section AssignmentProperties.
Context `{Host}.

Lemma sameParticles_refl (d : ForegroundData.t) : sameParticles d d.
Proof. by repeat split. Qed.

Lemma sameParticles_trans (d0 d d' : ForegroundData.t) :
  sameParticles d0 d → sameParticles d d' → sameParticles d0 d'.
Proof.
  unfold sameParticles. intros Ha Hb. destruct_and!. split_and!; congruence.
Qed.

Lemma withTargets_wf i vx vy vg vs (d : ForegroundData.t) :
  ForegroundData.wf d →
  ForegroundData.wf
    (ForegroundData.withTargets
       (<[i := vx]> (ForegroundData.targetX d))
       (<[i := vy]> (ForegroundData.targetY d))
       (<[i := vg]> (ForegroundData.targetGlyph d))
       (<[i := vs]> (ForegroundData.targetSlot d)) d).
Proof.
  unfold ForegroundData.wf. simpl. rewrite !length_insert. done.
Qed.

(** A store at [i] leaves the targets of the other particles. *)
Lemma withTargets_cells_ne i j vx vy vg vs (d : ForegroundData.t) :
  j ≠ i →
  targetCells
    (ForegroundData.withTargets
       (<[i := vx]> (ForegroundData.targetX d))
       (<[i := vy]> (ForegroundData.targetY d))
       (<[i := vg]> (ForegroundData.targetGlyph d))
       (<[i := vs]> (ForegroundData.targetSlot d)) d) j
  = targetCells d j.
Proof.
  intros Hj. unfold targetCells. simpl.
  by rewrite !list_lookup_insert_ne by done.
Qed.

(** In a well-formed field the store at [i] is read back. *)
Lemma withTargets_cells_eq i vx vy vg vs (d : ForegroundData.t) :
  ForegroundData.wf d → (i < ForegroundData.count d)%nat →
  targetCells
    (ForegroundData.withTargets
       (<[i := vx]> (ForegroundData.targetX d))
       (<[i := vy]> (ForegroundData.targetY d))
       (<[i := vg]> (ForegroundData.targetGlyph d))
       (<[i := vs]> (ForegroundData.targetSlot d)) d) i
  = (Some vx, Some vy, Some vg, Some vs).
Proof.
  intros (_ & _ & _ & _ & _ & _ & _ & Hx & Hy & _ & Hg & Hs) Hi.
  unfold targetCells. simpl. by rewrite !list_lookup_insert_eq by lia.
Qed.

(** The slot computed for a non-empty target list is an index of it. *)
Lemma slotOf_bounds (preserveSlots : bool) (targetCount nextCount : nat)
    (targetSlot : list N) (i : nat) :
  (0 < nextCount)%nat →
  (0 ≤ slotOf preserveSlots targetCount nextCount targetSlot i
   < Z.of_nat nextCount)%Z.
Proof.
  intros Hn. unfold slotOf. case_match.
  - lia.
  - apply Z.mod_pos_bound. lia.
Qed.

(** The conversion of the store keeps a slot that is an index. *)
Lemma ToUint32_slot (slot : Z) (n : nat) :
  (0 ≤ slot < Z.of_nat n)%Z → (N.to_nat (ToUint32 slot) < n)%nat.
Proof.
  intros [Hlo Hhi]. unfold ToUint32.
  pose proof (Z.mod_le slot (2 ^ 32) Hlo ltac:(done)).
  pose proof (Z.mod_pos_bound slot (2 ^ 32) ltac:(done)).
  lia.
Qed.

Lemma readCell_lt (array : list num) (i : nat) :
  (i < length array)%nat → ∃ v, array !! i = Some v ∧ readCell array i = Done v.
Proof.
  intros Hi. destruct (lookup_lt_is_Some_2 array i Hi) as [v Hv].
  exists v. unfold readCell. by rewrite Hv.
Qed.

(** One iteration for a non-empty target list, whatever the field: it ends
    normally (the lookup of the target is in bounds) and stores the target at
    the computed slot. *)
Lemma assignParticle_nonempty (preserveSlots : bool) (targets : list Target.t)
    (targetCount : nat) (d : ForegroundData.t) (i : nat) :
  targets ≠ [] →
  let slot :=
    slotOf preserveSlots targetCount (length targets)
           (ForegroundData.targetSlot d) i in
  ∃ target, targets !! Z.to_nat slot = Some target
    ∧ (0 ≤ slot < Z.of_nat (length targets))%Z
    ∧ assignParticle preserveSlots targets targetCount d i
      = Done (ForegroundData.withTargets
                (<[i := Target.x target]> (ForegroundData.targetX d))
                (<[i := Target.y target]> (ForegroundData.targetY d))
                (<[i := Target.glyph target]> (ForegroundData.targetGlyph d))
                (<[i := ToUint32 slot]> (ForegroundData.targetSlot d)) d).
Proof.
  intros Hne slot.
  assert (Hn : (0 < length targets)%nat) by (destruct targets; simpl; [done|lia]).
  pose proof (slotOf_bounds preserveSlots targetCount (length targets)
                (ForegroundData.targetSlot d) i Hn) as Hslot.
  fold slot in Hslot.
  destruct (lookup_lt_is_Some_2 targets (Z.to_nat slot)) as [t Ht]; [lia|].
  exists t. split_and!; [done | lia | lia |].
  unfold assignParticle.
  replace (length targets =? 0)%nat with false
    by (symmetry; apply Nat.eqb_neq; lia).
  fold slot. by rewrite Ht.
Qed.

(** One iteration for an empty target list on a well-formed field. *)
Lemma assignParticle_empty (preserveSlots : bool) (targetCount : nat)
    (d : ForegroundData.t) (i : nat) :
  ForegroundData.wf d → (i < ForegroundData.count d)%nat →
  ∃ hx hy bg,
    ForegroundData.homeX d !! i = Some hx
    ∧ ForegroundData.homeY d !! i = Some hy
    ∧ ForegroundData.baseGlyph d !! i = Some bg
    ∧ assignParticle preserveSlots [] targetCount d i
      = Done (ForegroundData.withTargets
                (<[i := hx]> (ForegroundData.targetX d))
                (<[i := hy]> (ForegroundData.targetY d))
                (<[i := bg]> (ForegroundData.targetGlyph d))
                (<[i := 0%N]> (ForegroundData.targetSlot d)) d).
Proof.
  intros Hwf Hi. unfold assignParticle.
  pose proof Hwf as (Hhx & Hhy & _ & _ & _ & _ & _ & _ & _ & Hbg & _ & _).
  destruct (readCell_lt (ForegroundData.homeX d) i) as (hx & Hx & ->); [lia|].
  destruct (readCell_lt (ForegroundData.homeY d) i) as (hy & Hy & ->); [lia|].
  destruct (readCell_lt (ForegroundData.baseGlyph d) i) as (bg & Hb & ->);
    [lia|].
  by exists hx, hy, bg.
Qed.

(** The loop of the assignment over distinct particles, from the field [d0],
    for an invariant [Inv] of the field and a property [P] of the target of
    a particle: if every iteration, on a field that has the invariant, ends
    normally, keeps the invariant and the particles themselves, leaves the
    targets of the other particles and establishes [P] for its own, then the
    loop ends normally and [P] holds for every particle it went over. *)
Lemma assign_loop (preserveSlots : bool) (targets : list Target.t)
    (targetCount : nat) (d0 : ForegroundData.t)
    (Inv : ForegroundData.t → Prop)
    (P : nat → option num * option num * option num * option N → Prop)
    (indices : list nat) :
  (∀ d i,
     Inv d → sameParticles d0 d → i ∈ indices →
     ∃ d', assignParticle preserveSlots targets targetCount d i = Done d'
       ∧ Inv d' ∧ sameParticles d d'
       ∧ (∀ j, j ≠ i → targetCells d' j = targetCells d j)
       ∧ P i (targetCells d' i)) →
  NoDup indices → Inv d0 →
  ∃ d', forEach (assignParticle preserveSlots targets targetCount) indices d0
        = Done d'
    ∧ Inv d' ∧ sameParticles d0 d'
    ∧ (∀ i, i ∈ indices → P i (targetCells d' i)).
Proof.
  intros Hstep Hnodup Hinv.
  enough (Hgen : ∀ done todo d,
            indices = done ++ todo → NoDup todo →
            Inv d → sameParticles d0 d →
            ∃ d', forEach (assignParticle preserveSlots targets targetCount)
                    todo d = Done d'
              ∧ Inv d' ∧ sameParticles d0 d'
              ∧ (∀ j, j ∉ todo → targetCells d' j = targetCells d j)
              ∧ (∀ i, i ∈ todo → P i (targetCells d' i))).
  { destruct (Hgen [] indices d0) as (d' & ? & ? & ? & _ & ?);
      [done | done | done | apply sameParticles_refl |]. by exists d'. }
  intros done todo. revert done.
  induction todo as [|i todo IH]; intros done d Hsplit Htodo Hd Hsame; simpl.
  - exists d. split_and!; [done..|]. by intros i ?%elem_of_nil.
  - apply NoDup_cons in Htodo as [Hi Htodo].
    destruct (Hstep d i Hd Hsame)
      as (d1 & Hbody & Hd1 & Hsame1 & Hframe1 & HP1).
    { rewrite Hsplit. apply elem_of_app. right. apply elem_of_cons. by left. }
    rewrite Hbody. simpl.
    destruct (IH (done ++ [i]) d1)
      as (d' & Hloop & Hd' & Hsame' & Hframe' & HP);
      [by rewrite <-app_assoc | done | done
      | by eapply sameParticles_trans |].
    exists d'. split_and!; [done..| |].
    + intros j [Hji Hj]%not_elem_of_cons. by rewrite Hframe', Hframe1.
    + intros j [->|Hj]%elem_of_cons; [|by apply HP].
      by rewrite Hframe'.
Qed.

(** The loop of [assignForegroundTargets] goes over the particles below
    [count], each once. *)
Lemma assignForegroundTargets_loop (preserveSlots : bool) (s : Sim)
    (Inv : ForegroundData.t → Prop)
    (P : nat → option num * option num * option num * option N → Prop) :
  (∀ d i,
     Inv d → sameParticles (foregroundData s) d →
     (i < ForegroundData.count d)%nat →
     ∃ d', assignParticle preserveSlots (foregroundTargets s) (targetCount s) d i
           = Done d'
       ∧ Inv d' ∧ sameParticles d d'
       ∧ (∀ j, j ≠ i → targetCells d' j = targetCells d j)
       ∧ P i (targetCells d' i)) →
  Inv (foregroundData s) →
  ∃ d', assignForegroundTargets preserveSlots s
        = Done (withAssignment d' (length (foregroundTargets s)) s)
    ∧ Inv d' ∧ sameParticles (foregroundData s) d'
    ∧ (∀ i, (i < ForegroundData.count d')%nat → P i (targetCells d' i)).
Proof.
  intros Hstep Hinv.
  destruct (assign_loop preserveSlots (foregroundTargets s) (targetCount s)
              (foregroundData s) Inv P
              (seq 0 (ForegroundData.count (foregroundData s))))
    as (d' & Hloop & Hinv' & Hsame & HP).
  - intros d i Hd Hsamed Hi%elem_of_seq. apply Hstep; [done..|].
    destruct Hsamed as [-> _]. lia.
  - apply NoDup_seq.
  - done.
  - exists d'. unfold assignForegroundTargets. rewrite Hloop. simpl.
    split_and!; [done..|]. intros i Hi. apply HP, elem_of_seq.
    destruct Hsame as [<- _]. lia.
Qed.

(** C2: when the target list is empty, the assignment (with either flag) of
    a well-formed field ends normally with the count it had; and every
    particle of the field, whatever its target was before, has afterwards
    its home as target position, its base glyph as target glyph and slot 0,
    its home and base glyph being the ones it had before. *)
Theorem assign_empty_targets (preserveSlots : bool) (s : Sim) :
  ForegroundData.wf (foregroundData s) →
  foregroundTargets s = [] →
  ∃ s', assignForegroundTargets preserveSlots s = Done s'
    ∧ ForegroundData.count (foregroundData s')
      = ForegroundData.count (foregroundData s)
    ∧ ∀ i, (i < ForegroundData.count (foregroundData s))%nat →
        let d := foregroundData s in
        let d' := foregroundData s' in
        ∃ homeX homeY baseGlyph,
          (ForegroundData.homeX d !! i = Some homeX
           ∧ ForegroundData.homeY d !! i = Some homeY
           ∧ ForegroundData.baseGlyph d !! i = Some baseGlyph)
          ∧ (ForegroundData.homeX d' !! i = Some homeX
             ∧ ForegroundData.homeY d' !! i = Some homeY
             ∧ ForegroundData.baseGlyph d' !! i = Some baseGlyph)
          ∧ ForegroundData.targetX d' !! i = Some homeX
          ∧ ForegroundData.targetY d' !! i = Some homeY
          ∧ ForegroundData.targetGlyph d' !! i = Some baseGlyph
          ∧ ForegroundData.targetSlot d' !! i = Some 0%N.
Proof.
  intros Hwf Hempty.
  destruct (assignForegroundTargets_loop preserveSlots s ForegroundData.wf
              (λ i c, ∃ hx hy bg,
                 (ForegroundData.homeX (foregroundData s) !! i = Some hx
                  ∧ ForegroundData.homeY (foregroundData s) !! i = Some hy
                  ∧ ForegroundData.baseGlyph (foregroundData s) !! i = Some bg)
                 ∧ c = (Some hx, Some hy, Some bg, Some 0%N)))
    as (d' & Hdone & Hwf' & Hsame & Hcells); [|done|].
  { intros d i Hd Hsamed Hi. rewrite Hempty.
    destruct (assignParticle_empty preserveSlots (targetCount s) d i Hd Hi)
      as (hx & hy & bg & Hx & Hy & Hb & ->).
    eexists. split; [done|].
    split; [by apply withTargets_wf|]. split; [done|]. split.
    - intros j Hj. by apply withTargets_cells_ne.
    - rewrite withTargets_cells_eq by done.
      destruct Hsamed as (_ & Hhx & Hhy & _ & _ & _ & _ & _ & Hbg).
      exists hx, hy, bg. rewrite <-Hhx, <-Hhy, <-Hbg. by split. }
  destruct Hsame as (Hcount & Hhx & Hhy & _ & _ & _ & _ & _ & Hbg).
  eexists. split; [done|]. simpl. split; [exact Hcount|].
  intros i Hi. rewrite <- Hcount in Hi.
  destruct (Hcells i Hi) as (hx & hy & bg & (Hx & Hy & Hb) & Hc).
  unfold targetCells in Hc. injection Hc as Htx Hty Htg Hts.
  exists hx, hy, bg. rewrite Hhx, Hhy, Hbg. by split_and!.
Qed.

(** C8: on a fresh build ([preserveSlots = false]) with a target list of
    n > 0 points, the assignment of a well-formed field ends normally with
    the count it had, and gives every particle [i] of the field, whatever
    its target and slot were before, the slot [(i * 17) mod n] and the
    position and glyph of the target point at that slot.  (A JavaScript
    array has fewer than 2^32 elements.) *)
Theorem assign_fresh_build (s : Sim) :
  ForegroundData.wf (foregroundData s) →
  (0 < length (foregroundTargets s))%nat →
  (Z.of_nat (length (foregroundTargets s)) < 2 ^ 32)%Z →
  ∃ s', assignForegroundTargets false s = Done s'
    ∧ ForegroundData.count (foregroundData s')
      = ForegroundData.count (foregroundData s)
    ∧ ∀ i, (i < ForegroundData.count (foregroundData s))%nat →
        let d' := foregroundData s' in
        let slot := ((i * 17) `mod` length (foregroundTargets s))%nat in
        ∃ target, foregroundTargets s !! slot = Some target
          ∧ ForegroundData.targetSlot d' !! i = Some (N.of_nat slot)
          ∧ ForegroundData.targetX d' !! i = Some (Target.x target)
          ∧ ForegroundData.targetY d' !! i = Some (Target.y target)
          ∧ ForegroundData.targetGlyph d' !! i = Some (Target.glyph target).
Proof.
  intros Hwf Hpos Hmax.
  set (n := length (foregroundTargets s)) in *.
  destruct (assignForegroundTargets_loop false s ForegroundData.wf
              (λ i c, ∃ target,
                 foregroundTargets s !! ((i * 17) `mod` n)%nat = Some target
                 ∧ c = (Some (Target.x target), Some (Target.y target),
                        Some (Target.glyph target),
                        Some (N.of_nat ((i * 17) `mod` n)))))
    as (d' & Hdone & Hwf' & Hsame & Hcells); [|done|].
  { intros d i Hd Hsamed Hi.
    destruct (assignParticle_nonempty false (foregroundTargets s)
                (targetCount s) d i) as (target & Htarget & Hslot & ->).
    { intros Hnil. subst n. rewrite Hnil in Hpos. simpl in Hpos. lia. }
    unfold slotOf in Htarget, Hslot |- *. simpl andb in Htarget, Hslot |- *.
    cbv iota in Htarget, Hslot |- *. fold n in Htarget, Hslot |- *.
    assert (Hmod : ((Z.of_nat i * 17) `mod` Z.of_nat n)%Z
                   = Z.of_nat ((i * 17) `mod` n)).
    { rewrite Nat2Z.inj_mod, Nat2Z.inj_mul. done. }
    rewrite Hmod in Htarget, Hslot |- *. rewrite Nat2Z.id in Htarget.
    eexists. split; [done|].
    split; [by apply withTargets_wf|]. split; [done|]. split.
    - intros j Hj. by apply withTargets_cells_ne.
    - exists target. split; [done|].
      rewrite withTargets_cells_eq by done. do 4 f_equal.
      unfold ToUint32. rewrite Z.mod_small; lia. }
  destruct Hsame as (Hcount & _).
  eexists. split; [done|]. simpl. split; [exact Hcount|].
  intros i Hi. rewrite <- Hcount in Hi.
  destruct (Hcells i Hi) as (target & Htarget & Hc).
  unfold targetCells in Hc. injection Hc as Hx Hy Hg Hs.
  exists target. done.
Qed.

(** C10: with a non-empty target list the assignment ends normally, with
    either flag and whatever the field, its slots and the target count were
    before: the lookup of [foregroundTargets] at the computed slot is never
    out of bounds.  Afterwards the target count is the length of the list,
    every slot stored for a particle is below it (so it is an index of the
    list), and in a well-formed field every particle has a slot stored. *)
Theorem assign_slots_in_bounds (preserveSlots : bool) (s : Sim) :
  foregroundTargets s ≠ [] →
  ∃ s', assignForegroundTargets preserveSlots s = Done s'
    ∧ foregroundTargets s' = foregroundTargets s
    ∧ targetCount s' = length (foregroundTargets s')
    ∧ (∀ i slot,
         (i < ForegroundData.count (foregroundData s'))%nat →
         ForegroundData.targetSlot (foregroundData s') !! i = Some slot →
         (N.to_nat slot < targetCount s')%nat
         ∧ is_Some (foregroundTargets s' !! N.to_nat slot))
    ∧ (ForegroundData.wf (foregroundData s) →
       ∀ i, (i < ForegroundData.count (foregroundData s'))%nat →
         is_Some (ForegroundData.targetSlot (foregroundData s') !! i)).
Proof.
  intros Hne.
  destruct (assignForegroundTargets_loop preserveSlots s
              (λ d, ForegroundData.wf (foregroundData s) → ForegroundData.wf d)
              (λ i c, ∀ slot, c.2 = Some slot →
                 (N.to_nat slot < length (foregroundTargets s))%nat))
    as (d' & Hdone & Hwf' & Hsame & Hcells); [|done|].
  { intros d i Hd Hsamed Hi.
    destruct (assignParticle_nonempty preserveSlots (foregroundTargets s)
                (targetCount s) d i Hne) as (target & Htarget & Hslot & ->).
    eexists. split; [done|].
    split; [by intros ?; apply withTargets_wf, Hd|]. split; [done|]. split.
    - intros j Hj. by apply withTargets_cells_ne.
    - intros slot. unfold targetCells. simpl.
      intros [(_ & <- & _)|[? _]]%list_lookup_insert_Some; [|done].
      by apply ToUint32_slot. }
  eexists. split; [done|]. simpl. split_and!; [done..| |].
  - intros i slot Hi Hslot.
    pose proof (Hcells i Hi slot Hslot). split; [done|].
    by apply lookup_lt_is_Some.
  - intros Hwf i Hi. apply lookup_lt_is_Some.
    destruct (Hwf' Hwf) as (_ & _ & _ & _ & _ & _ & _ & _ & _ & _ & _ & ->).
    done.
Qed.

(** C1: a word change through [retargetWord] on a well-formed field ends
    normally; the count and the arrays of home, position, velocity, seed and
    base glyph are what they were; the target arrays keep their length (the
    field stays well formed); the two retarget scalars are either untouched
    or set to 0 and 1; and nothing else of the simulation changes besides
    the word, its target list and count and the fitted font size. *)
Theorem retargetWord_keeps_particles (nextWord : option jsstring) (s : Sim) :
  ForegroundData.wf (foregroundData s) →
  ∃ s', retargetWord nextWord s = Done s'
    ∧ sameParticles (foregroundData s) (foregroundData s')
    ∧ ForegroundData.wf (foregroundData s')
    ∧ (retargetMorph s' = retargetMorph s ∧ retargetExcite s' = retargetExcite s
       ∨ retargetMorph s' = 0 ∧ retargetExcite s' = 1)
    ∧ sameElsewhere s s'.
Proof.
  intros Hwf. unfold retargetWord. case_match.
  - exists s. split_and!; [done | apply sameParticles_refl | done | by left |].
    by repeat split.
  - set (s1 := withWord _ _ _ s).
    destruct (assignForegroundTargets_loop true s1 ForegroundData.wf
                (λ _ _, True))
      as (d' & Hdone & Hwf' & Hsame & _); [|done|].
    { intros d i Hd Hsamed Hi.
      destruct (foregroundTargets s1) as [|t0 ts] eqn:Hts.
      - destruct (assignParticle_empty true (targetCount s1) d i Hd Hi)
          as (hx & hy & bg & _ & _ & _ & ->).
        eexists. split; [done|].
        split; [by apply withTargets_wf|]. split; [done|]. split; [|done].
        intros j Hj. by apply withTargets_cells_ne.
      - destruct (assignParticle_nonempty true (t0 :: ts) (targetCount s1) d i)
          as (target & _ & _ & ->); [done|].
        eexists. split; [done|].
        split; [by apply withTargets_wf|]. split; [done|]. split; [|done].
        intros j Hj. by apply withTargets_cells_ne. }
    rewrite Hdone. simpl. eexists. split; [done|]. simpl.
    split_and!; [done | done | by right | by repeat split].
Qed.

(** C6: a retarget with a word whose normalisation is the current word
    changes nothing: the state after it is the state before (no new target
    list, no target field written, neither retarget scalar reset). *)
Theorem retargetWord_same_word (nextWord : option jsstring) (s : Sim) :
  normalizeWord nextWord = currentWord s → retargetWord nextWord s = Done s.
Proof.
  intros Hsame. unfold retargetWord.
  rewrite (bool_decide_eq_true_2 (normalizeWord nextWord = currentWord s)) by done.
  by rewrite orb_true_r.
Qed.

End AssignmentProperties.

(** Witness of C2: the blank field, either flag. *)
Lemma assign_empty_targets_witness :
  ∃ s', assignForegroundTargets (H := demoHost) true demoBlank = Done s'
    ∧ ForegroundData.count (foregroundData s')
      = ForegroundData.count (foregroundData demoBlank)
    ∧ ∀ i, (i < ForegroundData.count (foregroundData demoBlank))%nat →
        let d := foregroundData demoBlank in
        let d' := foregroundData s' in
        ∃ homeX homeY baseGlyph,
          (ForegroundData.homeX d !! i = Some homeX
           ∧ ForegroundData.homeY d !! i = Some homeY
           ∧ ForegroundData.baseGlyph d !! i = Some baseGlyph)
          ∧ (ForegroundData.homeX d' !! i = Some homeX
             ∧ ForegroundData.homeY d' !! i = Some homeY
             ∧ ForegroundData.baseGlyph d' !! i = Some baseGlyph)
          ∧ ForegroundData.targetX d' !! i = Some homeX
          ∧ ForegroundData.targetY d' !! i = Some homeY
          ∧ ForegroundData.targetGlyph d' !! i = Some baseGlyph
          ∧ ForegroundData.targetSlot d' !! i = Some 0%N.
Proof.
  apply (assign_empty_targets (H := demoHost) true demoBlank).
  - by repeat split.
  - reflexivity.
Defined.

(** Witness of C8: a fresh assignment of the five points to the three
    particles, from target arrays that hold nothing yet. *)
Lemma assign_fresh_build_witness :
  ∃ s', assignForegroundTargets (H := demoHost) false demoUnassigned = Done s'
    ∧ ForegroundData.count (foregroundData s')
      = ForegroundData.count (foregroundData demoUnassigned)
    ∧ ∀ i, (i < ForegroundData.count (foregroundData demoUnassigned))%nat →
        let d' := foregroundData s' in
        let slot :=
          ((i * 17) `mod` length (foregroundTargets demoUnassigned))%nat in
        ∃ target, foregroundTargets demoUnassigned !! slot = Some target
          ∧ ForegroundData.targetSlot d' !! i = Some (N.of_nat slot)
          ∧ ForegroundData.targetX d' !! i = Some (Target.x target)
          ∧ ForegroundData.targetY d' !! i = Some (Target.y target)
          ∧ ForegroundData.targetGlyph d' !! i = Some (Target.glyph target).
Proof.
  apply (assign_fresh_build (H := demoHost) demoUnassigned).
  - by repeat split.
  - simpl. lia.
  - reflexivity.
Defined.

(** Witness of C10: a preserving assignment on the field with five points. *)
Lemma assign_slots_in_bounds_witness :
  ∃ s', assignForegroundTargets (H := demoHost) true demoSim = Done s'
    ∧ foregroundTargets s' = foregroundTargets demoSim
    ∧ targetCount s' = length (foregroundTargets s')
    ∧ (∀ i slot,
         (i < ForegroundData.count (foregroundData s'))%nat →
         ForegroundData.targetSlot (foregroundData s') !! i = Some slot →
         (N.to_nat slot < targetCount s')%nat
         ∧ is_Some (foregroundTargets s' !! N.to_nat slot))
    ∧ (ForegroundData.wf (foregroundData demoSim) →
       ∀ i, (i < ForegroundData.count (foregroundData s'))%nat →
         is_Some (ForegroundData.targetSlot (foregroundData s') !! i)).
Proof.
  apply (assign_slots_in_bounds (H := demoHost) true demoSim).
  discriminate.
Defined.

(** Witness of C1: the word changes from GEIST to MESH. *)
Lemma retargetWord_keeps_particles_witness :
  ∃ s', retargetWord (H := demoHost) (Some (js "mesh")) demoSim = Done s'
    ∧ sameParticles (foregroundData demoSim) (foregroundData s')
    ∧ ForegroundData.wf (foregroundData s')
    ∧ (retargetMorph s' = retargetMorph demoSim
       ∧ retargetExcite s' = retargetExcite demoSim
       ∨ retargetMorph s' = 0 ∧ retargetExcite s' = 1)
    ∧ sameElsewhere demoSim s'.
Proof.
  apply (retargetWord_keeps_particles (H := demoHost) (Some (js "mesh")) demoSim).
  by repeat split.
Defined.

(** Witness of C6: the word GEIST, typed in lower case with a stray sign,
    while GEIST is current. *)
Lemma retargetWord_same_word_witness :
  normalizeWord (H := demoHost) (Some (js "geist!")) = currentWord demoSim
  ∧ retargetWord (H := demoHost) (Some (js "geist!")) demoSim = Done demoSim.
Proof.
  split; [reflexivity|].
  apply (retargetWord_same_word (H := demoHost) (Some (js "geist!")) demoSim).
  reflexivity.
Defined.

(** ** The pointer's area of effect *)

Section PointerProperties.
Context `{Host}.

Lemma clamp01_nonpos (v : num) : v ≤ 0 → clamp01 v = 0.
Proof.
  intros Hv. unfold clamp01, Math_min, Math_max.
  assert (v < 1) by (apply (Qcle_lt_trans _ 0); [done | by vm_compute]).
  rewrite (decide_True (P := v < 1)) by done.
  rewrite decide_False; [done|]. by apply Qcle_not_lt.
Qed.

Lemma modeConfig_radius_pos (i : nat) :
  0 < ModeConfig.pointerWarpRadiusFactor (modeConfig i).
Proof. do 6 (destruct i as [|i]; [by vm_compute|]). by vm_compute. Qed.

Lemma pointerWarpRadius_pos (f : Frame) (s : Sim) :
  0 < viewportWidth s → 0 < viewportHeight s → 0 < pointerWarpRadius f s.
Proof.
  intros Hw Hh. unfold pointerWarpRadius.
  apply Qcmult_pos_pos; [|apply modeConfig_radius_pos].
  unfold Math_min. by case_decide.
Qed.

(** At or beyond the radius the clamped proximity is 0. *)
Lemma pointerRadial_outside (f : Frame) (s : Sim) (hypot : num) :
  0 < pointerWarpRadius f s → pointerWarpRadius f s ≤ hypot →
  pointerRadial f s (hypot + #0.0001) = 0.
Proof.
  intros Hpos Hfar. unfold pointerRadial. apply clamp01_nonpos.
  set (r := pointerWarpRadius f s) in *.
  assert (Hr : r ≠ 0) by (intros Hr0; rewrite Hr0 in Hpos; by vm_compute in Hpos).
  assert (Hone : 1 ≤ (hypot + #0.0001) / r).
  { rewrite <-(Qcmult_inv_r r Hr). unfold Qcdiv.
    apply Qcmult_le_mono_nonneg_r; [by apply Qclt_le_weak, Qcinv_pos|].
    trans hypot; [done|].
    rewrite <-(Qcplus_0_r hypot) at 1.
    apply Qcplus_le_mono_l. by vm_compute. }
  apply (Qcplus_le_mono_r _ _ ((hypot + #0.0001) / r)).
  by replace (1 - (hypot + #0.0001) / r + (hypot + #0.0001) / r) with (1 : Qc)
    by ring; rewrite Qcplus_0_l.
Qed.

Lemma influence_zero (strength : num) :
  0 * 0 * (#3 - #2 * 0) * strength = 0.
Proof. num_ring. Qed.

Lemma pointerAbsent_gate (s : Sim) :
  ¬ #0.001 < pointerStrength (pointerAbsent s).
Proof. simpl. by vm_compute. Qed.

(** The ambient target does not read the pointer. *)
Lemma retargetBlend_pointerAbsent (s : Sim) :
  retargetBlend (pointerAbsent s) = retargetBlend s.
Proof. unfold retargetBlend. reflexivity. Qed.

Lemma combinedConverge_pointerAbsent (f : Frame) (s : Sim) (seed : num) :
  combinedConverge f (pointerAbsent s) seed = combinedConverge f s seed.
Proof.
  unfold combinedConverge. by rewrite retargetBlend_pointerAbsent.
Qed.

Lemma ambientTarget_pointerAbsent (f : Frame) (s : Sim) (p : Particle.t) :
  ambientTarget f (pointerAbsent s) p = ambientTarget f s p.
Proof.
  unfold ambientTarget. rewrite combinedConverge_pointerAbsent.
  unfold pointerAbsent, withPointer.
  cbn [retargetExcite foregroundStep ambientDriftX ambientDriftY].
  reflexivity.
Qed.

(** C7 (amended): the distance that the pointer branch measures is that of
    the particle's working target (its target position after convergence
    and ambient motion, the [targetX], [targetY] of the loop), not that of
    the particle itself.  For a particle whose working target is at or
    beyond the mode's pointer radius from the pointer (the distance being
    [Math.hypot] of the offset, the viewport having a positive size), the
    influence is 0, the flow, drag and pressure terms that the pointer
    branch adds are all 0, the adjusted target is the target before the
    branch, and the integration gives what it gives with the pointer absent
    (the branch skipped). *)
Theorem pointer_outside_radius (f : Frame) (s : Sim) (p : Particle.t) :
  0 < viewportWidth s → 0 < viewportHeight s →
  pointerWarpRadius f s
  ≤ Math_hypot ((ambientTarget f s p).1 - pointerWorldX s)
               ((ambientTarget f s p).2 - pointerWorldY s) →
  let terms :=
    pointerTerms f s (Particle.seed p)
                 (ambientTarget f s p).1 (ambientTarget f s p).2 in
  PointerTerms.influence terms = 0
  ∧ PointerTerms.flowX terms = 0 ∧ PointerTerms.flowY terms = 0
  ∧ PointerTerms.dragX terms = 0 ∧ PointerTerms.dragY terms = 0
  ∧ PointerTerms.pressureX terms = 0 ∧ PointerTerms.pressureY terms = 0
  ∧ adjustedTarget f s p = ambientTarget f s p
  ∧ integrate f s p = integrate f (pointerAbsent s) p.
Proof.
  intros Hw Hh Hfar.
  pose proof (pointerRadial_outside f s _ (pointerWarpRadius_pos f s Hw Hh) Hfar)
    as Hradial.
  cbv zeta.
  assert (Hterms :
    PointerTerms.influence (pointerTerms f s (Particle.seed p)
      (ambientTarget f s p).1 (ambientTarget f s p).2) = 0
    ∧ PointerTerms.flowX (pointerTerms f s (Particle.seed p)
        (ambientTarget f s p).1 (ambientTarget f s p).2) = 0
    ∧ PointerTerms.flowY (pointerTerms f s (Particle.seed p)
        (ambientTarget f s p).1 (ambientTarget f s p).2) = 0
    ∧ PointerTerms.dragX (pointerTerms f s (Particle.seed p)
        (ambientTarget f s p).1 (ambientTarget f s p).2) = 0
    ∧ PointerTerms.dragY (pointerTerms f s (Particle.seed p)
        (ambientTarget f s p).1 (ambientTarget f s p).2) = 0
    ∧ PointerTerms.pressureX (pointerTerms f s (Particle.seed p)
        (ambientTarget f s p).1 (ambientTarget f s p).2) = 0
    ∧ PointerTerms.pressureY (pointerTerms f s (Particle.seed p)
        (ambientTarget f s p).1 (ambientTarget f s p).2) = 0).
  { unfold pointerTerms. cbv zeta. rewrite Hradial.
    cbn [PointerTerms.influence PointerTerms.flowX PointerTerms.flowY
         PointerTerms.dragX PointerTerms.dragY
         PointerTerms.pressureX PointerTerms.pressureY].
    rewrite influence_zero.
    repeat (rewrite Qcmult_0_r || rewrite Qcmult_0_l). done. }
  destruct Hterms as (Hi & Hfx & Hfy & Hdx & Hdy & Hpx & Hpy).
  assert (Hadjusted : adjustedTarget f s p = ambientTarget f s p).
  { unfold adjustedTarget. cbv zeta. case_decide.
    - rewrite Hfx, Hfy, Hdx, Hdy, Hpx, Hpy.
      destruct (ambientTarget f s p) as [tx ty]. simpl.
      by rewrite !Qcplus_0_r.
    - by destruct (ambientTarget f s p). }
  split_and!; [assumption..|].
  assert (Habsent : adjustedTarget f (pointerAbsent s) p = ambientTarget f s p).
  { unfold adjustedTarget. cbv zeta.
    rewrite decide_False by apply pointerAbsent_gate.
    rewrite ambientTarget_pointerAbsent.
    by destruct (ambientTarget f s p). }
  unfold integrate.
  rewrite Hadjusted, Habsent.
  rewrite combinedConverge_pointerAbsent, retargetBlend_pointerAbsent.
  reflexivity.
Qed.

End PointerProperties.

(** ** The interaction mode without a pointer *)

Section ModeProperties.
Context `{Host}.

(** Two loops whose bodies agree wherever an invariant holds agree from a
    state in which it holds. *)
Lemma forEach_agree {A : Type} (Inv : A → Prop)
    (body1 body2 : A → nat → result A) (indices : list nat) (a : A) :
  (∀ a i, Inv a → body1 a i = body2 a i) →
  (∀ a i a', Inv a → body2 a i = Done a' → Inv a') →
  Inv a → forEach body1 indices a = forEach body2 indices a.
Proof.
  intros Hagree Hkeep. revert a.
  induction indices as [|i indices IH]; intros a Ha; simpl; [done|].
  rewrite (Hagree a i Ha).
  destruct (body2 a i) as [a'| |] eqn:Hbody; simpl; [|done..].
  apply IH. by eapply Hkeep.
Qed.

(** What a frame reads besides the mode. *)
Lemma delta_withMode mode f : delta (withMode mode f) = delta f.
Proof. reflexivity. Qed.
Lemma fps_withMode mode f : fps (withMode mode f) = fps f.
Proof. reflexivity. Qed.
Lemma timelineSpeed_withMode mode f :
  timelineSpeed (withMode mode f) = timelineSpeed f.
Proof. reflexivity. Qed.
Lemma motionTime_withMode mode f : motionTime (withMode mode f) = motionTime f.
Proof. reflexivity. Qed.
Lemma baseConverge_withMode mode f :
  baseConverge (withMode mode f) = baseConverge f.
Proof. unfold baseConverge. by rewrite motionTime_withMode. Qed.
Lemma lockPhase_withMode mode f : lockPhase (withMode mode f) = lockPhase f.
Proof. unfold lockPhase. by rewrite motionTime_withMode. Qed.
Lemma flow_withMode mode f : flow (withMode mode f) = flow f.
Proof. unfold flow. by rewrite motionTime_withMode. Qed.
Lemma rhythmWarp_withMode mode f : rhythmWarp (withMode mode f) = rhythmWarp f.
Proof.
  unfold rhythmWarp. by rewrite motionTime_withMode, baseConverge_withMode.
Qed.
Lemma converge_withMode mode f : converge (withMode mode f) = converge f.
Proof.
  unfold converge. by rewrite baseConverge_withMode, rhythmWarp_withMode.
Qed.
Lemma solidifyMix_withMode mode f :
  solidifyMix (withMode mode f) = solidifyMix f.
Proof. unfold solidifyMix. by rewrite motionTime_withMode. Qed.
Lemma floatingMix_withMode mode f :
  floatingMix (withMode mode f) = floatingMix f.
Proof. unfold floatingMix. by rewrite solidifyMix_withMode. Qed.
Lemma foregroundAlpha_withMode mode f :
  foregroundAlpha (withMode mode f) = foregroundAlpha f.
Proof.
  unfold foregroundAlpha. by rewrite converge_withMode, solidifyMix_withMode.
Qed.

Lemma animateScalars_withMode mode f s :
  animateScalars (withMode mode f) s = animateScalars f s.
Proof.
  unfold animateScalars. rewrite !delta_withMode. reflexivity.
Qed.

Lemma combinedConverge_withMode mode f s seed :
  combinedConverge (withMode mode f) s seed = combinedConverge f s seed.
Proof.
  unfold combinedConverge. by rewrite converge_withMode, lockPhase_withMode.
Qed.

Lemma ambientTarget_withMode mode f s p :
  ambientTarget (withMode mode f) s p = ambientTarget f s p.
Proof.
  unfold ambientTarget.
  rewrite combinedConverge_withMode, flow_withMode, lockPhase_withMode,
    floatingMix_withMode.
  reflexivity.
Qed.

(** With the pointer strength at 0 the pointer branch is skipped, and the
    integration of a particle does not read the mode. *)
Lemma integrate_withMode mode f s p :
  pointerStrength s = 0 →
  integrate (withMode mode f) s p = integrate f s p.
Proof.
  intros Hquiet.
  assert (Hgate : ¬ #0.001 < pointerStrength s)
    by (rewrite Hquiet; by vm_compute).
  unfold integrate, adjustedTarget.
  rewrite !decide_False by done.
  rewrite !ambientTarget_withMode, combinedConverge_withMode, !delta_withMode.
  reflexivity.
Qed.

Lemma animateParticle_withMode mode f s i :
  pointerStrength s = 0 →
  animateParticle (withMode mode f) s i = animateParticle f s i.
Proof.
  intros Hquiet. unfold animateParticle.
  destruct (readParticle (foregroundData s) i) as [p| |];
    cbn [mbind result_bind]; [|reflexivity..].
  by rewrite integrate_withMode.
Qed.

Lemma animateParticle_pointerStrength f s s' i :
  animateParticle f s i = Done s' → pointerStrength s' = pointerStrength s.
Proof.
  unfold animateParticle, writeParticle.
  intros (p & _ & (g & _ & [= <-])%bind_Done)%bind_Done. done.
Qed.

Lemma animateField_withMode mode f s s' :
  animateField f s = Done s' → pointerStrength s' = 0 →
  animateField (withMode mode f) s = Done s'.
Proof.
  unfold animateField.
  rewrite animateScalars_withMode, foregroundAlpha_withMode.
  set (s1 := animateScalars f s). case_match; [|done].
  intros Hloop Hquiet. rewrite <-Hloop.
  assert (Hs1 : pointerStrength s1 = 0).
  { rewrite <-Hquiet. symmetry.
    apply (forEach_invariant
             (λ a, pointerStrength a = pointerStrength s1) _ _ _ _ )
      in Hloop; [done| |done].
    intros a i a' Ha Hstep.
    by rewrite (animateParticle_pointerStrength _ _ _ _ Hstep). }
  apply (forEach_agree (λ a, pointerStrength a = 0)); [| |done].
  - intros a i Ha. by apply animateParticle_withMode.
  - intros a i a' Ha Hstep.
    by rewrite (animateParticle_pointerStrength _ _ _ _ Hstep).
Qed.

Lemma animate_withMode mode f s s' :
  animate f s = Done s' → pointerStrength s' = 0 →
  animate (withMode mode f) s = Done s'.
Proof.
  unfold animate. rewrite !fps_withMode.
  change (elapsedTime (withMode mode f)) with (elapsedTime f).
  change (devicePixelRatio (withMode mode f)) with (devicePixelRatio f).
  destruct (disposed s); [done|].
  repeat case_decide; [done|..]; intros; by apply animateField_withMode.
Qed.

Lemma handle_sameButMode e1 e2 s s' :
  sameButMode e1 e2 → handle e1 s = Done s' →
  match e1 with Tick _ => pointerStrength s' = 0 | _ => True end →
  handle e2 s = Done s'.
Proof.
  destruct e1 as [f|cx cy| |word]; simpl.
  - intros [mode ->] Hdone Hquiet. simpl. by apply animate_withMode.
  - by intros ->.
  - by intros ->.
  - by intros ->.
Qed.

Lemma trace_sameButMode events1 events2 s :
  Forall2 sameButMode events1 events2 → quietRun events1 s →
  trace events2 s = trace events1 s.
Proof.
  intros Hsame. revert s.
  induction Hsame as [|e1 e2 events1 events2 He Hrest IH]; intros s; [done|].
  simpl. destruct (handle e1 s) as [s'| |] eqn:H1; [|done..].
  intros [Hquiet Hrun].
  rewrite (handle_sameButMode e1 e2 s s' He H1 Hquiet). f_equal. by apply IH.
Qed.

Lemma quietRun_trace events s :
  quietRun events s → Forall (λ r, ∃ s', r = Done s') (trace events s).
Proof.
  revert s. induction events as [|e events IH]; intros s; simpl; [done|].
  destruct (handle e s) as [s'| |]; [|done..].
  intros [_ Hrun]. constructor; [by exists s' | by apply IH].
Qed.

(** C3: take two runs (frames, pointer events, word changes) from the same
    state that differ at most in the interaction mode of their frames.  If
    the first run has no error and the pointer strength is 0 at each of its
    ticks, the two runs go through the same states: after every event the
    second run has the outcome of the first, so the positions, velocities
    and displayed glyphs of all particles are the same at every tick. *)
Theorem mode_irrelevant_without_pointer (events1 events2 : list Event)
    (s : Sim) :
  Forall2 sameButMode events1 events2 →
  quietRun events1 s →
  trace events2 s = trace events1 s
  ∧ Forall2 sameParticleState (trace events1 s) (trace events2 s).
Proof.
  intros Hsame Hquiet.
  pose proof (trace_sameButMode _ _ _ Hsame Hquiet) as Htrace.
  split; [done|]. rewrite Htrace.
  apply Forall_Forall2_diag.
  eapply Forall_impl; [by apply quietRun_trace|].
  intros r [s' ->]. by exists s', s'.
Qed.

End ModeProperties.

(** Witness of C7: the pointer is present at the centre of the viewport, the
    mode is vortex (radius 259.2), and the particle's target is some 500
    away. *)
Lemma pointer_outside_radius_witness :
  #0.001 < pointerStrength demoPointerSim
  ∧ adjustedTarget (H := demoHost) demoFrame demoPointerSim demoParticle
    = ambientTarget (H := demoHost) demoFrame demoPointerSim demoParticle
  ∧ integrate (H := demoHost) demoFrame demoPointerSim demoParticle
    = integrate (H := demoHost) demoFrame (pointerAbsent demoPointerSim)
        demoParticle.
Proof.
  split; [by vm_compute|].
  apply (pointer_outside_radius (H := demoHost)
           demoFrame demoPointerSim demoParticle); by vm_compute.
Defined.

(** C7 read with the distance of the particle itself fails: the pointer is
    present at the centre of the viewport, the mode is vortex (radius
    259.2), the particle is at (300, 200), 500 away (360.6 by the Euclidean
    distance), and its working target is some 50 away.  The influence is
    positive, the pointer branch moves the target, and the integration is
    not the one with the branch skipped. *)
Lemma pointer_reaches_far_particle :
  let f := demoFrame in
  let s := demoPointerSim in
  let p := demoFarParticle in
  let target := ambientTarget (H := demoHost) f s p in
  #0.001 < pointerStrength s
  ∧ pointerWarpRadius f s
    ≤ Math_hypot (Host := demoHost) (Particle.posX p - pointerWorldX s)
        (Particle.posY p - pointerWorldY s)
  ∧ 0 < PointerTerms.influence
          (pointerTerms (H := demoHost) f s (Particle.seed p)
             target.1 target.2)
  ∧ (adjustedTarget (H := demoHost) f s p).1 ≠ target.1
  ∧ Stepped.posX (integrate (H := demoHost) f s p)
    ≠ Stepped.posX (integrate (H := demoHost) f (pointerAbsent s) p).
Proof.
  cbv zeta. split; [by vm_compute|]. split; [by vm_compute|].
  split; [by vm_compute|]. split; apply Qclt_not_eq; by vm_compute.
Qed.

(** Witness of C3: the demo run in the mode vortex and the same run in the
    modes magnet and tide. *)
Lemma mode_irrelevant_without_pointer_witness :
  trace (H := demoHost) demoRunOtherModes demoSim
  = trace (H := demoHost) demoRun demoSim
  ∧ Forall2 sameParticleState
      (trace (H := demoHost) demoRun demoSim)
      (trace (H := demoHost) demoRunOtherModes demoSim).
Proof.
  apply (mode_irrelevant_without_pointer (H := demoHost)
           demoRun demoRunOtherModes demoSim).
  - repeat constructor; by eexists.
  - vm_compute. by repeat split.
Defined.

(* ===================================================================== *)
(** * Part III. Further properties of the code                            *)
(* ===================================================================== *)

(** ** Rational arithmetic through [Q] *)

Lemma this_plus (x y : Qc) : (this (x + y) == this x + this y)%Q.
Proof. apply Qred_correct. Qed.

Lemma this_mult (x y : Qc) : (this (x * y) == this x * this y)%Q.
Proof. apply Qred_correct. Qed.

Lemma this_opp (x : Qc) : (this (- x) == - this x)%Q.
Proof. apply Qred_correct. Qed.

Lemma this_minus (x y : Qc) : (this (x - y) == this x - this y)%Q.
Proof. unfold Qcminus. rewrite this_plus, this_opp. reflexivity. Qed.

Lemma this_Q2Qc (q : Q) : (this (Q2Qc q) == q)%Q.
Proof. apply Qred_correct. Qed.

Lemma Qc_eq_Q (x y : Qc) : x = y ↔ (this x == this y)%Q.
Proof. split; [by intros -> | apply Qc_is_canon]. Qed.

Lemma Qc_le_Q (x y : Qc) : x ≤ y ↔ (this x <= this y)%Q.
Proof. reflexivity. Qed.

Lemma Qc_lt_Q (x y : Qc) : x < y ↔ (this x < this y)%Q.
Proof. reflexivity. Qed.

(** Turns the equalities and inequalities between numbers of the model into
    statements over [Q], where [lra] and [nra] decide them. *)
Ltac qc_to_q :=
  change num with Qc in *;
  repeat match goal with
  | H : context [@eq Qc _ _] |- _ => rewrite Qc_eq_Q in H
  | H : context [Qcle _ _] |- _ => rewrite Qc_le_Q in H
  | H : context [Qclt _ _] |- _ => rewrite Qc_lt_Q in H
  | |- context [@eq Qc _ _] => rewrite Qc_eq_Q
  | |- context [Qcle _ _] => rewrite Qc_le_Q
  | |- context [Qclt _ _] => rewrite Qc_lt_Q
  end;
  repeat (rewrite ?this_plus, ?this_mult, ?this_opp, ?this_minus, ?this_Q2Qc
            in * );
  unfold ofZ, ofNat in *;
  repeat match goal with
  | H : context [this (Qc_of_Z ?n)] |- _ =>
      change (this (Qc_of_Z n)) with (inject_Z n) in H
  | |- context [this (Qc_of_Z ?n)] =>
      change (this (Qc_of_Z n)) with (inject_Z n)
  end;
  change (inject_Z 0) with 0%Q in *; change (inject_Z 1) with 1%Q in *;
  change (this 0) with 0%Q in *; change (this 1) with 1%Q in *.

Ltac qc_lra := qc_to_q; lra.

Lemma Qsquare_nonneg (b : Q) : (0 <= b * b)%Q.
Proof.
  destruct (Qlt_le_dec b 0).
  - assert (Hsq : (b * b == (- b) * (- b))%Q) by ring.
    rewrite Hsq. apply Qmult_le_0_compat; lra.
  - apply Qmult_le_0_compat; lra.
Qed.

(** ** Clamps *)

Lemma Math_max_r a b : b ≤ Math_max a b.
Proof. unfold Math_max. case_decide; qc_lra. Qed.

Lemma Math_min_r a b : Math_min a b ≤ b.
Proof. unfold Math_min. case_decide; qc_lra. Qed.

Lemma Math_min_glb a b c : c ≤ a → c ≤ b → c ≤ Math_min a b.
Proof. unfold Math_min. by case_decide. Qed.

Lemma Math_max_mono a b b' : b ≤ b' → Math_max a b ≤ Math_max a b'.
Proof. unfold Math_max. intros. repeat case_decide; qc_lra. Qed.

Lemma Math_min_mono a b b' : b ≤ b' → Math_min a b ≤ Math_min a b'.
Proof. unfold Math_min. intros. repeat case_decide; qc_lra. Qed.

Lemma clamp_id lo hi v :
  lo ≤ v → v ≤ hi → Math_max lo (Math_min hi v) = v.
Proof.
  unfold Math_max, Math_min. intros. repeat case_decide; qc_lra.
Qed.

Lemma clamp_low lo hi v :
  lo ≤ hi → v ≤ lo → Math_max lo (Math_min hi v) = lo.
Proof.
  unfold Math_max, Math_min. intros. repeat case_decide; qc_lra.
Qed.

Lemma clamp_high lo hi v :
  lo ≤ hi → hi ≤ v → Math_max lo (Math_min hi v) = hi.
Proof.
  unfold Math_max, Math_min. intros. repeat case_decide; qc_lra.
Qed.

Lemma zero_le_one : (0 : Qc) ≤ 1.
Proof. by vm_compute. Qed.

Lemma clamp01_range v : 0 ≤ clamp01 v ∧ clamp01 v ≤ 1.
Proof. apply clamp_between, zero_le_one. Qed.

Lemma clamp01_id v : 0 ≤ v → v ≤ 1 → clamp01 v = v.
Proof. apply clamp_id. Qed.

Lemma clamp01_high v : 1 ≤ v → clamp01 v = 1.
Proof. apply clamp_high, zero_le_one. Qed.

Lemma clamp01_low v : v ≤ 0 → clamp01 v = 0.
Proof. apply clamp_low, zero_le_one. Qed.

Lemma clamp01_mono v w : v ≤ w → clamp01 v ≤ clamp01 w.
Proof. intros. by apply Math_max_mono, Math_min_mono. Qed.

(** ** Mode and colour indices *)

Lemma indexOf_Some (ids : list string) (mode : string) (i : nat) :
  indexOf ids mode = Some i → ids !! i = Some mode.
Proof.
  revert i. induction ids as [|id ids IH]; intros i; simpl; [done|].
  case_decide as Hid.
  - intros [= <-]. by rewrite Hid.
  - destruct (indexOf ids mode) as [j|]; simpl; [|done].
    intros [= <-]. by apply IH.
Qed.

Lemma indexOf_None (ids : list string) (mode : string) :
  indexOf ids mode = None ↔ mode ∉ ids.
Proof.
  induction ids as [|id ids IH]; simpl.
  - split; [intros _ ?%elem_of_nil; done | done].
  - case_decide as Hid.
    + split; [done|]. intros Hnot. exfalso. apply Hnot.
      rewrite Hid. apply elem_of_cons. by left.
    + rewrite not_elem_of_cons, <-IH.
      destruct (indexOf ids mode); simpl; [|by split; [split; [congruence|]|]].
      split; [done | by intros [_ ?]].
Qed.

Lemma indexOf_NoDup (ids : list string) (mode : string) (i : nat) :
  NoDup ids → ids !! i = Some mode → indexOf ids mode = Some i.
Proof.
  intros Hnodup. revert i.
  induction Hnodup as [|id ids Hid Hnodup IH]; intros i; [done|].
  destruct i as [|i]; simpl.
  - intros [= ->]. by rewrite decide_True.
  - intros Hi. rewrite decide_False.
    + by rewrite (IH i Hi).
    + intros ->. apply Hid. by eapply list_elem_of_lookup_2.
Qed.

(** What [indexOf] with the fallback 0 gives on a list of distinct ids whose
    first element is the default. *)
Lemma index_or_zero (ids : list string) (mode : string) :
  NoDup ids → ids ≠ [] →
  let index := default 0%nat (indexOf ids mode) in
  (index < length ids)%nat
  ∧ (mode ∈ ids → ids !! index = Some mode)
  ∧ (mode ∉ ids → index = 0%nat)
  ∧ (∀ i, ids !! i = Some mode → index = i).
Proof.
  intros Hnodup Hne index. subst index.
  destruct (indexOf ids mode) as [i|] eqn:Hindex; simpl.
  - pose proof (indexOf_Some _ _ _ Hindex) as Hi.
    split_and!.
    + by eapply lookup_lt_Some.
    + done.
    + intros Hnot%indexOf_None. congruence.
    + intros j Hj. apply (indexOf_NoDup _ _ _ Hnodup) in Hj. congruence.
  - pose proof (proj1 (indexOf_None _ _) Hindex) as Hnot.
    split_and!.
    + destruct ids; simpl; [done | lia].
    + done.
    + done.
    + intros j Hj. exfalso. apply Hnot. by eapply list_elem_of_lookup_2.
Qed.

(** X1: the index of a mode id is always an index of the list of ids; for a
    known id it is the position of that id (reading the list at the index
    gives the id back, and the position of an id gives its index), and every
    other string gets the index 0 of the first id.  The same holds for the
    colour modes. *)
Theorem mode_index_round_trip (mode : string) :
  ((getInteractionModeIndex mode < length INTERACTION_MODE_IDS)%nat
   ∧ (mode ∈ INTERACTION_MODE_IDS →
      INTERACTION_MODE_IDS !! getInteractionModeIndex mode = Some mode)
   ∧ (mode ∉ INTERACTION_MODE_IDS → getInteractionModeIndex mode = 0%nat)
   ∧ (∀ i, INTERACTION_MODE_IDS !! i = Some mode →
        getInteractionModeIndex mode = i))
  ∧ ((getColorModeIndex mode < length COLOR_MODE_IDS)%nat
     ∧ (mode ∈ COLOR_MODE_IDS →
        COLOR_MODE_IDS !! getColorModeIndex mode = Some mode)
     ∧ (mode ∉ COLOR_MODE_IDS → getColorModeIndex mode = 0%nat)
     ∧ (∀ i, COLOR_MODE_IDS !! i = Some mode → getColorModeIndex mode = i)).
Proof.
  split.
  - apply (index_or_zero INTERACTION_MODE_IDS mode); [|done].
    apply (bool_decide_unpack _). by vm_compute.
  - apply (index_or_zero COLOR_MODE_IDS mode); [|done].
    apply (bool_decide_unpack _). by vm_compute.
Qed.

(** ** [smoothstep] and [easeOutBack] *)

Lemma this_inv (x : Qc) : (this (/ x) == / this x)%Q.
Proof. apply Qred_correct. Qed.

(** Division by a positive number, as an inequality without division. *)
Lemma Qcdiv_le_iff (x y z : Qc) : 0 < y → x / y ≤ z ↔ x ≤ z * y.
Proof.
  intros Hy. unfold Qcdiv. qc_to_q. rewrite this_inv.
  split; intros Hle.
  - apply (Qmult_le_r _ _ (/ y)); [by apply Qinv_lt_0_compat|].
    rewrite <-Qmult_assoc, Qmult_inv_r, Qmult_1_r by lra. done.
  - apply (Qmult_le_r _ _ (/ y)) in Hle; [|by apply Qinv_lt_0_compat].
    rewrite <-(Qmult_assoc z), Qmult_inv_r, Qmult_1_r in Hle by lra. done.
Qed.

Lemma Qcdiv_ge_iff (x y z : Qc) : 0 < y → z ≤ x / y ↔ z * y ≤ x.
Proof.
  intros Hy. unfold Qcdiv. qc_to_q. rewrite this_inv.
  split; intros Hle.
  - apply (Qmult_le_r _ _ (/ y)); [by apply Qinv_lt_0_compat|].
    rewrite <-(Qmult_assoc z), Qmult_inv_r, Qmult_1_r by lra. done.
  - apply (Qmult_le_r _ _ (/ y)) in Hle; [|by apply Qinv_lt_0_compat].
    rewrite <-(Qmult_assoc z), Qmult_inv_r, Qmult_1_r in Hle by lra. done.
Qed.

Lemma Qcdiv_mono (x x' y : Qc) : 0 < y → x ≤ x' → x / y ≤ x' / y.
Proof.
  intros Hy Hx. apply Qcdiv_le_iff; [done|].
  unfold Qcdiv. rewrite <-Qcmult_assoc, (Qcmult_comm (/ y)), Qcmult_inv_r.
  - by rewrite Qcmult_1_r.
  - intros ->. by vm_compute in Hy.
Qed.

(** The cubic [t * t * (3 - 2 * t)] on the unit interval. *)
Lemma hermite_range (t : Qc) :
  0 ≤ t → t ≤ 1 → 0 ≤ t * t * (#3 - #2 * t) ∧ t * t * (#3 - #2 * t) ≤ 1.
Proof.
  intros H0 H1. qc_to_q. split.
  - pose proof (Qsquare_nonneg t). nra.
  - pose proof (Qsquare_nonneg (1 - t)). nra.
Qed.

Lemma hermite_mono (a b : Qc) :
  0 ≤ a → a ≤ b → b ≤ 1 →
  a * a * (#3 - #2 * a) ≤ b * b * (#3 - #2 * b).
Proof.
  intros H0 H1 H2. qc_to_q.
  assert (0 <= (b - a) * (a * (3 - 2 * a - b)))%Q
    by (apply Qmult_le_0_compat; [lra | apply Qmult_le_0_compat; lra]).
  assert (0 <= (b - a) * (b * (3 - 2 * b - a)))%Q
    by (apply Qmult_le_0_compat; [lra | apply Qmult_le_0_compat; lra]).
  lra.
Qed.

(** In the model the value of [smoothstep] lies in the unit interval for
    all arguments (in the source, equal edges divide by zero). *)
Lemma smoothstep_unit (edge0 edge1 x : num) :
  0 ≤ smoothstep edge0 edge1 x ∧ smoothstep edge0 edge1 x ≤ 1.
Proof.
  unfold smoothstep. cbv zeta.
  destruct (clamp01_range ((x - edge0) / (edge1 - edge0))).
  by apply hermite_range.
Qed.

Lemma smoothstep_low (edge0 edge1 x : num) :
  edge0 < edge1 → x ≤ edge0 → smoothstep edge0 edge1 x = 0.
Proof.
  intros Hedges Hx. unfold smoothstep. cbv zeta.
  rewrite clamp01_low; [num_ring|].
  apply Qcdiv_le_iff; qc_lra.
Qed.

Lemma smoothstep_high (edge0 edge1 x : num) :
  edge0 < edge1 → edge1 ≤ x → smoothstep edge0 edge1 x = 1.
Proof.
  intros Hedges Hx. unfold smoothstep. cbv zeta.
  rewrite clamp01_high; [by vm_compute|].
  apply Qcdiv_ge_iff; qc_lra.
Qed.

(** In the exact arithmetic of the model [smoothstep] never decreases (the
    doubles of the source can go down by a unit in the last place between
    neighbouring arguments, so this serves for bounds with room to spare
    only). *)
Lemma smoothstep_mono (edge0 edge1 x y : num) :
  edge0 < edge1 → x ≤ y →
  smoothstep edge0 edge1 x ≤ smoothstep edge0 edge1 y.
Proof.
  intros Hedges Hxy. unfold smoothstep. cbv zeta.
  assert (Hpos : 0 < edge1 - edge0) by qc_lra.
  assert (Harg : (x - edge0) / (edge1 - edge0) ≤ (y - edge0) / (edge1 - edge0)).
  { apply Qcdiv_mono; [done | qc_lra]. }
  apply clamp01_mono in Harg.
  destruct (clamp01_range ((x - edge0) / (edge1 - edge0))).
  destruct (clamp01_range ((y - edge0) / (edge1 - edge0))).
  by apply hermite_mono.
Qed.

(** X2: between two edges in increasing order, [smoothstep] takes values in
    the unit interval, is 0 at and below the lower edge and 1 at and above
    the upper edge. *)
Theorem smoothstep_saturates (edge0 edge1 x : num) :
  edge0 < edge1 →
  (0 ≤ smoothstep edge0 edge1 x ∧ smoothstep edge0 edge1 x ≤ 1)
  ∧ (x ≤ edge0 → smoothstep edge0 edge1 x = 0)
  ∧ (edge1 ≤ x → smoothstep edge0 edge1 x = 1).
Proof.
  intros Hedges. split_and!.
  - apply smoothstep_unit.
  - apply smoothstep_unit.
  - by apply smoothstep_low.
  - by apply smoothstep_high.
Qed.

Lemma smoothstep_saturates_witness :
  #2.6 < #7.2
  ∧ smoothstep #2.6 #7.2 #1 = 0
  ∧ smoothstep #2.6 #7.2 #8 = 1.
Proof.
  split; [by vm_compute|].
  pose proof (smoothstep_saturates #2.6 #7.2 #1 ltac:(by vm_compute))
    as (_ & Hlow & _).
  pose proof (smoothstep_saturates #2.6 #7.2 #8 ltac:(by vm_compute))
    as (_ & _ & Hhigh).
  split; [apply Hlow | apply Hhigh]; by vm_compute.
Defined.

(** X4: [easeOutBack] is never negative, overshoots 1 by at most a tenth
    (its values lie in [[0, 1.1001]]; the largest is about 1.100004), and is
    1 at and above 1. *)
Theorem easeOutBack_bounds (x : num) :
  (0 ≤ easeOutBack x ∧ easeOutBack x ≤ #1.1001)
  ∧ (1 ≤ x → easeOutBack x = 1).
Proof.
  unfold easeOutBack. cbv zeta. cbn [Qcpower].
  split_and!.
  - destruct (clamp01_range x) as [H0 H1].
    set (t := clamp01 x) in *. qc_to_q.
    assert (0 <= (t - 1) * (t - 1) * ((1.70158 + 1) * (t - 1) + 1.70158 + 1))%Q
      by (apply Qmult_le_0_compat; [apply Qsquare_nonneg | lra]).
    assert (0 <= (1 - (t - 1)) * (1 + (t - 1)))%Q
      by (apply Qmult_le_0_compat; lra).
    lra.
  - destruct (clamp01_range x) as [H0 H1].
    set (t := clamp01 x) in *. qc_to_q.
    assert (0 <= (1.70158 + 1)
                 * (((1 - t) - (Qmake 340316 810474)) * ((1 - t) - (Qmake 340316 810474)))
                 * ((1 - t) + (Qmake 170158 810474)))%Q.
    { apply Qmult_le_0_compat; [|lra].
      apply Qmult_le_0_compat; [lra | apply Qsquare_nonneg]. }
    lra.
  - intros Hx. rewrite clamp01_high by done. apply Qc_is_canon. by vm_compute.
Qed.

(** ** The hash and the proportional remap of slots *)

Section SlotProperties.
Context `{Host}.

(** The hash is the fractional part of a number: it lies in [[0, 1)],
    whatever the sine. *)
Lemma hash01_range (seed : num) : 0 ≤ hash01 seed ∧ hash01 seed < 1.
Proof.
  unfold hash01, Math_floor. cbv zeta.
  set (value := Math_sin (seed * #12.9898) * #43758.5453).
  pose proof (Qfloor_le value) as Hlo.
  pose proof (Qlt_floor value) as Hhi.
  rewrite inject_Z_plus in Hhi. change (inject_Z 1) with 1%Q in Hhi.
  split; qc_to_q; lra.
Qed.

(** [Math.round] is within a half of its argument. *)
Lemma Math_round_near (v : num) :
  v - #0.5 < ofZ (Math_round v) ∧ ofZ (Math_round v) ≤ v + #0.5.
Proof.
  unfold Math_round.
  pose proof (Qfloor_le (v + #0.5)) as Hlo.
  pose proof (Qlt_floor (v + #0.5)) as Hhi.
  rewrite inject_Z_plus in Hhi. change (inject_Z 1) with 1%Q in Hhi.
  set (rounded := Qfloor (v + #0.5)) in *.
  split; qc_to_q; lra.
Qed.

Lemma ofZ_le (a b : Z) : (a ≤ b)%Z → ofZ a ≤ ofZ b.
Proof.
  intros Hab. qc_to_q. by rewrite <-Zle_Qle.
Qed.

Lemma ofZ_lt (a b : Z) : (a < b)%Z → ofZ a < ofZ b.
Proof.
  intros Hab. qc_to_q. by rewrite <-Zlt_Qlt.
Qed.

Lemma ofZ_0 : ofZ 0 = 0.
Proof. by apply Qc_is_canon. Qed.

Lemma ofZ_minus_1 (n : nat) : ofZ (Z.of_nat n - 1) = ofNat n - 1.
Proof.
  qc_to_q. unfold Z.sub. rewrite inject_Z_plus. reflexivity.
Qed.

(** X5: when slots are preserved (a word change), the new slot of a particle
    is the image of its old slot under the proportional map from the old list
    onto the new one, up to 1.4 slots: the jitter is below 0.9 in absolute
    value and the rounding adds at most a half.  Here the old list has more
    than one point, the new one is not empty, and the old slot is an index
    of the old list. *)
Theorem preserved_slot_near (targetCount nextCount : nat) (targetSlot : list N)
    (i : nat) (oldSlot : N) :
  (1 < targetCount)%nat → (0 < nextCount)%nat →
  targetSlot !! i = Some oldSlot → (N.to_nat oldSlot < targetCount)%nat →
  let slot := ofZ (slotOf true targetCount nextCount targetSlot i) in
  let ideal :=
    ofZ (Z.of_N oldSlot) / (ofNat targetCount - 1) * (ofNat nextCount - 1) in
  ideal - #1.4 ≤ slot ∧ slot ≤ ideal + #1.4.
Proof.
  intros Hold Hnext Hslot Hvalid. cbv zeta. unfold slotOf.
  replace (0 <? targetCount)%nat with true by (symmetry; apply Nat.ltb_lt; lia).
  replace (targetCount <=? 1)%nat with false by (symmetry; apply Nat.leb_gt; lia).
  rewrite Hslot. cbn [andb default from_option id]. cbv zeta.
  set (ratio := ofZ (Z.of_N oldSlot) / (ofNat targetCount - 1)).
  set (jitter :=
         (hash01 (ofNat i * #31.7 + ofNat targetCount * #0.17) - #0.5) * #1.8).
  assert (Hden : 0 < ofNat targetCount - 1).
  { rewrite <-ofZ_minus_1, <-ofZ_0. apply ofZ_lt. lia. }
  assert (Hratio : 0 ≤ ratio ∧ ratio ≤ 1).
  { subst ratio. split.
    - apply Qcdiv_ge_iff; [done|]. rewrite Qcmult_0_l, <-ofZ_0.
      apply ofZ_le. lia.
    - apply Qcdiv_le_iff; [done|]. rewrite Qcmult_1_l, <-ofZ_minus_1.
      apply ofZ_le. lia. }
  assert (Hspan : 0 ≤ ofNat nextCount - 1).
  { rewrite <-ofZ_minus_1, <-ofZ_0. apply ofZ_le. lia. }
  assert (Hideal : 0 ≤ ratio * (ofNat nextCount - 1)
                   ∧ ratio * (ofNat nextCount - 1) ≤ ofNat nextCount - 1).
  { destruct Hratio. split; qc_to_q; nra. }
  assert (Hjitter : - #0.9 ≤ jitter ∧ jitter ≤ #0.9).
  { subst jitter.
    destruct (hash01_range (ofNat i * #31.7 + ofNat targetCount * #0.17)).
    split; qc_to_q; lra. }
  destruct (Math_round_near (ratio * (ofNat nextCount - 1) + jitter))
    as [Hlow Hhigh].
  set (rounded := Math_round (ratio * (ofNat nextCount - 1) + jitter)) in *.
  set (ideal := ratio * (ofNat nextCount - 1)) in *.
  destruct Hideal, Hjitter.
  destruct (Z.max_spec 0 (Z.min (Z.of_nat nextCount - 1) rounded))
    as [[Hcase ->]|[Hcase ->]];
    [destruct (Z.min_spec (Z.of_nat nextCount - 1) rounded)
       as [[Hmin ->]|[Hmin ->]]|].
  - rewrite ofZ_minus_1. split; [qc_lra|].
    assert (ofNat nextCount - 1 ≤ ofZ rounded)
      by (rewrite <-ofZ_minus_1; apply ofZ_le; lia).
    qc_lra.
  - split; qc_lra.
  - assert (Hneg : ofZ (Z.min (Z.of_nat nextCount - 1) rounded) ≤ 0)
      by (rewrite <-ofZ_0; apply ofZ_le; lia).
    assert (Hmin : ofZ rounded ≤ 0 ∨ ofNat nextCount - 1 ≤ 0).
    { destruct (Z.min_spec (Z.of_nat nextCount - 1) rounded)
        as [[_ Heq]|[_ Heq]]; rewrite Heq in Hneg; [right | by left].
      by rewrite <-ofZ_minus_1. }
    rewrite ofZ_0. split; [|qc_lra].
    destruct Hmin; qc_lra.
Qed.

End SlotProperties.

(** Witness of X5: particle 1 of the demo field (old slot 2 of five points)
    when the new list has five points as well. *)
Lemma preserved_slot_near_witness :
  let slot :=
    ofZ (slotOf (H := demoHost) true 5 5
           (ForegroundData.targetSlot demoData) 1) in
  let ideal := ofZ 2 / (ofNat 5 - 1) * (ofNat 5 - 1) in
  ideal - #1.4 ≤ slot ∧ slot ≤ ideal + #1.4.
Proof.
  apply (preserved_slot_near (H := demoHost) 5 5
           (ForegroundData.targetSlot demoData) 1 2%N);
    [lia | lia | reflexivity | simpl; lia].
Defined.

(** ** The timeline of a frame *)

Section TimelineProperties.
Context `{Host}.

Lemma converge_range (f : Frame) : 0 ≤ converge f ∧ converge f ≤ 1.
Proof. unfold converge. apply clamp01_range. Qed.

Lemma solidifyMix_range (f : Frame) : 0 ≤ solidifyMix f ∧ solidifyMix f ≤ 1.
Proof. unfold solidifyMix. apply smoothstep_unit. Qed.

Lemma foregroundAlpha_low (f : Frame) :
  #0.56 ≤ foregroundAlpha f ∧ 0 ≤ converge f ∧ 0 ≤ solidifyMix f.
Proof.
  unfold foregroundAlpha.
  destruct (converge_range f), (solidifyMix_range f).
  split; [qc_lra | by split].
Qed.

Lemma animateScalars_foregroundMesh (f : Frame) (s : Sim) :
  foregroundMesh (animateScalars f s) = foregroundMesh s.
Proof. reflexivity. Qed.

Lemma animateScalars_foregroundData (f : Frame) (s : Sim) :
  foregroundData (animateScalars f s) = foregroundData s.
Proof. reflexivity. Qed.

(** X6: the opacity of the foreground is at least 0.56 in every frame, so
    the test [foregroundAlpha > 0.001] before the particle loop never fails:
    whenever the mesh exists, a frame that gets past the quality controller
    integrates every particle. *)
Theorem foreground_always_visible (f : Frame) (s : Sim) :
  (#0.56 ≤ foregroundAlpha f ∧ #0.001 < foregroundAlpha f)
  ∧ (foregroundMesh s = true →
     animateField f s
     = forEach (animateParticle f)
         (seq 0 (ForegroundData.count (foregroundData s)))
         (animateScalars f s)).
Proof.
  assert (Halpha : #0.56 ≤ foregroundAlpha f ∧ #0.001 < foregroundAlpha f).
  { destruct (foregroundAlpha_low f). split; qc_lra. }
  split; [exact Halpha|].
  intros Hmesh. unfold animateField. cbv zeta.
  rewrite animateScalars_foregroundMesh, animateScalars_foregroundData, Hmesh.
  rewrite bool_decide_eq_true_2; [done|]. by destruct Halpha.
Qed.

End TimelineProperties.

(** ** The end of the timeline and the start of a retarget *)

Section SettleProperties.
Context `{Host}.








Lemma switchGate_range (seed : num) :
  sineBounded →
  #0.5 ≤ #0.5 + (Math_sin (seed * #23.1) * #0.5 + #0.5) * #0.2
  ∧ #0.5 + (Math_sin (seed * #23.1) * #0.5 + #0.5) * #0.2 ≤ #0.7.
Proof.
  intros Hsine. destruct (Hsine (seed * #23.1)). split; qc_lra.
Qed.





Lemma animateScalars_retargetMorph (f : Frame) (s : Sim) :
  retargetMorph (animateScalars f s)
  = Math_min 1 (retargetMorph s
                + delta f * (#0.72 + #0.9 * Motion.settle (motion f))).
Proof. reflexivity. Qed.

Lemma delta_le (f : Frame) : delta f ≤ #0.05.
Proof. unfold delta. apply Math_min_l. Qed.

(** X8: in the frame after a word change (the morph was reset to 0), with
    the settle setting within its bounds [[0.5, 1.6]], no particle shows its
    target glyph: the blend of the retarget is still below the threshold of
    the glyph switch, so every particle shows its base glyph. *)
Theorem base_glyph_after_retarget (f : Frame) (s : Sim) (p : Particle.t) :
  sineBounded →
  #0.5 ≤ Motion.settle (motion f) → Motion.settle (motion f) ≤ #1.6 →
  retargetMorph s = 0 →
  Stepped.showTarget (integrate f (animateScalars f s) p) = false.
Proof.
  intros Hsine Hlow Hhigh Hmorph.
  assert (Hnext : retargetMorph (animateScalars f s) ≤ #0.108).
  { rewrite animateScalars_retargetMorph, Hmorph.
    trans (0 + delta f * (#0.72 + #0.9 * Motion.settle (motion f)));
      [apply Math_min_r|].
    pose proof (delta_le f) as Hdelta.
    set (d := delta f) in *. set (settle := Motion.settle (motion f)) in *.
    clearbody d settle. qc_to_q.
    assert (0 <= (0.05 - d) * (0.72 + 0.9 * settle))%Q
      by (apply Qmult_le_0_compat; lra).
    lra. }
  assert (Hblend : retargetBlend (animateScalars f s) ≤ #0.18).
  { unfold retargetBlend.
    trans (smoothstep #0.02 #0.96 #0.108);
      [apply smoothstep_mono; [by vm_compute | done] | by vm_compute]. }
  set (s1 := animateScalars f s) in *. clearbody s1.
  unfold integrate. cbv zeta. cbn [Stepped.showTarget].
  rewrite smoothstep_low; [|by vm_compute|].
  - apply bool_decide_eq_false_2.
    destruct (switchGate_range (Particle.seed p) Hsine). qc_lra.
  - trans (retargetBlend s1); [apply Math_min_r | done].
Qed.

End SettleProperties.

Lemma demoHost_sineBounded : sineBounded (H := demoHost).
Proof.
  intros v. simpl.
  assert (Hpos : 0 < 1 + Math_abs v)
    by (unfold Math_abs; case_decide; qc_lra).
  split.
  - apply Qcdiv_ge_iff; [done|]. unfold Math_abs in *. case_decide; qc_lra.
  - apply Qcdiv_le_iff; [done|]. unfold Math_abs in *. case_decide; qc_lra.
Qed.


(** Witness of X8: the first frame of the demo field after a word change. *)
Lemma base_glyph_after_retarget_witness :
  retargetMorph demoRetargeted = 0
  ∧ Stepped.showTarget
      (integrate (H := demoHost) demoFrame
         (animateScalars (H := demoHost) demoFrame demoRetargeted)
         demoParticle) = false.
Proof.
  split; [reflexivity|].
  apply (base_glyph_after_retarget (H := demoHost)
           demoFrame demoRetargeted demoParticle demoHost_sineBounded);
    [by vm_compute | by vm_compute | reflexivity].
Defined.

(** ** The pointer after a reset *)

Section PointerResetProperties.
Context `{Host}.

Lemma idle_follow (k : Qc) : 0 + (0 - 0) * k = 0.
Proof. ring. Qed.

Lemma animateScalars_idle (f : Frame) (s : Sim) :
  pointerIdle s → pointerIdle (animateScalars f s).
Proof.
  intros (Htx & Hty & Hst & Hvtx & Hvty & Hx & Hy & Hs & Hvx & Hvy).
  unfold pointerIdle, animateScalars. cbv zeta.
  cbn [pointerTargetX pointerTargetY pointerStrengthTarget
       pointerVelocityTargetX pointerVelocityTargetY pointerX pointerY
       pointerStrength pointerVelocityX pointerVelocityY
       withAmbientDrift withPointer withPointerTargets withRetarget].
  rewrite Htx, Hty, Hst, Hvtx, Hvty, Hx, Hy, Hs, Hvx, Hvy.
  rewrite !idle_follow, !Qcmult_0_l. done.
Qed.

Lemma animateParticle_frame (f : Frame) (s s' : Sim) (i : nat) :
  animateParticle f s i = Done s' →
  ∃ d glyphs' offsets', s' = withParticles d glyphs' offsets' s.
Proof.
  unfold animateParticle, writeParticle.
  intros (p & _ & (g & _ & [= <-])%bind_Done)%bind_Done. eauto.
Qed.

Lemma animateParticle_samePointer (f : Frame) (s s' : Sim) (i : nat) :
  animateParticle f s i = Done s' → samePointer s s'.
Proof.
  intros (d & g & o & ->)%animateParticle_frame. by repeat split.
Qed.

Lemma samePointer_idle (s s' : Sim) :
  samePointer s s' → pointerIdle s → pointerIdle s'.
Proof.
  intros (a1 & a2 & a3 & a4 & a5 & a6 & a7 & a8 & a9 & a10)
         (b1 & b2 & b3 & b4 & b5 & b6 & b7 & b8 & b9 & b10).
  unfold pointerIdle.
  rewrite a1, a2, a3, a4, a5, a6, a7, a8, a9, a10.
  split_and!; assumption.
Qed.

Lemma animateField_idle (f : Frame) (s s' : Sim) :
  animateField f s = Done s' → pointerIdle s → pointerIdle s'.
Proof.
  unfold animateField. cbv zeta. intros Hfield Hidle.
  apply (animateScalars_idle f) in Hidle.
  set (s1 := animateScalars f s) in *. clearbody s1.
  case_match; [|by simplify_eq].
  apply (forEach_invariant pointerIdle _ _ _ _) in Hfield; [done| |done].
  intros a i a' Ha Hstep.
  by eapply samePointer_idle; [eapply animateParticle_samePointer|].
Qed.

Lemma animate_idle (f : Frame) (s s' : Sim) :
  animate f s = Done s' → pointerIdle s → pointerIdle s'.
Proof.
  unfold animate. destruct (disposed s); [by intros [= <-]|].
  cbv zeta. repeat case_decide.
  - by intros [= <-].
  - intros Hfield Hidle. by eapply animateField_idle.
  - intros Hfield Hidle. by eapply animateField_idle.
Qed.

Lemma retargetWord_samePointer (word : option jsstring) (s s' : Sim) :
  retargetWord word s = Done s' → samePointer s s'.
Proof.
  unfold retargetWord. case_match; [intros [= <-]; by repeat split|].
  intros (s1 & (d & n & ->)%assignForegroundTargets_frame & [= <-])%bind_Done.
  by repeat split.
Qed.

Lemma handle_idle (e : Event) (s s' : Sim) :
  noPointerMove e → handle e s = Done s' → pointerIdle s → pointerIdle s'.
Proof.
  destruct e as [f|cx cy| |word]; simpl; intros Hmove.
  - apply animate_idle.
  - done.
  - intros [= <-] _. by repeat split.
  - intros Hword%retargetWord_samePointer. by apply samePointer_idle.
Qed.

Lemma trace_idle (events : list Event) (s : Sim) :
  Forall noPointerMove events → pointerIdle s →
  Forall pointerIdleAfter (trace events s).
Proof.
  intros Hmoves. revert s.
  induction Hmoves as [|e events He Hmoves IH]; intros s Hidle; simpl; [done|].
  destruct (handle e s) as [s'| |] eqn:Hhandle; [|by repeat constructor..].
  pose proof (handle_idle _ _ _ He Hhandle Hidle).
  constructor; [done | by apply IH].
Qed.

(** X9: after a pointer reset (the pointer left the window, was cancelled,
    the window lost focus or the tab was hidden) the pointer is idle, and it
    stays idle through every frame and word change until the next pointer
    move: its strength is 0 in each of these frames, so their particle loops
    skip the pointer branch. *)
Theorem pointer_reset_stays_off (events : list Event) (s : Sim) :
  Forall noPointerMove events →
  pointerIdle (resetPointerState true s)
  ∧ Forall pointerIdleAfter (trace events (resetPointerState true s)).
Proof.
  intros Hmoves.
  assert (pointerIdle (resetPointerState true s)) by (by repeat split).
  split; [done | by apply trace_idle].
Qed.

End PointerResetProperties.

(** Witness of X9: the demo run after a reset of the pointer that was present. *)
Lemma pointer_reset_stays_off_witness :
  #0.001 < pointerStrength demoPointerSim
  ∧ pointerIdle (resetPointerState true demoPointerSim)
  ∧ Forall pointerIdleAfter
      (trace (H := demoHost) demoRun (resetPointerState true demoPointerSim)).
Proof.
  split; [by vm_compute|].
  apply (pointer_reset_stays_off (H := demoHost) demoRun demoPointerSim).
  by repeat constructor.
Defined.

(** ** Pointer moves *)

(** X10: a pointer move inside a viewport of positive size sets the pointer
    target to the normalised device coordinates of the event, which lie in
    [[-1, 1]] on both axes; the velocity target is the displacement of the
    pointer target, the strength target is 1, and the move by itself changes
    neither the smoothed pointer nor any particle. *)
Theorem onPointerMove_in_range (clientX clientY : num) (s : Sim) :
  0 < viewportWidth s → 0 < viewportHeight s →
  0 ≤ clientX → clientX ≤ viewportWidth s →
  0 ≤ clientY → clientY ≤ viewportHeight s →
  let s' := onPointerMove clientX clientY s in
  (- 1 ≤ pointerTargetX s' ∧ pointerTargetX s' ≤ 1)
  ∧ (- 1 ≤ pointerTargetY s' ∧ pointerTargetY s' ≤ 1)
  ∧ pointerStrengthTarget s' = 1
  ∧ pointerVelocityTargetX s' = pointerTargetX s' - pointerTargetX s
  ∧ pointerVelocityTargetY s' = pointerTargetY s' - pointerTargetY s
  ∧ pointerX s' = pointerX s ∧ pointerY s' = pointerY s
  ∧ pointerStrength s' = pointerStrength s
  ∧ foregroundData s' = foregroundData s.
Proof.
  intros Hw Hh Hx0 Hx1 Hy0 Hy1. cbv zeta.
  unfold onPointerMove. cbv zeta.
  cbn [pointerTargetX pointerTargetY pointerStrengthTarget
       pointerVelocityTargetX pointerVelocityTargetY pointerX pointerY
       pointerStrength foregroundData withPointerTargets].
  assert (Hrx : 0 ≤ clientX / viewportWidth s ∧ clientX / viewportWidth s ≤ 1).
  { split; [apply Qcdiv_ge_iff | apply Qcdiv_le_iff]; try done; qc_lra. }
  assert (Hry : 0 ≤ clientY / viewportHeight s
                ∧ clientY / viewportHeight s ≤ 1).
  { split; [apply Qcdiv_ge_iff | apply Qcdiv_le_iff]; try done; qc_lra. }
  destruct Hrx, Hry.
  set (rx := clientX / viewportWidth s) in *.
  set (ry := clientY / viewportHeight s) in *.
  split_and!; try reflexivity; qc_lra.
Qed.

Lemma onPointerMove_in_range_witness :
  let s' := onPointerMove #160 #480 demoSim in
  pointerTargetX s' = - #0.5 ∧ pointerTargetY s' = 1
  ∧ (- 1 ≤ pointerTargetX s' ∧ pointerTargetX s' ≤ 1)
  ∧ (- 1 ≤ pointerTargetY s' ∧ pointerTargetY s' ≤ 1).
Proof.
  cbv zeta.
  pose proof (onPointerMove_in_range #160 #480 demoSim
                ltac:(by vm_compute) ltac:(by vm_compute)
                ltac:(by vm_compute) ltac:(by vm_compute)
                ltac:(by vm_compute) ltac:(by vm_compute))
    as (Hx & Hy & _).
  split; [apply Qc_is_canon; by vm_compute|].
  split; [apply Qc_is_canon; by vm_compute|].
  split; assumption.
Defined.

(** ** The steps of the quality controller *)

Section QualityStepProperties.
Context `{Host}.

Lemma Math_sign_cases (v : num) :
  (0 < v ∧ Math_sign v = 1) ∨ (v < 0 ∧ Math_sign v = - 1)
  ∨ (v = 0 ∧ Math_sign v = 0).
Proof.
  unfold Math_sign. repeat case_decide; [by left | right; by left |].
  right. right. split; [qc_lra | done].
Qed.

(** X11: a frame changes the quality scale by a step of 0.08 at most (here
    the scale is within its bounds before the frame; the bound is stated as
    0.0801, which leaves room for the rounding of the sum in the doubles of
    the source); and a frame that does change it ends right there: it moves
    no particle, leaves the displayed glyphs and offsets, the retarget
    scalars and the pointer as they were, and sets the next evaluation 3.2
    seconds ahead. *)
Theorem quality_step_is_small (f : Frame) (s : Sim) :
  inQualityRange (qualityScale s) →
  match animate f s with
  | Done s' =>
      (- #0.0801 ≤ qualityScale s' - qualityScale s
       ∧ qualityScale s' - qualityScale s ≤ #0.0801)
      ∧ (qualityScale s' ≠ qualityScale s →
         foregroundData s' = foregroundData s
         ∧ glyphs s' = glyphs s ∧ offsets s' = offsets s
         ∧ retargetMorph s' = retargetMorph s
         ∧ retargetExcite s' = retargetExcite s
         ∧ samePointer s s'
         ∧ qualityEvalAt s' = elapsedTime f + #3.2)
  | _ => True
  end.
Proof.
  intros [Hlow Hhigh].
  assert (Hsame : ∀ q : Qc, - #0.0801 ≤ q - q ∧ q - q ≤ #0.0801)
    by (intros q; split; qc_lra).
  unfold animate. destruct (disposed s); [by split|].
  cbv zeta. repeat case_decide.
  - cbn [qualityScale withQuality].
    split; [|intros _; by repeat split].
    set (q := qualityScale s) in *.
    set (target := targetQualityOf _ _) in *. clearbody target q.
    destruct (Math_sign_cases (target - q)) as [[_ ->]|[[_ ->]|[_ ->]]];
      unfold Math_max, Math_min; repeat case_decide; split; qc_lra.
  - destruct (animateField f _) as [s'| |] eqn:Hfield; [|done..].
    apply animateField_quality in Hfield.
    cbn [qualityScale withQuality] in Hfield. rewrite Hfield.
    split; [apply Hsame | done].
  - destruct (animateField f _) as [s'| |] eqn:Hfield; [|done..].
    apply animateField_quality in Hfield.
    cbn [qualityScale withQuality] in Hfield. rewrite Hfield.
    split; [apply Hsame | done].
Qed.

End QualityStepProperties.

(** Witness of X11: the first frame of the demo field (device pixel ratio 2,
    quality scale 1) steps the quality scale. *)
Lemma quality_step_is_small_witness :
  inQualityRange (qualityScale demoSim)
  ∧ match animate (H := demoHost) demoFrame demoSim with
    | Done s' =>
        (- #0.0801 ≤ qualityScale s' - qualityScale demoSim
         ∧ qualityScale s' - qualityScale demoSim ≤ #0.0801)
        ∧ (qualityScale s' ≠ qualityScale demoSim →
           foregroundData s' = foregroundData demoSim
           ∧ glyphs s' = glyphs demoSim ∧ offsets s' = offsets demoSim
           ∧ retargetMorph s' = retargetMorph demoSim
           ∧ retargetExcite s' = retargetExcite demoSim
           ∧ samePointer demoSim s'
           ∧ qualityEvalAt s' = elapsedTime demoFrame + #3.2)
    | _ => True
    end.
Proof.
  assert (Hrange : inQualityRange (qualityScale demoSim))
    by (split; by vm_compute).
  split; [done|].
  apply (quality_step_is_small (H := demoHost) demoFrame demoSim Hrange).
Defined.

(** ** Frames on a well-formed field *)

(** A loop whose iterations end normally and keep an invariant ends normally
    and keeps it. *)
Lemma forEach_total {A : Type} (Inv : A → Prop) (body : A → nat → result A)
    (indices : list nat) (a : A) :
  (∀ a i, Inv a → i ∈ indices → ∃ a', body a i = Done a' ∧ Inv a') →
  Inv a → ∃ a', forEach body indices a = Done a' ∧ Inv a'.
Proof.
  revert a. induction indices as [|i indices IH]; intros a Hbody Ha; simpl.
  - by exists a.
  - destruct (Hbody a i Ha) as (a1 & Hstep & Ha1); [apply elem_of_cons; by left|].
    rewrite Hstep. simpl. apply IH; [|done].
    intros a2 j Ha2 Hj. apply Hbody; [done|]. apply elem_of_cons. by right.
Qed.

Section FrameProperties.
Context `{Host}.

Lemma sameFixedArrays_refl (d : ForegroundData.t) : sameFixedArrays d d.
Proof. by repeat split. Qed.

Lemma sameFixedArrays_trans (d0 d d' : ForegroundData.t) :
  sameFixedArrays d0 d → sameFixedArrays d d' → sameFixedArrays d0 d'.
Proof.
  intros (a1 & a2 & a3 & a4 & a5 & a6 & a7 & a8 & a9)
         (b1 & b2 & b3 & b4 & b5 & b6 & b7 & b8 & b9).
  unfold sameFixedArrays.
  rewrite b1, b2, b3, b4, b5, b6, b7, b8, b9.
  split_and!; assumption.
Qed.

Lemma sameScene_refl (s : Sim) : sameScene s s.
Proof. by repeat split. Qed.

Lemma sameScene_trans (s0 s s' : Sim) :
  sameScene s0 s → sameScene s s' → sameScene s0 s'.
Proof.
  intros (a1 & a2 & a3 & a4 & a5 & a6 & a7 & a8 & a9 & a10)
         (b1 & b2 & b3 & b4 & b5 & b6 & b7 & b8 & b9 & b10).
  unfold sameScene.
  rewrite b1, b2, b3, b4, b5, b6, b7, b8, b9, b10.
  split_and!; assumption.
Qed.

Lemma readParticle_wf (d : ForegroundData.t) (i : nat) :
  ForegroundData.wf d → (i < ForegroundData.count d)%nat →
  ∃ p, readParticle d i = Done p.
Proof.
  intros (Hhx & Hhy & Hpx & Hpy & Hvx & Hvy & Hseed & Htx & Hty & _) Hi.
  unfold readParticle.
  destruct (readCell_lt (ForegroundData.seed d) i) as (? & _ & ->); [lia|].
  destruct (readCell_lt (ForegroundData.homeX d) i) as (? & _ & ->); [lia|].
  destruct (readCell_lt (ForegroundData.homeY d) i) as (? & _ & ->); [lia|].
  destruct (readCell_lt (ForegroundData.targetX d) i) as (? & _ & ->); [lia|].
  destruct (readCell_lt (ForegroundData.targetY d) i) as (? & _ & ->); [lia|].
  destruct (readCell_lt (ForegroundData.velX d) i) as (? & _ & ->); [lia|].
  destruct (readCell_lt (ForegroundData.velY d) i) as (? & _ & ->); [lia|].
  destruct (readCell_lt (ForegroundData.posX d) i) as (? & _ & ->); [lia|].
  destruct (readCell_lt (ForegroundData.posY d) i) as (? & _ & ->); [lia|].
  cbn [mbind result_bind mret result_ret]. eauto.
Qed.

(** The stores of one iteration of the particle loop, on a well-formed
    field. *)
Lemma writeParticle_wf (s : Sim) (i : nat) (next : Stepped.t) :
  ForegroundData.wf (foregroundData s) →
  (i < ForegroundData.count (foregroundData s))%nat →
  ∃ glyph,
    writeParticle s i next
    = Done (withParticles
              (ForegroundData.withMotion
                 (<[i := Stepped.posX next]>
                    (ForegroundData.posX (foregroundData s)))
                 (<[i := Stepped.posY next]>
                    (ForegroundData.posY (foregroundData s)))
                 (<[i := Stepped.velX next]>
                    (ForegroundData.velX (foregroundData s)))
                 (<[i := Stepped.velY next]>
                    (ForegroundData.velY (foregroundData s)))
                 (foregroundData s))
              (<[i := glyph]> (glyphs s))
              (<[(i * 2 + 1)%nat := Stepped.posY next]>
                 (<[(i * 2)%nat := Stepped.posX next]> (offsets s)))
              s).
Proof.
  intros Hwf Hi. unfold writeParticle. cbv zeta.
  pose proof Hwf as (_ & _ & _ & _ & _ & _ & _ & _ & _ & Hbase & Htarget & _).
  destruct (readCell_lt
              (if Stepped.showTarget next
               then ForegroundData.targetGlyph (foregroundData s)
               else ForegroundData.baseGlyph (foregroundData s)) i)
    as (glyph & _ & ->); [destruct (Stepped.showTarget next); lia|].
  by exists glyph.
Qed.

Lemma withMotion_wf i px py vx vy (d : ForegroundData.t) :
  ForegroundData.wf d →
  ForegroundData.wf
    (ForegroundData.withMotion
       (<[i := px]> (ForegroundData.posX d))
       (<[i := py]> (ForegroundData.posY d))
       (<[i := vx]> (ForegroundData.velX d))
       (<[i := vy]> (ForegroundData.velY d)) d).
Proof.
  unfold ForegroundData.wf. simpl. rewrite !length_insert. done.
Qed.

(** One iteration of the particle loop on a well-formed field. *)
Lemma animateParticle_wf (f : Frame) (s : Sim) (i : nat) :
  ForegroundData.wf (foregroundData s) →
  (i < ForegroundData.count (foregroundData s))%nat →
  ∃ s', animateParticle f s i = Done s'
    ∧ ForegroundData.wf (foregroundData s')
    ∧ sameFixedArrays (foregroundData s) (foregroundData s')
    ∧ sameScene s s'.
Proof.
  intros Hwf Hi. unfold animateParticle.
  destruct (readParticle_wf _ _ Hwf Hi) as (p & ->).
  cbn [mbind result_bind].
  destruct (writeParticle_wf s i (integrate f s p) Hwf Hi) as (glyph & ->).
  eexists. split; [done|].
  cbn [foregroundData withParticles].
  split; [by apply withMotion_wf|].
  split; by repeat split.
Qed.

Lemma animateField_wf (f : Frame) (s : Sim) :
  ForegroundData.wf (foregroundData s) →
  ∃ s', animateField f s = Done s'
    ∧ ForegroundData.wf (foregroundData s')
    ∧ sameFixedArrays (foregroundData s) (foregroundData s')
    ∧ sameScene s s'.
Proof.
  intros Hwf. unfold animateField. cbv zeta.
  assert (Hscalars : sameScene s (animateScalars f s)) by (by repeat split).
  assert (Hdata : foregroundData (animateScalars f s) = foregroundData s)
    by reflexivity.
  set (s1 := animateScalars f s) in *. clearbody s1.
  case_match.
  - destruct (forEach_total
                (λ a, ForegroundData.wf (foregroundData a)
                      ∧ sameFixedArrays (foregroundData s) (foregroundData a)
                      ∧ sameScene s a)
                (animateParticle f)
                (seq 0 (ForegroundData.count (foregroundData s1))) s1)
      as (s' & Hloop & Hinv).
    + intros a i (Hwfa & Hfixed & Hscene) Hi%elem_of_seq.
      destruct (animateParticle_wf f a i Hwfa) as (a' & Hstep & ? & ? & ?).
      { destruct Hfixed as [-> _]. rewrite <-Hdata. lia. }
      exists a'. split; [done|]. split; [done|].
      split; [by eapply sameFixedArrays_trans | by eapply sameScene_trans].
    + rewrite Hdata. split; [done|].
      split; [apply sameFixedArrays_refl | done].
    + by exists s'.
  - exists s1. rewrite Hdata. split; [done|]. split; [done|].
    split; [apply sameFixedArrays_refl | done].
Qed.

Lemma animate_wf (f : Frame) (s : Sim) :
  ForegroundData.wf (foregroundData s) →
  ∃ s', animate f s = Done s'
    ∧ ForegroundData.wf (foregroundData s')
    ∧ sameFixedArrays (foregroundData s) (foregroundData s')
    ∧ sameScene s s'.
Proof.
  intros Hwf. unfold animate.
  destruct (disposed s) eqn:Hdisposed.
  { exists s. split; [done|]. split; [done|].
    split; [apply sameFixedArrays_refl | apply sameScene_refl]. }
  cbv zeta. repeat case_decide.
  - eexists. split; [done|]. cbn [foregroundData withQuality].
    split; [done|]. split; [apply sameFixedArrays_refl | by repeat split].
  - apply (animateField_wf f (withQuality _ _ _ s)). done.
  - apply (animateField_wf f (withQuality _ _ _ s)). done.
Qed.

(** X12: a frame on a well-formed field ends normally (no array is read past
    its end), leaves the field well formed, and writes only positions,
    velocities, displayed glyphs and offsets: the count, the homes, seeds and
    base glyphs, the targets with their glyphs and slots, the target list and
    its count, the word, the fonts, the viewport and the lattice step are
    after the frame what they were before. *)
Theorem animate_keeps_scene (f : Frame) (s : Sim) :
  ForegroundData.wf (foregroundData s) →
  ∃ s', animate f s = Done s'
    ∧ ForegroundData.wf (foregroundData s')
    ∧ sameFixedArrays (foregroundData s) (foregroundData s')
    ∧ sameScene s s'.
Proof. apply animate_wf. Qed.

(** A word change on a well-formed field ends normally and leaves it well
    formed, with the particles where they were. *)
Lemma retargetWord_wf (word : option jsstring) (s : Sim) :
  ForegroundData.wf (foregroundData s) →
  ∃ s', retargetWord word s = Done s'
    ∧ ForegroundData.wf (foregroundData s')
    ∧ sameParticles (foregroundData s) (foregroundData s')
    ∧ offsets s' = offsets s.
Proof.
  intros Hwf. unfold retargetWord. case_match.
  - exists s. split_and!; [done | done | apply sameParticles_refl | done].
  - set (s1 := withWord _ _ _ s).
    destruct (assignForegroundTargets_loop true s1 ForegroundData.wf
                (λ _ _, True))
      as (d' & Hdone & Hwf' & Hsame & _); [|done|].
    { intros d i Hd Hsamed Hi.
      destruct (foregroundTargets s1) as [|t0 ts] eqn:Hts.
      - destruct (assignParticle_empty true (targetCount s1) d i Hd Hi)
          as (hx & hy & bg & _ & _ & _ & ->).
        eexists. split; [done|].
        split; [by apply withTargets_wf|]. split; [done|]. split; [|done].
        intros j Hj. by apply withTargets_cells_ne.
      - destruct (assignParticle_nonempty true (t0 :: ts) (targetCount s1) d i)
          as (target & _ & _ & ->); [done|].
        eexists. split; [done|].
        split; [by apply withTargets_wf|]. split; [done|]. split; [|done].
        intros j Hj. by apply withTargets_cells_ne. }
    rewrite Hdone. simpl. eexists. split; [done|]. simpl.
    split_and!; done.
Qed.

Lemma handle_wf (e : Event) (s : Sim) :
  ForegroundData.wf (foregroundData s) → endsWellFormed (handle e s).
Proof.
  intros Hwf. destruct e as [f|cx cy| |word]; simpl.
  - destruct (animate_wf f s Hwf) as (s' & -> & ? & _). by exists s'.
  - by eexists.
  - by eexists.
  - destruct (retargetWord_wf (Some (normalizeWord word)) s Hwf)
      as (s' & -> & ? & _).
    by exists s'.
Qed.

(** X13: a run from a well-formed field never fails: whatever the frames,
    pointer events and word changes, every event ends normally, in a state
    whose field is well formed (so no particle loop reads a cell that does
    not exist and no target assignment reads a point that does not
    exist). *)
Theorem runs_never_fail (events : list Event) (s : Sim) :
  ForegroundData.wf (foregroundData s) →
  length (trace events s) = length events
  ∧ Forall endsWellFormed (trace events s).
Proof.
  revert s. induction events as [|e events IH]; intros s Hwf; simpl; [done|].
  destruct (handle_wf e s Hwf) as (s' & -> & Hwf').
  destruct (IH s' Hwf') as [Hlength Hall].
  cbn [length]. split; [by rewrite Hlength|].
  constructor; [by exists s' | done].
Qed.

End FrameProperties.

(** Witness of X12: a frame of the demo field that integrates the particles
    (their positions are not what they were). *)
Lemma animate_keeps_scene_witness :
  match animate (H := demoHost) demoEarlyFrame demoSim with
  | Done s' =>
      ForegroundData.posX (foregroundData s')
      ≠ ForegroundData.posX (foregroundData demoSim)
  | _ => False
  end
  ∧ ∃ s', animate (H := demoHost) demoEarlyFrame demoSim = Done s'
      ∧ ForegroundData.wf (foregroundData s')
      ∧ sameFixedArrays (foregroundData demoSim) (foregroundData s')
      ∧ sameScene demoSim s'.
Proof.
  split; [by vm_compute|].
  apply (animate_keeps_scene (H := demoHost) demoEarlyFrame demoSim).
  by repeat split.
Defined.

(** Witness of X13: the demo run. *)
Lemma runs_never_fail_witness :
  length (trace (H := demoHost) demoRun demoSim) = length demoRun
  ∧ Forall endsWellFormed (trace (H := demoHost) demoRun demoSim).
Proof.
  apply (runs_never_fail (H := demoHost) demoRun demoSim).
  by repeat split.
Defined.

(** ** The offsets shown follow the positions *)

Section MirrorProperties.
Context `{Host}.

Lemma animateParticle_mirror (f : Frame) (s : Sim) (i : nat) :
  ForegroundData.wf (foregroundData s) → offsetsMirror s →
  (i < ForegroundData.count (foregroundData s))%nat →
  ∃ s', animateParticle f s i = Done s'
    ∧ ForegroundData.wf (foregroundData s') ∧ offsetsMirror s'
    ∧ ForegroundData.count (foregroundData s')
      = ForegroundData.count (foregroundData s).
Proof.
  intros Hwf [Hlength Hmirror] Hi. unfold animateParticle.
  destruct (readParticle_wf _ _ Hwf Hi) as (p & ->).
  cbn [mbind result_bind].
  destruct (writeParticle_wf s i (integrate f s p) Hwf Hi) as (glyph & ->).
  set (next := integrate f s p). clearbody next.
  eexists. split; [done|].
  cbn [foregroundData withParticles].
  split; [by apply withMotion_wf|]. split; [|done].
  pose proof Hwf as (_ & _ & Hpx & Hpy & _).
  unfold offsetsMirror.
  cbn [foregroundData offsets withParticles ForegroundData.count
       ForegroundData.posX ForegroundData.posY ForegroundData.withMotion].
  split; [by rewrite !length_insert|].
  intros j Hj. destruct (decide (j = i)) as [->|Hne].
  - rewrite list_lookup_insert_ne by lia.
    rewrite !list_lookup_insert_eq by (rewrite ?length_insert; lia).
    done.
  - rewrite !list_lookup_insert_ne by lia. by apply Hmirror.
Qed.

Lemma animateField_mirror (f : Frame) (s : Sim) :
  ForegroundData.wf (foregroundData s) → offsetsMirror s →
  ∃ s', animateField f s = Done s'
    ∧ ForegroundData.wf (foregroundData s') ∧ offsetsMirror s'.
Proof.
  intros Hwf Hmirror. unfold animateField. cbv zeta.
  assert (Hdata : foregroundData (animateScalars f s) = foregroundData s)
    by reflexivity.
  assert (Hoffsets : offsets (animateScalars f s) = offsets s) by reflexivity.
  set (s1 := animateScalars f s) in *. clearbody s1.
  assert (Hmirror1 : offsetsMirror s1)
    by (unfold offsetsMirror; by rewrite Hdata, Hoffsets).
  rewrite <-Hdata in Hwf.
  case_match; [|by exists s1].
  destruct (forEach_total
              (λ a, ForegroundData.wf (foregroundData a) ∧ offsetsMirror a
                    ∧ ForegroundData.count (foregroundData a)
                      = ForegroundData.count (foregroundData s1))
              (animateParticle f)
              (seq 0 (ForegroundData.count (foregroundData s1))) s1)
    as (s' & Hloop & Hwf' & Hmirror' & _); [|done|by exists s'].
  intros a i (Hwfa & Hmirrora & Hcount) Hi%elem_of_seq.
  destruct (animateParticle_mirror f a i Hwfa Hmirrora)
    as (a' & Hstep & ? & ? & Hcount'); [lia|].
  exists a'. split; [done|]. split; [done|]. split; [done|].
  by rewrite Hcount'.
Qed.

Lemma animate_mirror (f : Frame) (s : Sim) :
  ForegroundData.wf (foregroundData s) → offsetsMirror s →
  ∃ s', animate f s = Done s'
    ∧ ForegroundData.wf (foregroundData s') ∧ offsetsMirror s'.
Proof.
  intros Hwf Hmirror. unfold animate.
  destruct (disposed s); [by exists s|].
  cbv zeta. repeat case_decide.
  - eexists. split; [done|]. by split.
  - by apply (animateField_mirror f (withQuality _ _ _ s)).
  - by apply (animateField_mirror f (withQuality _ _ _ s)).
Qed.

Lemma handle_mirror (e : Event) (s : Sim) :
  ForegroundData.wf (foregroundData s) → offsetsMirror s →
  ∃ s', handle e s = Done s'
    ∧ ForegroundData.wf (foregroundData s') ∧ offsetsMirror s'.
Proof.
  intros Hwf Hmirror. destruct e as [f|cx cy| |word]; simpl.
  - by apply animate_mirror.
  - by eexists.
  - by eexists.
  - destruct (retargetWord_wf (Some (normalizeWord word)) s Hwf)
      as (s' & -> & Hwf' & Hsame & Hoffsets).
    exists s'. split; [done|]. split; [done|].
    destruct Hsame as (Hcount & _ & _ & Hpx & Hpy & _).
    unfold offsetsMirror. by rewrite Hoffsets, Hcount, Hpx, Hpy.
Qed.

(** X14: the array of offsets that the renderer draws from follows the
    positions of the simulation.  From a well-formed field whose offsets
    hold the positions ([offsets[2 i] = posX[i]], [offsets[2 i + 1] =
    posY[i]], as the build leaves them), this is so after every event of
    every run of frames, pointer events and word changes. *)
Theorem offsets_follow_positions (events : list Event) (s : Sim) :
  ForegroundData.wf (foregroundData s) → offsetsMirror s →
  Forall offsetsMirrorAfter (trace events s).
Proof.
  revert s. induction events as [|e events IH]; intros s Hwf Hmirror; simpl;
    [done|].
  destruct (handle_mirror e s Hwf Hmirror) as (s' & -> & Hwf' & Hmirror').
  constructor; [done | by apply IH].
Qed.

End MirrorProperties.

(** Witness of X14: the demo run. *)
Lemma offsets_follow_positions_witness :
  offsetsMirror demoSim
  ∧ Forall offsetsMirrorAfter (trace (H := demoHost) demoRun demoSim).
Proof.
  assert (Hmirror : offsetsMirror demoSim).
  { split; [reflexivity|]. intros i Hi. simpl in Hi.
    destruct i as [|[|[|i]]]; [by split..|lia]. }
  split; [done|].
  apply (offsets_follow_positions (H := demoHost) demoRun demoSim);
    [by repeat split | done].
Defined.

(** ** The motion settings *)

Section MotionProperties.
Context `{Host}.

Lemma clampReal_range (lo hi : num) (raw : realnumber) :
  lo ≤ hi → lo ≤ clampReal lo hi raw ∧ clampReal lo hi raw ≤ hi.
Proof.
  intros Hlohi. destruct raw as [[]|q]; simpl.
  - split; [done | done].
  - split; [apply Math_max_l | by apply Math_max_lub].
  - by apply clamp_between.
Qed.

Lemma motionSetting_range (v : jsval) : inMotionRange (motionSetting v).
Proof. unfold motionSetting. apply clampReal_range. by vm_compute. Qed.

(** X15: the effect on the motion settings ends normally for every value
    that is neither [undefined] nor [null]; each of the four settings it
    stores lies in [[0.5, 1.6]]; a setting that is missing, zero or not a
    number becomes 1, and a finite number other than 0 is clamped. *)
Theorem motion_settings_clamped (motionSettings : jsval) :
  match motionEffect motionSettings with
  | Done m =>
      inMotionRange (Motion.flow m) ∧ inMotionRange (Motion.drag m)
      ∧ inMotionRange (Motion.camera m) ∧ inMotionRange (Motion.settle m)
  | _ => motionSettings = VUndefined ∨ motionSettings = VNull
  end
  ∧ motionSetting VUndefined = 1
  ∧ motionSetting (VNumber JNaN) = 1
  ∧ motionSetting (VNumber (JFinite 0)) = 1
  ∧ (∀ q, q ≠ 0 →
       motionSetting (VNumber (JFinite q)) = Math_max #0.5 (Math_min #1.6 q)).
Proof.
  split_and!.
  - destruct motionSettings; simpl; auto;
      split_and!; apply motionSetting_range.
  - apply Qc_is_canon. by vm_compute.
  - apply Qc_is_canon. by vm_compute.
  - apply Qc_is_canon. by vm_compute.
  - intros q Hq. unfold motionSetting, numberOrOne. simpl.
    by rewrite decide_False.
Qed.

(** X16: a value that the application has clamped with [clampMotion] passes
    through the effect of the component unchanged. *)
Theorem motion_clamp_composes (value : jsval) :
  inMotionRange (App.clampMotion value)
  ∧ motionSetting (VNumber (JFinite (App.clampMotion value)))
    = App.clampMotion value.
Proof.
  assert (Hrange : inMotionRange (App.clampMotion value)).
  { unfold App.clampMotion, App.clampOr.
    destruct (ToNumber value); [split; by vm_compute..|].
    apply clamp_between. by vm_compute. }
  split; [done|].
  destruct Hrange as [Hlow Hhigh].
  set (x := App.clampMotion value) in *. clearbody x.
  unfold motionSetting, numberOrOne. simpl.
  rewrite decide_False by (intros ->; by vm_compute in Hlow).
  simpl. by apply clamp_id.
Qed.

End MotionProperties.

(** ** The strengths of the modes, from the application to the component *)

Section StrengthComposition.
Context `{Host}.

Lemma App_normalizeModeStrengths_lookup (value : jsval)
    (fallback : string → jsval) (id : string) :
  App.normalizeModeStrengths value fallback !! id
  = if decide (id ∈ INTERACTION_MODE_IDS)
    then Some (App.clampModeStrength
                 (App.orElse
                    (App.orElse (strengthSource value id) (fallback id))
                    (VNumber (JFinite 1))))
    else None.
Proof.
  unfold App.normalizeModeStrengths. cbv zeta.
  rewrite (foldl_insert_lookup
             (λ k, App.clampModeStrength
                     (App.orElse
                        (App.orElse (strengthSource value k) (fallback k))
                        (VNumber (JFinite 1))))).
  by case_decide.
Qed.

Lemma App_clampModeStrength_range (value : jsval) :
  inStrengthRange (App.clampModeStrength value).
Proof.
  unfold App.clampModeStrength, App.clampOr.
  destruct (ToNumber value); [split; by vm_compute..|].
  apply clamp_between. by vm_compute.
Qed.

(** X17: the map of strengths that the application normalises has the six
    mode ids as keys and values in [[0.4, 1.8]], and the component's own
    normalisation of that map, passed as the prop [modeStrengths], gives the
    same map back: the component never alters a strength the application has
    set. *)
Theorem strengths_pass_unchanged (value : jsval) (fallback : string → jsval) :
  let strengths := App.normalizeModeStrengths value fallback in
  dom strengths = list_to_set INTERACTION_MODE_IDS
  ∧ (∀ id v, strengths !! id = Some v → inStrengthRange v)
  ∧ normalizeModeStrengths (strengthsObject strengths) = strengths.
Proof.
  cbv zeta. split_and!.
  - apply set_eq. intros id.
    rewrite elem_of_dom, App_normalizeModeStrengths_lookup,
      elem_of_list_to_set.
    case_decide; [by split; [|eauto] | split; [by intros [? ?]|done]].
  - intros id v Hv. rewrite App_normalizeModeStrengths_lookup in Hv.
    case_decide; [|done]. simplify_eq. apply App_clampModeStrength_range.
  - apply map_eq. intros id.
    rewrite normalizeModeStrengths_lookup, App_normalizeModeStrengths_lookup.
    case_decide as Hid; [|done]. f_equal.
    unfold strengthsObject, strengthSource.
    rewrite App_normalizeModeStrengths_lookup, decide_True by done.
    simpl.
    destruct (App_clampModeStrength_range
                (App.orElse
                   (App.orElse (strengthSource value id) (fallback id))
                   (VNumber (JFinite 1)))).
    by apply clamp_id.
Qed.

End StrengthComposition.

(** ** The word, from the application to the component *)

Section SanitizeProperties.
Context `{Host}.

Lemma startsWithSpace_take (n : nat) (s : jsstring) :
  startsWithSpace s = false → startsWithSpace (take n s) = false.
Proof. destruct s, n; simpl; done. Qed.

Lemma startsWithSpace_head (s : jsstring) :
  startsWithSpace s = false → head s ≠ Some 32%N.
Proof. destruct s as [|c s]; simpl; [done|]. by intros Hc [= ->]. Qed.

Lemma sanitizeWord_parts (value : jsstring) :
  let word := App.sanitizeWord value in
  (length word ≤ 18)%nat
  ∧ Forall (λ c, isWordUnit c = true) word
  ∧ noSpaceRun word = true
  ∧ startsWithSpace word = false.
Proof.
  cbv zeta. unfold App.sanitizeWord.
  set (u := collapseRuns false (removeOtherUnits (toUpperCase value))).
  assert (Hu : Forall (λ c, isWordUnit c = true) u).
  { apply collapseRuns_units, Forall_forall.
    intros c Hc. unfold removeOtherUnits in Hc.
    by apply list_elem_of_filter in Hc as [? _]. }
  pose proof (collapseRuns_noSpaceRun false
                (removeOtherUnits (toUpperCase value))) as Hrun.
  fold u in Hrun.
  destruct (trimStart_suffix u) as [d Hd].
  rewrite Hd in Hu, Hrun.
  apply Forall_app in Hu as [_ Hu]. apply noSpaceRun_app_r in Hrun.
  rewrite <-(take_drop 18 (trimStart u)) in Hu, Hrun.
  apply Forall_app in Hu as [Hu _]. apply noSpaceRun_app_l in Hrun.
  split_and!; [|done|done|].
  - rewrite length_take. lia.
  - apply startsWithSpace_take, trimStart_starts.
Qed.

(** X18: for every input, the word that [sanitizeWord] of the application
    returns has at most 18 units, all of them upper-case letters, digits or
    spaces, no two neighbouring spaces and no space at its start. *)
Theorem sanitizeWord_shape (value : jsstring) :
  let word := App.sanitizeWord value in
  (length word ≤ 18)%nat
  ∧ Forall (λ c, isWordUnit c = true) word
  ∧ noSpaceRun word = true
  ∧ head word ≠ Some 32%N.
Proof.
  destruct (sanitizeWord_parts value) as (Hlength & Hunits & Hrun & Hstart).
  cbv zeta. split_and!; [done..|]. by apply startsWithSpace_head.
Qed.

Lemma wordUnit_space (c : N) :
  isWordUnit c = true → isWhiteSpace c = true → c = 32%N.
Proof.
  unfold isWordUnit, isWhiteSpace.
  rewrite !orb_true_iff, !andb_true_iff, !N.leb_le, !N.eqb_eq. lia.
Qed.

Lemma removeOtherUnits_fixed (s : jsstring) :
  Forall (λ c, isWordUnit c = true) s → removeOtherUnits s = s.
Proof.
  unfold removeOtherUnits. induction 1 as [|c s Hc Hs IH]; [done|].
  cbn [filter list_filter]. rewrite decide_True by done. f_equal. exact IH.
Qed.

Lemma collapseRuns_fixed (inRun : bool) (s : jsstring) :
  Forall (λ c, isWordUnit c = true) s → noSpaceRun s = true →
  (inRun = true → startsWithSpace s = false) →
  collapseRuns inRun s = s.
Proof.
  intros Hs. revert inRun.
  induction Hs as [|c s Hc Hs IH]; intros inRun Hrun Hstart; [done|].
  rewrite noSpaceRun_cons in Hrun.
  apply andb_true_iff in Hrun as [Hpair Hrun].
  simpl. destruct (isWhiteSpace c) eqn:Hspace.
  - rewrite (wordUnit_space c Hc Hspace) in *.
    destruct inRun; [by specialize (Hstart eq_refl)|].
    rewrite IH; [done | done |].
    intros _. simpl in Hpair. by apply negb_true_iff in Hpair.
  - by rewrite IH.
Qed.

Lemma trimStart_fixed (s : jsstring) :
  startsWithSpace s = false → trimStart s = s.
Proof. destruct s as [|c s]; simpl; [done|]. by intros ->. Qed.

Lemma trimEnd_length (s : jsstring) : (length (trimEnd s) ≤ length s)%nat.
Proof.
  destruct (trimEnd_prefix s) as [e He]. rewrite He at 2.
  rewrite length_app. lia.
Qed.

(** A sanitised word goes through the first three steps of both
    normalisations unchanged. *)
Lemma sanitized_fixed (word : jsstring) :
  upperFixesWords →
  Forall (λ c, isWordUnit c = true) word → noSpaceRun word = true →
  startsWithSpace word = false →
  trimStart (collapseRuns false (removeOtherUnits (toUpperCase word))) = word.
Proof.
  intros Hupper Hunits Hrun Hstart.
  rewrite (Hupper word Hunits), removeOtherUnits_fixed by done.
  rewrite collapseRuns_fixed by done. by apply trimStart_fixed.
Qed.

(** X19: the word that reaches the component through the application is at
    most 18 units long after the component's own normalisation: for a
    sanitised word the normalisation only removes a space at the end (or
    puts GEIST for an empty word).  Here [toUpperCase] leaves upper-case
    words as they are. *)
Theorem sanitized_word_fits (value : jsstring) :
  upperFixesWords →
  let word := App.sanitizeWord value in
  (length (normalizeWord (Some word)) ≤ 18)%nat
  ∧ (trimEnd word ≠ [] → normalizeWord (Some word) = trimEnd word)
  ∧ (trimEnd word = [] → normalizeWord (Some word) = js "GEIST").
Proof.
  intros Hupper. cbv zeta.
  destruct (sanitizeWord_parts value) as (Hlength & Hunits & Hrun & Hstart).
  set (word := App.sanitizeWord value) in *. clearbody word.
  assert (Hgeist : trim (collapseRuns false (removeOtherUnits
                           (toUpperCase (js "GEIST")))) = js "GEIST").
  { rewrite (Hupper (js "GEIST")) by (by repeat constructor). reflexivity. }
  assert (Hword : word ≠ [] →
            trim (collapseRuns false (removeOtherUnits
                    (toUpperCase (orGeist (Some word))))) = trimEnd word).
  { intros Hne. destruct word as [|c rest]; [done|]. unfold trim, orGeist.
    by rewrite sanitized_fixed. }
  unfold normalizeWord. cbv zeta.
  destruct word as [|c rest] eqn:Hshape.
  - unfold orGeist. rewrite Hgeist. simpl. split_and!; [lia | done | done].
  - rewrite Hword by done.
    pose proof (trimEnd_length (c :: rest)) as Htrim.
    destruct (trimEnd (c :: rest)) as [|c' rest'] eqn:Hend.
    + simpl. split_and!; [lia | done | done].
    + cbn [length Nat.ltb Nat.leb] in *. split_and!; [lia | done | done].
Qed.

(** X20: sanitising a sanitised word changes nothing (the input field of
    the application sanitises on every change and again on submit). *)
Theorem sanitizeWord_idempotent (value : jsstring) :
  upperFixesWords →
  App.sanitizeWord (App.sanitizeWord value) = App.sanitizeWord value.
Proof.
  intros Hupper.
  destruct (sanitizeWord_parts value) as (Hlength & Hunits & Hrun & Hstart).
  set (word := App.sanitizeWord value) in *. clearbody word.
  unfold App.sanitizeWord. rewrite sanitized_fixed by done.
  by apply take_ge.
Qed.

End SanitizeProperties.

Lemma demoHost_upperFixesWords : upperFixesWords (H := demoHost).
Proof.
  intros s Hs. change (map asciiUpper s = s).
  induction Hs as [|c s Hc Hs IH]; [done|].
  cbn [map]. rewrite IH. f_equal.
  unfold asciiUpper, isWordUnit in *.
  destruct ((97 <=? c)%N && (c <=? 122)%N) eqn:Hlower; [|done].
  revert Hc Hlower.
  rewrite !orb_true_iff, !andb_true_iff, !N.leb_le, !N.eqb_eq. lia.
Qed.

(** Witness of X19: a word of 21 units typed into the application. *)
Lemma sanitized_word_fits_witness :
  App.sanitizeWord (H := demoHost) (js "typographic particles")
  = js "TYPOGRAPHIC PARTIC"
  ∧ (length (normalizeWord (H := demoHost)
               (Some (App.sanitizeWord (H := demoHost)
                        (js "typographic particles")))) ≤ 18)%nat.
Proof.
  split; [reflexivity|].
  apply (sanitized_word_fits (H := demoHost) (js "typographic particles")
           demoHost_upperFixesWords).
Defined.

(** Witness of X20: the same word. *)
Lemma sanitizeWord_idempotent_witness :
  App.sanitizeWord (H := demoHost)
    (App.sanitizeWord (H := demoHost) (js "typographic particles"))
  = js "TYPOGRAPHIC PARTIC".
Proof.
  rewrite (sanitizeWord_idempotent (H := demoHost)
             (js "typographic particles") demoHost_upperFixesWords).
  reflexivity.
Defined.

(** ** The settings of the effects *)

Lemma oneOf_among (names : list string) (fallback : string) (v : jsval) :
  nameAmong names fallback (oneOf names fallback v).
Proof.
  unfold nameAmong, oneOf. rewrite fmap_cons.
  destruct v; try (apply elem_of_cons; by left).
  case_bool_decide; apply elem_of_cons; [by right | by left].
Qed.

Lemma oneOf_fixed (names : list string) (fallback : string) (s : jsstring) :
  nameAmong names fallback s → oneOf names fallback (VString s) = s.
Proof.
  unfold nameAmong, oneOf. rewrite fmap_cons.
  intros [->|Hin]%elem_of_cons; case_bool_decide; done.
Qed.

Lemma clamp_twice (lo hi v : num) :
  lo ≤ hi →
  Math_max lo (Math_min hi (Math_max lo (Math_min hi v)))
  = Math_max lo (Math_min hi v).
Proof.
  intros Hlohi. destruct (clamp_between lo hi v Hlohi). by apply clamp_id.
Qed.

Section EffectSettingsProperties.
Context `{Host}.

(** X21: for every input, the normalised settings of the paper effect and of
    the background mesh are within their bounds (intensity and amount in
    [[0, 1]], speed in [[0.2, 2.2]], dot density in [[0.1, 1]]) and every
    name among them is one of the names the shaders know. *)
Theorem effect_settings_in_range (paperFx backgroundMeshFx : jsval) :
  let p := normalizePaperFx paperFx in
  let b := normalizeBackgroundMeshFx backgroundMeshFx in
  (0 ≤ PaperFx.intensity p ∧ PaperFx.intensity p ≤ 1)
  ∧ (0 ≤ PaperFx.amount p ∧ PaperFx.amount p ≤ 1)
  ∧ (#0.2 ≤ PaperFx.speed p ∧ PaperFx.speed p ≤ #2.2)
  ∧ (#0.1 ≤ PaperFx.dotDensity p ∧ PaperFx.dotDensity p ≤ 1)
  ∧ nameAmong PAPER_EFFECTS "warp" (PaperFx.effect p)
  ∧ nameAmong DOT_SHAPES "circle" (PaperFx.dotShape p)
  ∧ nameAmong GRAIN_SHAPES "corners" (PaperFx.grainShape p)
  ∧ nameAmong PAPER_PALETTES "prism" (PaperFx.palette p)
  ∧ nameAmong MESH_STYLES "letters" (BackgroundMeshFx.style b)
  ∧ (0 ≤ BackgroundMeshFx.amount b ∧ BackgroundMeshFx.amount b ≤ 1)
  ∧ nameAmong DOT_SHAPES "circle" (BackgroundMeshFx.dotShape b)
  ∧ (#0.1 ≤ BackgroundMeshFx.dotDensity b
     ∧ BackgroundMeshFx.dotDensity b ≤ 1)
  ∧ nameAmong GRAIN_SHAPES "corners" (BackgroundMeshFx.grainShape b).
Proof.
  cbv zeta. unfold normalizePaperFx, normalizeBackgroundMeshFx. cbv zeta.
  cbn [PaperFx.intensity PaperFx.amount PaperFx.speed PaperFx.dotDensity
       PaperFx.effect PaperFx.dotShape PaperFx.grainShape PaperFx.palette
       BackgroundMeshFx.style BackgroundMeshFx.amount
       BackgroundMeshFx.dotShape BackgroundMeshFx.dotDensity
       BackgroundMeshFx.grainShape].
  split_and!;
    first [ apply oneOf_among
          | apply Math_max_l
          | apply Math_max_lub; [by vm_compute | apply Math_min_l] ].
Qed.

Lemma numberOr_finite (fallback q : num) :
  numberOr fallback (VNumber (JFinite q)) = q.
Proof. reflexivity. Qed.

Lemma paperFxObject_fields (p : PaperFx.t) :
  let get := strengthSource (paperFxObject p) in
  get "enabled"%string = VBool (PaperFx.enabled p)
  ∧ get "intensity"%string = VNumber (JFinite (PaperFx.intensity p))
  ∧ get "amount"%string = VNumber (JFinite (PaperFx.amount p))
  ∧ get "speed"%string = VNumber (JFinite (PaperFx.speed p))
  ∧ get "effect"%string = VString (PaperFx.effect p)
  ∧ get "dotShape"%string = VString (PaperFx.dotShape p)
  ∧ get "dotDensity"%string = VNumber (JFinite (PaperFx.dotDensity p))
  ∧ get "grainShape"%string = VString (PaperFx.grainShape p)
  ∧ get "palette"%string = VString (PaperFx.palette p).
Proof. cbv zeta. split_and!; reflexivity. Qed.

Lemma backgroundMeshFxObject_fields (b : BackgroundMeshFx.t) :
  let get := strengthSource (backgroundMeshFxObject b) in
  get "style"%string = VString (BackgroundMeshFx.style b)
  ∧ get "amount"%string = VNumber (JFinite (BackgroundMeshFx.amount b))
  ∧ get "dotShape"%string = VString (BackgroundMeshFx.dotShape b)
  ∧ get "dotDensity"%string
    = VNumber (JFinite (BackgroundMeshFx.dotDensity b))
  ∧ get "grainShape"%string = VString (BackgroundMeshFx.grainShape b).
Proof. cbv zeta. split_and!; reflexivity. Qed.

(** X22: normalising normalised settings changes nothing: the settings of
    the paper effect and of the background mesh, passed again as props, are
    normalised to themselves. *)
Theorem effect_settings_idempotent (paperFx backgroundMeshFx : jsval) :
  normalizePaperFx (paperFxObject (normalizePaperFx paperFx))
  = normalizePaperFx paperFx
  ∧ normalizeBackgroundMeshFx
      (backgroundMeshFxObject (normalizeBackgroundMeshFx backgroundMeshFx))
    = normalizeBackgroundMeshFx backgroundMeshFx.
Proof.
  split.
  - set (p := normalizePaperFx paperFx).
    unfold normalizePaperFx at 1. cbv zeta.
    destruct (paperFxObject_fields p)
      as (E1 & E2 & E3 & E4 & E5 & E6 & E7 & E8 & E9).
    rewrite E1, E2, E3, E4, E5, E6, E7, E8, E9.
    rewrite !numberOr_finite.
    subst p. unfold normalizePaperFx. cbv zeta.
    cbn [PaperFx.enabled PaperFx.intensity PaperFx.amount PaperFx.speed
         PaperFx.dotDensity PaperFx.effect PaperFx.dotShape
         PaperFx.grainShape PaperFx.palette].
    rewrite !clamp_twice by (by vm_compute).
    rewrite !oneOf_fixed by apply oneOf_among.
    f_equal. by destruct (strengthSource paperFx "enabled") as [| |[]| | |].
  - set (b := normalizeBackgroundMeshFx backgroundMeshFx).
    unfold normalizeBackgroundMeshFx at 1. cbv zeta.
    destruct (backgroundMeshFxObject_fields b) as (E1 & E2 & E3 & E4 & E5).
    rewrite E1, E2, E3, E4, E5.
    rewrite !numberOr_finite.
    subst b. unfold normalizeBackgroundMeshFx. cbv zeta.
    cbn [BackgroundMeshFx.style BackgroundMeshFx.amount
         BackgroundMeshFx.dotShape BackgroundMeshFx.dotDensity
         BackgroundMeshFx.grainShape].
    rewrite !clamp_twice by (by vm_compute).
    by rewrite !oneOf_fixed by apply oneOf_among.
Qed.

End EffectSettingsProperties.

(** X23: the index of a normalised name decodes to the name: for every
    input, the palette, the effect, the dot shape and the grain shape that
    the normalisation keeps is the entry, at the index that the frame passes
    to the shader, of the list that starts with the fallback and goes on
    with the other names in the order of the tests.  So the indices are
    bounded by the number of names, and distinct names have distinct
    indices. *)
Theorem effect_index_round_trip (v : jsval) :
  (js <$> "prism"%string :: PAPER_PALETTES)
    !! getPaperPaletteIndex (oneOf PAPER_PALETTES "prism" v)
  = Some (oneOf PAPER_PALETTES "prism" v)
  ∧ (js <$> "warp"%string :: PAPER_EFFECTS)
      !! getPaperEffectIndex (oneOf PAPER_EFFECTS "warp" v)
    = Some (oneOf PAPER_EFFECTS "warp" v)
  ∧ (js <$> "circle"%string :: DOT_SHAPES)
      !! getPaperDotShapeIndex (oneOf DOT_SHAPES "circle" v)
    = Some (oneOf DOT_SHAPES "circle" v)
  ∧ (js <$> "corners"%string :: GRAIN_SHAPES)
      !! getPaperGrainShapeIndex (oneOf GRAIN_SHAPES "corners" v)
    = Some (oneOf GRAIN_SHAPES "corners" v).
Proof.
  split_and!.
  - pose proof (oneOf_among PAPER_PALETTES "prism" v) as Hin.
    set (name := oneOf _ _ v) in *. clearbody name.
    unfold nameAmong in Hin. cbn [fmap list_fmap PAPER_PALETTES] in Hin.
    repeat (apply elem_of_cons in Hin as [->|Hin]; [reflexivity|]).
    by apply elem_of_nil in Hin.
  - pose proof (oneOf_among PAPER_EFFECTS "warp" v) as Hin.
    set (name := oneOf _ _ v) in *. clearbody name.
    unfold nameAmong in Hin. cbn [fmap list_fmap PAPER_EFFECTS] in Hin.
    repeat (apply elem_of_cons in Hin as [->|Hin]; [reflexivity|]).
    by apply elem_of_nil in Hin.
  - pose proof (oneOf_among DOT_SHAPES "circle" v) as Hin.
    set (name := oneOf _ _ v) in *. clearbody name.
    unfold nameAmong in Hin. cbn [fmap list_fmap DOT_SHAPES] in Hin.
    repeat (apply elem_of_cons in Hin as [->|Hin]; [reflexivity|]).
    by apply elem_of_nil in Hin.
  - pose proof (oneOf_among GRAIN_SHAPES "corners" v) as Hin.
    set (name := oneOf _ _ v) in *. clearbody name.
    unfold nameAmong in Hin. cbn [fmap list_fmap GRAIN_SHAPES] in Hin.
    repeat (apply elem_of_cons in Hin as [->|Hin]; [reflexivity|]).
    by apply elem_of_nil in Hin.
Qed.

(** ** The fonts *)

Lemma trim_trimmed (s : jsstring) : trim s ≠ [] → trimmedName (trim s).
Proof.
  intros Hne. split; [done|]. split.
  - destruct (trim s) as [|c rest] eqn:Htrim; [done|].
    simpl. apply (trim_head s c). by rewrite Htrim.
  - unfold trim, trimEnd. rewrite reverse_involutive. apply trimStart_starts.
Qed.

Lemma trimmed_fixed (s : jsstring) : trimmedName s → trim s = s.
Proof.
  intros (_ & Hstart & Hend). unfold trim, trimEnd.
  rewrite (trimStart_fixed s) by done.
  rewrite (trimStart_fixed (reverse s)) by done.
  apply reverse_involutive.
Qed.

Lemma fontOr_trimmed (fallback : jsstring) (v : jsval) :
  trimmedName fallback → trimmedName (fontOr fallback v).
Proof.
  intros Hfallback. unfold fontOr. destruct v; try done.
  destruct (0 <? length (trim s))%nat eqn:Hlength; [|done].
  apply trim_trimmed. intros Hnil. by rewrite Hnil in Hlength.
Qed.

Lemma fontOr_fixed (fallback s : jsstring) :
  trimmedName s → fontOr fallback (VString s) = s.
Proof.
  intros Hs. unfold fontOr. rewrite (trimmed_fixed s Hs).
  destruct s as [|c rest]; [by destruct Hs|done].
Qed.

Lemma fallbackFontSet_trimmed :
  trimmedName (FontSet.line fallbackFontSet)
  ∧ trimmedName (FontSet.solid fallbackFontSet)
  ∧ trimmedName (FontSet.background fallbackFontSet).
Proof. by repeat split. Qed.

Lemma normalizeFontSet_trimmed (fontSet : jsval) :
  trimmedName (FontSet.line (normalizeFontSet fontSet))
  ∧ trimmedName (FontSet.solid (normalizeFontSet fontSet))
  ∧ trimmedName (FontSet.background (normalizeFontSet fontSet)).
Proof.
  destruct fallbackFontSet_trimmed as (Hline & Hsolid & Hbackground).
  destruct fontSet; try by split_and!.
  unfold normalizeFontSet.
  cbn [FontSet.line FontSet.solid FontSet.background].
  split_and!; by apply fontOr_trimmed.
Qed.

Lemma normalizeFontSet_object (fonts : FontSet.t) :
  normalizeFontSet (fontSetObject fonts)
  = {| FontSet.line :=
         fontOr (FontSet.line fallbackFontSet) (VString (FontSet.line fonts));
       FontSet.solid :=
         fontOr (FontSet.solid fallbackFontSet)
                (VString (FontSet.solid fonts));
       FontSet.background :=
         fontOr (FontSet.background fallbackFontSet)
                (VString (FontSet.background fonts)) |}.
Proof. reflexivity. Qed.

(** X24: for every input, each of the three font families of the normalised
    font set is a non-empty string without white space at either end (the
    family given, trimmed, or the fallback family); and normalising a
    normalised font set changes nothing. *)
Theorem normalizeFontSet_trims (fontSet : jsval) :
  (trimmedName (FontSet.line (normalizeFontSet fontSet))
   ∧ trimmedName (FontSet.solid (normalizeFontSet fontSet))
   ∧ trimmedName (FontSet.background (normalizeFontSet fontSet)))
  ∧ normalizeFontSet (fontSetObject (normalizeFontSet fontSet))
    = normalizeFontSet fontSet.
Proof.
  pose proof (normalizeFontSet_trimmed fontSet) as (Hline & Hsolid & Hback).
  split; [done|].
  set (fonts := normalizeFontSet fontSet) in *. clearbody fonts.
  rewrite normalizeFontSet_object, !fontOr_fixed by done. by destruct fonts.
Qed.

(** ** Single precision *)

Lemma roundHalfEven_near (y : Q) :
  (Qabs (inject_Z (roundHalfEven y) - y) <= Qmake 1 2)%Q.
Proof.
  unfold roundHalfEven. cbv zeta.
  pose proof (Qfloor_le y) as Hlow.
  pose proof (Qlt_floor y) as Hhigh.
  rewrite inject_Z_plus in Hhigh. change (inject_Z 1) with 1%Q in Hhigh.
  apply Qabs_Qle_condition.
  destruct (Qcompare_spec (y - inject_Z (Qfloor y)) (Qmake 1 2))
    as [Heq|Hlt|Hgt].
  - destruct (Z.even (Qfloor y)); rewrite ?inject_Z_plus;
      change (inject_Z 1) with 1%Q; split; lra.
  - split; lra.
  - rewrite inject_Z_plus. change (inject_Z 1) with 1%Q. split; lra.
Qed.

Lemma roundHalfEven_nonneg (y : Q) : (0 <= y)%Q → (0 ≤ roundHalfEven y)%Z.
Proof.
  intros Hy. unfold roundHalfEven. cbv zeta.
  assert (Hfloor : (0 ≤ Qfloor y)%Z).
  { change 0%Z with (Qfloor 0). by apply Qfloor_resp_le. }
  destruct (_ ?= _)%Q; [destruct (Z.even _)|..]; lia.
Qed.

(** The exponent is not above the number. *)
Lemma ilog2_le (a : Q) : (0 < a)%Q → (Qpower 2 (ilog2 a) <= a)%Q.
Proof.
  intros Ha. unfold ilog2. cbv zeta.
  destruct (Qle_bool _ a) eqn:Hle; [by apply Qle_bool_iff|].
  destruct a as [n d]. cbn [Qnum Qden].
  assert (Hn : (0 < n)%Z) by (unfold Qlt in Ha; simpl in Ha; lia).
  pose proof (Z.log2_spec n Hn) as [Hnlow _].
  pose proof (Z.log2_spec (Zpos d) (Pos2Z.is_pos d)) as [_ Hdhigh].
  pose proof (Z.log2_nonneg n) as Hln.
  pose proof (Z.log2_nonneg (Zpos d)) as Hld.
  replace (Z.log2 n - Z.log2 (Z.pos d) - 1)%Z
    with (Z.log2 n - Z.succ (Z.log2 (Z.pos d)))%Z by lia.
  rewrite Qpower_minus by done.
  rewrite <- !(Zpower_Qpower 2) by lia.
  set (p1 := (2 ^ Z.log2 n)%Z) in *.
  set (p2 := (2 ^ Z.succ (Z.log2 (Z.pos d)))%Z) in *.
  assert (Hp1 : (0 < p1)%Z) by (subst p1; apply Z.pow_pos_nonneg; lia).
  assert (Hp2 : (0 < p2)%Z) by lia.
  assert (Hq2 : (0 < inject_Z p2)%Q)
    by (change 0%Q with (inject_Z 0); by rewrite <- Zlt_Qlt).
  assert (Hqd : (0 < inject_Z (Zpos d))%Q)
    by (change 0%Q with (inject_Z 0); by rewrite <- Zlt_Qlt).
  assert (Hcross : (inject_Z p1 * inject_Z (Zpos d)
                    <= inject_Z n * inject_Z p2)%Q).
  { rewrite <- !inject_Z_mult, <- Zle_Qle. nia. }
  apply Qle_shift_div_r; [exact Hq2|].
  rewrite (Qmake_Qdiv n d).
  apply (Qmult_le_r _ _ (inject_Z (Z.pos d))); [exact Hqd|].
  assert (Heq : (inject_Z n / inject_Z (Z.pos d) * inject_Z p2
                 * inject_Z (Z.pos d)
                 == inject_Z n * inject_Z p2)%Q) by (field; lra).
  rewrite Heq. exact Hcross.
Qed.

Lemma nearestSingle_nonneg (a : Q) : (0 < a)%Q → (0 <= nearestSingle a)%Q.
Proof.
  intros Ha. unfold nearestSingle. cbv zeta.
  set (quantum := Qpower 2 _).
  assert (Hq : (0 < quantum)%Q) by (by apply Qpower_0_lt).
  apply Qmult_le_0_compat; [|lra].
  change 0%Q with (inject_Z 0). rewrite <- Zle_Qle.
  apply roundHalfEven_nonneg. apply Qle_shift_div_l; lra.
Qed.

(** The rounding moves a number by half a step at most: by 2^-24 of the
    number, or by 2^-150 among the subnormal numbers. *)
Lemma nearestSingle_near (a : Q) :
  (0 < a)%Q →
  (Qabs (nearestSingle a - a) <= a * Qpower 2 (-24) + Qpower 2 (-150))%Q.
Proof.
  intros Ha. unfold nearestSingle. cbv zeta.
  set (e := Z.max (ilog2 a) (-126)).
  set (quantum := Qpower 2 (e - 23)).
  assert (Hq : (0 < quantum)%Q) by (by apply Qpower_0_lt).
  pose proof (roundHalfEven_near (a / quantum)) as Hnear.
  assert (Herror : (Qabs (inject_Z (roundHalfEven (a / quantum)) * quantum - a)
                    <= quantum * Qmake 1 2)%Q).
  { assert (Heq : (inject_Z (roundHalfEven (a / quantum)) * quantum - a
                   == (inject_Z (roundHalfEven (a / quantum)) - a / quantum)
                      * quantum)%Q) by (field; lra).
    rewrite Heq, Qabs_Qmult, (Qabs_pos quantum) by lra.
    rewrite (Qmult_comm quantum).
    apply Qmult_le_compat_r; [exact Hnear | lra]. }
  eapply Qle_trans; [exact Herror|].
  assert (Hhalf : (quantum * Qmake 1 2 == Qpower 2 (e - 24))%Q).
  { unfold quantum. replace (e - 24)%Z with ((e - 23) + -1)%Z by lia.
    rewrite (Qpower_plus 2 (e - 23) (-1)) by done. reflexivity. }
  rewrite Hhalf.
  assert (Hpow24 : (0 < Qpower 2 (-24))%Q) by (by apply Qpower_0_lt).
  assert (Hpow150 : (0 < Qpower 2 (-150))%Q) by (by apply Qpower_0_lt).
  destruct (Z.max_spec (ilog2 a) (-126)) as [[Hlt He]|[Hge He]]; fold e in He.
  - rewrite He. change (-126 - 24)%Z with (-150)%Z.
    assert (0 <= a * Qpower 2 (-24))%Q by (apply Qmult_le_0_compat; lra).
    lra.
  - rewrite He. replace (ilog2 a - 24)%Z with (ilog2 a + -24)%Z by lia.
    rewrite Qpower_plus by done.
    pose proof (ilog2_le a Ha) as Hlog.
    assert (Qpower 2 (ilog2 a) * Qpower 2 (-24) <= a * Qpower 2 (-24))%Q
      by (apply Qmult_le_compat_r; lra).
    lra.
Qed.

Lemma nearestSingle_within (a b : Q) :
  (0 < a)%Q → (a <= b)%Q →
  (Qabs (nearestSingle a - a) <= b * this singleRoundoff + this singleTiny)%Q.
Proof.
  intros Ha Hb.
  eapply Qle_trans; [by apply nearestSingle_near|].
  assert (Hroundoff : (Qpower 2 (-24) <= this singleRoundoff)%Q)
    by (by vm_compute).
  assert (Htiny : (Qpower 2 (-150) <= this singleTiny)%Q) by (by vm_compute).
  assert (Hpow : (0 < Qpower 2 (-24))%Q) by (by apply Qpower_0_lt).
  assert (H1 : (a * Qpower 2 (-24) <= b * Qpower 2 (-24))%Q)
    by (apply Qmult_le_compat_r; lra).
  assert (H2 : (b * Qpower 2 (-24) <= b * this singleRoundoff)%Q)
    by (apply Qmult_le_l; lra).
  lra.
Qed.

(** The rounding keeps the sign. *)
Lemma Math_fround_nonneg (v : num) : 0 ≤ v → 0 ≤ Math_fround v.
Proof.
  intros Hv. unfold Math_fround. cbv zeta.
  destruct (Qeq_bool (Qabs v) 0) eqn:Hzero; [done|].
  apply Qeq_bool_neq in Hzero.
  assert (Ha : (0 < Qabs v)%Q).
  { pose proof (Qabs_nonneg v) as Hnonneg.
    destruct (Qle_lt_or_eq _ _ Hnonneg) as [Hlt|Heq]; [exact Hlt|].
    by symmetry in Heq. }
  apply Qc_le_Q in Hv. change (this 0) with 0%Q in Hv.
  apply Qc_le_Q. change (this 0) with 0%Q.
  destruct (Qle_bool 0 v) eqn:Hsign.
  - rewrite (this_Q2Qc (nearestSingle _)). by apply nearestSingle_nonneg.
  - assert (Htrue : Qle_bool 0 v = true) by (apply Qle_bool_iff; exact Hv).
    by rewrite Htrue in Hsign.
Qed.

(** The rounding of a number that is at most [b] in absolute value moves it
    by at most [b * singleRoundoff + singleTiny]. *)
Lemma Math_fround_near (v b : num) :
  - b ≤ v → v ≤ b →
  - (b * singleRoundoff + singleTiny) ≤ Math_fround v - v
  ∧ Math_fround v - v ≤ b * singleRoundoff + singleTiny.
Proof.
  intros Hlow Hhigh. unfold Math_fround. cbv zeta.
  assert (Habs : (Qabs v <= this b)%Q).
  { apply Qabs_Qle_condition. split; [|by apply Qc_le_Q].
    rewrite <- this_opp. by apply Qc_le_Q. }
  assert (Htiny : (0 <= this singleTiny)%Q) by (by vm_compute).
  assert (Hroundoff : (0 <= this singleRoundoff)%Q) by (by vm_compute).
  pose proof (Qabs_nonneg v) as Hnonneg.
  assert (Hproduct : (0 <= this b * this singleRoundoff)%Q)
    by (apply Qmult_le_0_compat; lra).
  destruct (Qeq_bool (Qabs v) 0) eqn:Hzero.
  - apply Qeq_bool_iff in Hzero.
    assert (Hv : (this v == 0)%Q).
    { destruct (proj1 (Qabs_Qle_condition v 0)) as [H1 H2]; lra. }
    split; apply Qc_le_Q;
      rewrite ?this_opp, ?this_minus, ?this_plus, ?this_mult;
      change (this 0) with 0%Q; lra.
  - apply Qeq_bool_neq in Hzero.
    assert (Ha : (0 < Qabs v)%Q).
    { destruct (Qle_lt_or_eq _ _ Hnonneg) as [Hlt|Heq]; [exact Hlt|].
      by symmetry in Heq. }
    pose proof (nearestSingle_within (Qabs v) (this b) Ha Habs) as Hnear.
    apply Qabs_Qle_condition in Hnear.
    destruct (Qle_bool 0 v) eqn:Hsign.
    + apply Qle_bool_iff in Hsign. pose proof (Qabs_pos v Hsign) as Heq.
      split; apply Qc_le_Q;
        rewrite ?this_opp, ?this_minus, ?this_plus, ?this_mult, ?this_Q2Qc;
        lra.
    + assert (Hneg : (this v <= 0)%Q).
      { destruct (Qlt_le_dec 0 v) as [Hlt|Hle]; [|exact Hle].
        apply Qlt_le_weak, Qle_bool_iff in Hlt. by rewrite Hlt in Hsign. }
      pose proof (Qabs_neg v Hneg) as Heq.
      split; apply Qc_le_Q;
        rewrite ?this_opp, ?this_minus, ?this_plus, ?this_mult, ?this_Q2Qc;
        lra.
Qed.

(** The glyph indices are single-precision numbers. *)
Lemma Math_fround_glyph (g : nat) :
  (g < 36)%nat → Math_fround (ofNat g) = ofNat g.
Proof.
  intros Hg.
  do 36 (destruct g as [|g]; [apply Qc_is_canon; by vm_compute|]).
  lia.
Qed.

(** ** The build of the foreground mesh *)

(** A counting loop whose iteration [i] takes the invariant from [i] to
    [i + 1]. *)
Lemma forEach_count {A : Type} (Inv : nat → A → Prop)
    (body : A → nat → result A) (n : nat) (a : A) :
  Inv 0%nat a →
  (∀ i a, (i < n)%nat → Inv i a → ∃ a', body a i = Done a' ∧ Inv (S i) a') →
  ∃ a', forEach body (seq 0 n) a = Done a' ∧ Inv n a'.
Proof.
  intros Hstart Hstep.
  enough (Hgen : ∀ m start a,
            (start + m = n)%nat → Inv start a →
            ∃ a', forEach body (seq start m) a = Done a' ∧ Inv n a').
  { by apply (Hgen n 0%nat a). }
  induction m as [|m IH]; intros start a0 Hsum Ha; simpl.
  - exists a0. split; [done|]. by replace n with start by lia.
  - destruct (Hstep start a0) as (a1 & -> & Ha1); [lia | done |].
    simpl. apply IH; [lia | done].
Qed.

Lemma cell_index_inj (columns r c row col : nat) :
  (c < columns)%nat → (col < columns)%nat →
  (r * columns + c = row * columns + col)%nat → r = row ∧ c = col.
Proof.
  intros Hc Hcol Heq.
  assert (r = row); [|subst; lia].
  destruct (Nat.lt_trichotomy r row) as [Hlt|[->|Hlt]]; [|done|]; nia.
Qed.

Lemma allocate_wf (count : nat) : ForegroundData.wf (allocate count).
Proof.
  unfold ForegroundData.wf, allocate. simpl. rewrite !length_replicate. done.
Qed.

Lemma cellOf_viewport (random : nat → num) (step : num) (s s' : Sim)
    (row col k : nat) :
  viewportWidth s' = viewportWidth s → viewportHeight s' = viewportHeight s →
  cellOf random step s' row col k = cellOf random step s row col k.
Proof. unfold cellOf, centreX, centreY. by intros -> ->. Qed.

Section BuildProperties.
Context `{Host}.
Variable random : nat → num.

(** One cell of the build. *)
Lemma buildCell_step (step : num) (s : Sim) (drawn rows columns : nat)
    (row col : nat) (b : Build.t) :
  (row < rows)%nat → (col < columns)%nat →
  cellsBuilt random step s drawn rows columns (row * columns + col) b →
  ∃ b', buildCell random step s row col b = Done b'
    ∧ cellsBuilt random step s drawn rows columns
        (S (row * columns + col)) b'.
Proof.
  intros Hrow Hcol (Hindex & Hdrawn & (Hwf & Hcount & Hoffsets & Hglyph) & Hcells).
  set (n := (row * columns + col)%nat) in *.
  assert (Hn : (n < columns * rows)%nat) by (subst n; nia).
  pose proof Hwf
    as (Hhx & Hhy & Hpx & Hpy & Hvx & Hvy & Hsd & Htx & Hty & Hbg & Htg & Hts).
  rewrite Hcount in Hhx, Hhy, Hpx, Hpy, Hvx, Hvy, Hsd, Htx, Hty, Hbg, Htg, Hts.
  unfold buildCell. cbv zeta. rewrite Hindex, Hdrawn.
  unfold readCell. rewrite !list_lookup_insert_eq by lia.
  cbn [mbind result_bind mret result_ret].
  eexists. split; [reflexivity|].
  split; [reflexivity|]. split; [cbn [Build.drawn]; lia|]. split.
  - unfold buildSized, ForegroundData.wf.
    cbn [Build.data Build.offsets Build.glyph withHome
         ForegroundData.withMotion ForegroundData.count ForegroundData.homeX
         ForegroundData.homeY ForegroundData.posX ForegroundData.posY
         ForegroundData.velX ForegroundData.velY ForegroundData.seed
         ForegroundData.targetX ForegroundData.targetY
         ForegroundData.baseGlyph ForegroundData.targetGlyph
         ForegroundData.targetSlot].
    rewrite !length_insert, Hcount.
    split_and!; first [assumption | reflexivity].
  - intros r c Hc Hlt.
    unfold cellStored.
    cbn [Build.data Build.offsets Build.glyph withHome
         ForegroundData.withMotion ForegroundData.homeX
         ForegroundData.homeY ForegroundData.posX ForegroundData.posY
         ForegroundData.velX ForegroundData.velY ForegroundData.seed
         ForegroundData.baseGlyph].
    destruct (decide ((r * columns + c)%nat = n)) as [Heq|Hne].
    + destruct (cell_index_inj columns r c row col Hc Hcol Heq) as [-> ->].
      fold n.
      rewrite (list_lookup_insert_ne _ (n * 2 + 1) (n * 2)) by lia.
      rewrite !list_lookup_insert_eq by (rewrite ?length_insert; lia).
      unfold cellOf, centreX, centreY.
      cbn [Cell.homeX Cell.homeY Cell.posX Cell.posY Cell.velX Cell.velY
           Cell.seed Cell.glyph].
      split_and!; reflexivity.
    + rewrite !list_lookup_insert_ne by lia.
      apply Hcells; [done | lia].
Qed.

(** One row of the build. *)
Lemma buildRow_step (step : num) (s : Sim) (drawn rows columns : nat)
    (row : nat) (b : Build.t) :
  (row < rows)%nat →
  cellsBuilt random step s drawn rows columns (row * columns) b →
  ∃ b', forEach (λ b col, buildCell random step s row col b)
          (seq 0 columns) b = Done b'
    ∧ cellsBuilt random step s drawn rows columns (S row * columns) b'.
Proof.
  intros Hrow Hb.
  destruct (forEach_count
              (λ col b, cellsBuilt random step s drawn rows columns
                          (row * columns + col) b)
              (λ b col, buildCell random step s row col b) columns b)
    as (b' & Hloop & Hb').
  - by rewrite Nat.add_0_r.
  - intros col b1 Hcol Hb1.
    replace (row * columns + S col)%nat with (S (row * columns + col)) by lia.
    by apply buildCell_step.
  - exists b'. split; [done|].
    by replace (S row * columns)%nat with (row * columns + columns)%nat by lia.
Qed.

(** The two loops of the build, on freshly allocated arrays. *)
Lemma buildCells_built (step : num) (s : Sim) (drawn rows columns : nat) :
  ∃ b, buildCells random step s rows columns
         {| Build.data := allocate (columns * rows);
            Build.offsets := replicate (columns * rows * 2) 0;
            Build.glyph := replicate (columns * rows) 0;
            Build.index := 0%nat;
            Build.drawn := drawn |} = Done b
    ∧ cellsBuilt random step s drawn rows columns (rows * columns) b.
Proof.
  unfold buildCells.
  apply (forEach_count
           (λ row b, cellsBuilt random step s drawn rows columns
                       (row * columns) b)).
  - split; [reflexivity|]. split; [cbn [Build.drawn]; lia|]. split.
    + split; [apply allocate_wf|]. split; [reflexivity|].
      cbn [Build.offsets Build.glyph]. by rewrite !length_replicate.
    + intros row col _ Hlt. lia.
  - intros row b Hrow Hb. by apply buildRow_step.
Qed.

(** The assignment of targets on a well-formed field, whatever the list. *)
Lemma assignForegroundTargets_wf (preserveSlots : bool) (s : Sim) :
  ForegroundData.wf (foregroundData s) →
  ∃ d', assignForegroundTargets preserveSlots s
        = Done (withAssignment d' (length (foregroundTargets s)) s)
    ∧ ForegroundData.wf d'
    ∧ sameParticles (foregroundData s) d'
    ∧ targetsAssigned (foregroundTargets s) d'.
Proof.
  intros Hwf.
  destruct (assignForegroundTargets_loop preserveSlots s ForegroundData.wf
              (λ i cells,
                 ∃ g, cells.1.2 = Some g
                   ∧ (g ∈ Target.glyph <$> foregroundTargets s
                      ∨ ForegroundData.baseGlyph (foregroundData s) !! i
                        = Some g)))
    as (d' & Hdone & Hwf' & Hsame & Hcells); [|done|].
  - intros d i Hd Hsamed Hi.
    pose proof Hsamed as (_ & _ & _ & _ & _ & _ & _ & _ & Hbase).
    destruct (foregroundTargets s) as [|t0 ts] eqn:Hts.
    + destruct (assignParticle_empty preserveSlots (targetCount s) d i Hd Hi)
        as (hx & hy & bg & _ & _ & Hbg & ->).
      eexists. split; [done|].
      split; [by apply withTargets_wf|]. split; [done|]. split.
      * intros j Hj. by apply withTargets_cells_ne.
      * rewrite withTargets_cells_eq by done. exists bg.
        split; [done|]. right. by rewrite <- Hbase.
    + destruct (assignParticle_nonempty preserveSlots (t0 :: ts)
                  (targetCount s) d i)
        as (target & Hlookup & _ & ->); [done|].
      eexists. split; [done|].
      split; [by apply withTargets_wf|]. split; [done|]. split.
      * intros j Hj. by apply withTargets_cells_ne.
      * rewrite withTargets_cells_eq by done. exists (Target.glyph target).
        split; [done|]. left. apply list_elem_of_fmap. exists target.
        split; [done|]. by eapply list_elem_of_lookup_2.
  - exists d'. split; [done|]. split; [done|]. split; [done|].
    pose proof Hsame as (_ & _ & _ & _ & _ & _ & _ & _ & Hbase).
    intros i Hi. destruct (Hcells i Hi) as (g & Hg & Hfrom).
    exists g. split; [exact Hg|]. by rewrite Hbase.
Qed.

Lemma cellStored_sameParticles (d d' : ForegroundData.t)
    (glyphs offsets : list num) (i : nat) (c : Cell.t) :
  sameParticles d d' → cellStored d glyphs offsets i c →
  cellStored d' glyphs offsets i c.
Proof.
  intros (_ & Hhx & Hhy & Hpx & Hpy & Hvx & Hvy & Hsd & Hbg).
  unfold cellStored. by rewrite Hhx, Hhy, Hpx, Hpy, Hvx, Hvy, Hsd, Hbg.
Qed.

(** The build, from a viewport of any size. *)
Lemma buildForegroundMesh_built (drawn : nat) (s : Sim) :
  ∃ s', buildForegroundMesh random drawn s
        = Done (s', (drawn + 12 * ForegroundData.count (foregroundData s'))%nat)
    ∧ meshBuilt random drawn s'
    ∧ (targetsAssigned (foregroundTargets s') (foregroundData s')
       ∧ ∃ text s0, foregroundTargets s' = (buildForegroundTargets text s0).1)
    ∧ viewportWidth s' = viewportWidth s
    ∧ viewportHeight s' = viewportHeight s
    ∧ foregroundStep s' = latticeStep s.
Proof.
  unfold buildForegroundMesh. cbv zeta.
  set (step := latticeStep s).
  set (s1 := withStep step s).
  set (columns := Z.to_nat (Math_ceil (viewportWidth s1 / step))).
  set (rows := Z.to_nat (Math_ceil (viewportHeight s1 / step))).
  destruct (buildCells_built step s1 drawn rows columns)
    as (b & -> & Hindex & Hdrawn & (Hwf & Hcount & Hoffsets & Hglyph) & Hcells).
  cbn [mbind result_bind].
  set (sampled := buildForegroundTargets (currentWord s1) s1).
  set (s2 := withAssignment (Build.data b) 0
               (withWord (currentWord s1) sampled.1 sampled.2 s1)).
  destruct (assignForegroundTargets_wf false s2 Hwf)
    as (d' & -> & Hwf' & Hsame & Hassigned).
  cbn [mbind result_bind mret result_ret].
  pose proof Hsame as (Hcount' & _).
  eexists. split.
  { f_equal. f_equal. cbn [foregroundData withMesh withAssignment].
    rewrite Hdrawn, Hcount'. cbn [foregroundData s2 withAssignment].
    rewrite Hcount. f_equal. f_equal. lia. }
  split; [|split; [|by repeat split]].
  - unfold meshBuilt, latticeColumns, latticeRows.
    cbn [foregroundData glyphs offsets foregroundMesh targetCount
         foregroundTargets foregroundStep viewportWidth viewportHeight
         withMesh withAssignment].
    assert (Hwidth : viewportWidth s2 = viewportWidth s1) by reflexivity.
    assert (Hheight : viewportHeight s2 = viewportHeight s1) by reflexivity.
    assert (Hstep : foregroundStep s2 = step) by reflexivity.
    rewrite Hwidth, Hheight, Hstep.
    fold columns rows.
    cbn [foregroundData s2 withAssignment] in Hcount', Hsame.
    rewrite Hcount', Hcount, Hoffsets, Hglyph.
    split; [exact Hwf'|]. do 5 (split; [reflexivity|]).
    intros row col Hrow Hcol.
    eapply cellStored_sameParticles; [exact Hsame|].
    rewrite (cellOf_viewport random step s1) by reflexivity.
    apply Hcells; [done | nia].
  - split; [exact Hassigned|]. by exists (currentWord s1), s1.
Qed.

End BuildProperties.

(** ** The lattice and the draws of the build *)

Lemma latticeStep_range (s : Sim) :
  #14 ≤ latticeStep s ∧ latticeStep s ≤ #34.
Proof.
  unfold latticeStep. cbv zeta. split; [apply Math_max_l|].
  apply Math_max_lub; [by vm_compute | apply Math_min_l].
Qed.

Lemma this_ofZ (z : Z) : (this (ofZ z) == inject_Z z)%Q.
Proof. reflexivity. Qed.

(** The least number of steps that cover a length. *)
Lemma ceil_cover (w step : num) :
  0 < step → 0 < w →
  (0 < Z.to_nat (Math_ceil (w / step)%Qc))%nat
  ∧ w ≤ ofNat (Z.to_nat (Math_ceil (w / step))) * step
  ∧ (ofNat (Z.to_nat (Math_ceil (w / step))) - 1) * step < w.
Proof.
  intros Hstep Hw. unfold Math_ceil.
  set (c := Qceiling (w / step)%Qc).
  assert (Hupper : w / step ≤ ofZ c).
  { apply Qc_le_Q. exact (Qle_ceiling (w / step)%Qc). }
  assert (Hlower : ofZ c - 1 < w / step).
  { apply Qc_lt_Q. rewrite this_minus.
    pose proof (Qceiling_lt (w / step)%Qc) as Hlt. fold c in Hlt.
    unfold Z.sub in Hlt. rewrite inject_Z_plus in Hlt.
    change (this (ofZ c)) with (inject_Z c).
    change (this 1) with 1%Q.
    change (inject_Z (- (1))) with (Qmake (-1) 1) in Hlt.
    lra. }
  assert (Hpos : 0 < w / step).
  { apply Qc_lt_Q. rewrite Qc_lt_Q in Hstep, Hw.
    unfold Qcdiv. rewrite this_mult, this_inv.
    change (this 0) with 0%Q in *.
    apply Qmult_lt_0_compat; [done | by apply Qinv_lt_0_compat]. }
  assert (Hc : (0 < c)%Z).
  { assert (Hlt : ofZ 0 < ofZ c).
    { rewrite ofZ_0. eapply Qclt_le_trans; [exact Hpos | exact Hupper]. }
    rewrite Qc_lt_Q in Hlt. rewrite Zlt_Qlt. exact Hlt. }
  assert (Hnat : ofNat (Z.to_nat c) = ofZ c).
  { unfold ofNat, ofZ. by rewrite Z2Nat.id by lia. }
  rewrite Hnat. split; [lia|]. split.
  - by apply Qcdiv_le_iff.
  - apply Qcnot_le_lt. intros Hle. apply Qcdiv_le_iff in Hle; [|done].
    by apply Qcle_not_lt in Hle.
Qed.

Lemma randomBetween_range (draw min max : num) :
  0 ≤ draw → draw < 1 → min < max →
  min ≤ randomBetween draw min max ∧ randomBetween draw min max < max.
Proof.
  intros Hlow Hhigh Hlt. unfold randomBetween.
  rewrite Qc_le_Q in Hlow. rewrite Qc_lt_Q in Hhigh, Hlt.
  change (this 0) with 0%Q in Hlow. change (this 1) with 1%Q in Hhigh.
  split.
  - apply Qc_le_Q. rewrite this_plus, this_mult, this_minus.
    assert (0 <= this draw * (this max - this min))%Q; [|lra].
    apply Qmult_le_0_compat; lra.
  - apply Qc_lt_Q. rewrite this_plus, this_mult, this_minus.
    assert (0 < (1 - this draw) * (this max - this min))%Q; [|lra].
    apply Qmult_lt_0_compat; lra.
Qed.

Lemma floor_index (v : num) (n : nat) :
  0 ≤ v → v < ofNat n →
  ∃ g : nat, (g < n)%nat ∧ ofZ (Math_floor v) = ofNat g.
Proof.
  intros Hlow Hhigh. unfold Math_floor.
  pose proof (Qfloor_le v) as Hfloor.
  pose proof (Qlt_floor v) as Hnext.
  rewrite Qc_le_Q in Hlow. rewrite Qc_lt_Q in Hhigh.
  change (this 0) with (inject_Z 0) in Hlow.
  change (this (ofNat n)) with (this (ofZ (Z.of_nat n))) in Hhigh.
  rewrite this_ofZ in Hhigh.
  assert (Hpos : (0 < Qfloor v + 1)%Z).
  { rewrite Zlt_Qlt. eapply Qle_lt_trans; [exact Hlow | exact Hnext]. }
  assert (Hlt : (Qfloor v < Z.of_nat n)%Z).
  { rewrite Zlt_Qlt. eapply Qle_lt_trans; [exact Hfloor | exact Hhigh]. }
  exists (Z.to_nat (Qfloor v)). split; [lia|].
  unfold ofNat, ofZ. by rewrite Z2Nat.id by lia.
Qed.

Lemma ofNat_nonneg (n : nat) : 0 ≤ ofNat n.
Proof.
  apply Qc_le_Q. change (this 0) with (inject_Z 0).
  change (this (ofNat n)) with (inject_Z (Z.of_nat n)).
  rewrite <- Zle_Qle. lia.
Qed.

Lemma ofNat_lt (m n : nat) : (m < n)%nat → ofNat m < ofNat n.
Proof.
  intros Hlt. apply Qc_lt_Q.
  change (this (ofNat m)) with (inject_Z (Z.of_nat m)).
  change (this (ofNat n)) with (inject_Z (Z.of_nat n)).
  rewrite <- Zlt_Qlt. lia.
Qed.

Lemma ofNat_succ_le (m n : nat) : (m < n)%nat → ofNat m + 1 ≤ ofNat n.
Proof.
  intros Hlt. apply Qc_le_Q. rewrite this_plus.
  change (this (ofNat m)) with (inject_Z (Z.of_nat m)).
  change (this (ofNat n)) with (inject_Z (Z.of_nat n)).
  change (this 1) with (inject_Z 1).
  rewrite <- inject_Z_plus, <- Zle_Qle. lia.
Qed.

(** The steps before a column of the lattice, when the last column starts
    inside the length [w]. *)
Lemma steps_inside (w step : num) (columns col : nat) :
  0 < step → (col < columns)%nat → (ofNat columns - 1) * step < w →
  0 ≤ ofNat col * step ∧ ofNat col * step < w.
Proof.
  intros Hstep Hcol Hlast.
  pose proof (ofNat_nonneg col) as Hlow.
  pose proof (ofNat_succ_le _ _ Hcol) as Hhigh.
  revert Hlow Hhigh Hlast. generalize (ofNat col) (ofNat columns).
  intros c n Hlow Hhigh Hlast.
  assert (Hle : c * step ≤ (n - 1) * step).
  { apply Qcmult_le_compat_r; [|by apply Qclt_le_weak].
    revert Hhigh. qc_lra. }
  split; [|by eapply Qcle_lt_trans].
  rewrite <- (Qcmult_0_l step).
  apply Qcmult_le_compat_r; [done | by apply Qclt_le_weak].
Qed.

(** The centres of the cells are inside the viewport, widened by half a
    step. *)
Lemma centreX_range (step : num) (s : Sim) (columns col : nat) :
  0 < step → (col < columns)%nat →
  (ofNat columns - 1) * step < viewportWidth s →
  - ((viewportWidth s + step) * #0.5) ≤ centreX step s col
  ∧ centreX step s col ≤ (viewportWidth s + step) * #0.5.
Proof.
  intros Hstep Hcol Hlast.
  destruct (steps_inside _ _ _ _ Hstep Hcol Hlast) as [Hlow Hhigh].
  unfold centreX. revert Hstep Hlow Hhigh.
  generalize (ofNat col * step) (viewportWidth s).
  intros a w Hstep Hlow Hhigh. split; revert Hstep Hlow Hhigh; qc_lra.
Qed.

Lemma centreY_range (step : num) (s : Sim) (rows row : nat) :
  0 < step → (row < rows)%nat →
  (ofNat rows - 1) * step < viewportHeight s →
  - ((viewportHeight s + step) * #0.5) ≤ centreY step s row
  ∧ centreY step s row ≤ (viewportHeight s + step) * #0.5.
Proof.
  intros Hstep Hrow Hlast.
  destruct (steps_inside _ _ _ _ Hstep Hrow Hlast) as [Hlow Hhigh].
  unfold centreY. revert Hstep Hlow Hhigh.
  generalize (ofNat row * step) (viewportHeight s).
  intros a h Hstep Hlow Hhigh. split; revert Hstep Hlow Hhigh; qc_lra.
Qed.

(** A stored number that is at most [b] in absolute value, [b] at least 1:
    the store moves it by at most [b] times a ten-millionth. *)
Lemma stored_near (v b : num) :
  1 ≤ b → - b ≤ v → v ≤ b →
  - (b * #0.0000001) ≤ Math_fround v - v
  ∧ Math_fround v - v ≤ b * #0.0000001.
Proof.
  intros Hb Hlow Hhigh.
  destruct (Math_fround_near v b Hlow Hhigh) as [Hnear Hnear'].
  unfold singleRoundoff, singleTiny in Hnear, Hnear'.
  revert Hnear Hnear'. generalize (Math_fround v). intros r Hnear Hnear'.
  split; revert Hb Hnear Hnear'; qc_lra.
Qed.



(** A stored position: the centre [c] of a cell, within [b] of 0, and an
    offset [o] of at most a quarter of the step. *)
Lemma position_near (c o step w : num) :
  #14 ≤ step → 0 < w →
  - ((w + step) * #0.5) ≤ c → c ≤ (w + step) * #0.5 →
  - step * #0.25 ≤ o → o < step * #0.25 →
  - (step * #0.25 + (w + step * #2) * #0.0000001)
    ≤ Math_fround (c + o) - Math_fround c
  ∧ Math_fround (c + o) - Math_fround c
    ≤ step * #0.25 + (w + step * #2) * #0.0000001.
Proof.
  intros Hstep Hw Hlow Hhigh Hlow' Hhigh'.
  destruct (stored_near c ((w + step * #2) * #0.5)) as [Hc Hc'];
    [revert Hstep Hw; qc_lra | revert Hstep Hlow; qc_lra
     | revert Hstep Hhigh; qc_lra |].
  destruct (stored_near (c + o) ((w + step * #2) * #0.5)) as [Hp Hp'];
    [revert Hstep Hw; qc_lra | revert Hlow Hlow'; qc_lra
     | revert Hhigh Hhigh'; qc_lra |].
  revert Hc Hc' Hp Hp'.
  generalize (Math_fround (c + o)) (Math_fround c). intros p r Hc Hc' Hp Hp'.
  split; revert Hlow' Hhigh' Hc Hc' Hp Hp'; qc_lra.
Qed.

(** A stored velocity. *)
Lemma velocity_near (v : num) :
  - #0.45 ≤ v → v < #0.45 →
  - #0.4500001 ≤ Math_fround v ∧ Math_fround v ≤ #0.4500001.
Proof.
  intros Hlow Hhigh.
  destruct (stored_near v 1) as [Hnear Hnear'];
    [done | revert Hlow; qc_lra | revert Hhigh; qc_lra |].
  revert Hnear Hnear'. generalize (Math_fround v). intros r Hnear Hnear'.
  split; revert Hlow Hhigh Hnear Hnear'; qc_lra.
Qed.

(** A stored seed. *)
Lemma seed_near (v : num) :
  0 ≤ v → v < Math_PI * #2 →
  0 ≤ Math_fround v ∧ Math_fround v ≤ #6.283186.
Proof.
  intros Hlow Hhigh. split; [by apply Math_fround_nonneg|].
  assert (Hturn : Math_PI * #2 ≤ #6.2831854) by (by vm_compute).
  destruct (Math_fround_near v #6.2831854) as [Hnear Hnear'];
    [revert Hlow; qc_lra | revert Hhigh Hturn; qc_lra |].
  unfold singleRoundoff, singleTiny in Hnear, Hnear'.
  revert Hhigh Hturn Hnear Hnear'. generalize (Math_fround v) (Math_PI * #2).
  intros r turn. qc_lra.
Qed.

Lemma cellOf_glyph (random : nat → num) (step : num) (s : Sim)
    (row col k : nat) :
  unitDraws random →
  ∃ g : nat, (g < length FOREGROUND_GLYPHS)%nat
    ∧ Cell.glyph (cellOf random step s row col k) = ofNat g.
Proof.
  intros Hdraws.
  assert (Hglyphs : 0 < ofNat (length FOREGROUND_GLYPHS)) by (by vm_compute).
  destruct (Hdraws (k + 5)%nat) as [H5 H5'].
  pose proof (randomBetween_range _ _ _ H5 H5' Hglyphs) as [Hg Hg'].
  destruct (floor_index _ _ Hg Hg') as (g & Hlt & Heq).
  exists g. split; [exact Hlt|].
  unfold cellOf. cbn [Cell.glyph]. rewrite Heq.
  apply Math_fround_glyph. exact Hlt.
Qed.

Lemma cellOf_drawsInRange (random : nat → num) (step : num) (s : Sim)
    (rows columns row col k : nat) :
  unitDraws random → #14 ≤ step →
  0 < viewportWidth s → 0 < viewportHeight s →
  (row < rows)%nat → (col < columns)%nat →
  (ofNat columns - 1) * step < viewportWidth s →
  (ofNat rows - 1) * step < viewportHeight s →
  drawsInRange (viewportWidth s) (viewportHeight s) step
    (cellOf random step s row col k).
Proof.
  intros Hdraws Hstep Hw Hh Hrow Hcol Hlastcol Hlastrow.
  assert (Hpos : 0 < step) by (revert Hstep; qc_lra).
  assert (Hquarter : - step * #0.25 < step * #0.25) by (revert Hpos; qc_lra).
  assert (Hvel : - #0.45 < #0.45) by (by vm_compute).
  assert (Hturn : 0 < Math_PI * #2) by (by vm_compute).
  unfold drawsInRange.
  split; [|split; [|split; [|split; [|split]]]];
    [| | | | |by apply cellOf_glyph];
    unfold cellOf;
    cbn [Cell.homeX Cell.homeY Cell.posX Cell.posY Cell.velX Cell.velY
         Cell.seed].
  - destruct (Hdraws k) as [H0 H0'].
    pose proof (randomBetween_range _ _ _ H0 H0' Hquarter) as [Hx Hx'].
    destruct (centreX_range step s columns col Hpos Hcol Hlastcol).
    by apply position_near.
  - destruct (Hdraws (k + 1)%nat) as [H1 H1'].
    pose proof (randomBetween_range _ _ _ H1 H1' Hquarter) as [Hy Hy'].
    destruct (centreY_range step s rows row Hpos Hrow Hlastrow).
    by apply position_near.
  - destruct (Hdraws (k + 2)%nat) as [H2 H2'].
    pose proof (randomBetween_range _ _ _ H2 H2' Hvel) as [Hv Hv'].
    by apply velocity_near.
  - destruct (Hdraws (k + 3)%nat) as [H3 H3'].
    pose proof (randomBetween_range _ _ _ H3 H3' Hvel) as [Hv Hv'].
    by apply velocity_near.
  - destruct (Hdraws (k + 4)%nat) as [H4 H4'].
    pose proof (randomBetween_range _ _ _ H4 H4' Hturn) as [Hv Hv'].
    by apply seed_near.
Qed.

(** A cell index of a lattice is that of one row and one column. *)
Lemma cell_index_split (columns rows i : nat) :
  (i < columns * rows)%nat →
  ∃ row col, (row < rows)%nat ∧ (col < columns)%nat
    ∧ i = (row * columns + col)%nat.
Proof.
  intros Hi.
  assert (Hcolumns : columns ≠ 0%nat) by lia.
  exists (i / columns)%nat, (i mod columns)%nat. split_and!.
  - by apply Nat.Div0.div_lt_upper_bound.
  - by apply Nat.mod_upper_bound.
  - pose proof (Nat.div_mod_eq i columns). lia.
Qed.


Section ResizeProperties.
Context `{Host}.
Variable random : nat → num.

(** What a resize leaves, in the terms of the build. *)
Lemma onResize_built (innerWidth innerHeight : num) (drawn : nat) (s : Sim) :
  ∃ s', onResize random innerWidth innerHeight drawn s
        = Done (s', (drawn + 12 * ForegroundData.count (foregroundData s'))%nat)
    ∧ meshBuilt random drawn s'
    ∧ (targetsAssigned (foregroundTargets s') (foregroundData s')
       ∧ ∃ text s0, foregroundTargets s' = (buildForegroundTargets text s0).1)
    ∧ viewportWidth s' = Math_max #320 innerWidth
    ∧ viewportHeight s' = Math_max #240 innerHeight
    ∧ #14 ≤ foregroundStep s' ∧ foregroundStep s' ≤ #34.
Proof.
  unfold onResize. cbv zeta.
  set (s0 := withViewport (Math_max #320 innerWidth)
               (Math_max #240 innerHeight) s).
  destruct (buildForegroundMesh_built random drawn s0)
    as (s' & Hdone & Hbuilt & Hassigned & Hwidth & Hheight & Hstep).
  exists s'. rewrite Hstep.
  split; [exact Hdone|]. split; [exact Hbuilt|]. split; [exact Hassigned|].
  split; [exact Hwidth|]. split; [exact Hheight|]. apply latticeStep_range.
Qed.

Lemma resized_positive (s' : Sim) (innerWidth innerHeight : num) :
  viewportWidth s' = Math_max #320 innerWidth →
  viewportHeight s' = Math_max #240 innerHeight →
  #14 ≤ foregroundStep s' →
  0 < viewportWidth s' ∧ 0 < viewportHeight s' ∧ 0 < foregroundStep s'.
Proof.
  intros -> -> Hstep.
  pose proof (Math_max_l #320 innerWidth) as Hwidth.
  pose proof (Math_max_l #240 innerHeight) as Hheight.
  revert Hwidth Hheight Hstep.
  generalize (Math_max #320 innerWidth) (Math_max #240 innerHeight)
    (foregroundStep s').
  intros w h step Hw Hh Hstep. split_and!; revert Hw Hh Hstep; qc_lra.
Qed.



(** X27: when the draws of [Math.random] are in [[0, 1)], every particle
    after a resize starts within a quarter of the step around its home in
    each axis, with a velocity within 0.45 in each axis and a seed that is
    an angle of at most one turn, each as far as single precision tells
    (the bounds are those of [drawsInRange]: a ten-millionth of the width
    or height plus two steps more for a position, 0.4500001 for a velocity,
    6.283186 for a seed, which is never negative); its displayed glyph and
    its base glyph are the same whole number, an index into the 36 glyphs
    of the atlas; and the offsets of the mesh hold its position. *)
Theorem resize_draws_in_range (innerWidth innerHeight : num) (drawn : nat)
    (s : Sim) :
  unitDraws random → 0 < qualityScale s →
  ∃ s' drawn', onResize random innerWidth innerHeight drawn s
               = Done (s', drawn')
    ∧ ∀ i, (i < ForegroundData.count (foregroundData s'))%nat →
        ∃ c, cellStored (foregroundData s') (glyphs s') (offsets s') i c
          ∧ drawsInRange (viewportWidth s') (viewportHeight s')
              (foregroundStep s') c.
Proof.
  intros Hdraws _.
  destruct (onResize_built innerWidth innerHeight drawn s)
    as (s' & Hdone & Hbuilt & _ & Hwidth & Hheight & Hstep & Hstep').
  destruct (resized_positive s' _ _ Hwidth Hheight Hstep)
    as (Hw & Hh & Hpos).
  destruct Hbuilt as (_ & Hcount & _ & _ & _ & _ & Hcells).
  destruct (ceil_cover _ _ Hpos Hw) as (_ & _ & Hcolumns).
  destruct (ceil_cover _ _ Hpos Hh) as (_ & _ & Hrows).
  exists s', (drawn + 12 * ForegroundData.count (foregroundData s'))%nat.
  split; [exact Hdone|].
  intros i Hi. rewrite Hcount in Hi.
  destruct (cell_index_split _ _ i Hi) as (row & col & Hrow & Hcol & ->).
  eexists. split; [by apply Hcells|].
  by apply (cellOf_drawsInRange _ _ _ (latticeRows s') (latticeColumns s')).
Qed.

End ResizeProperties.

Lemma demoRandom_unitDraws : unitDraws demoRandom.
Proof.
  intros k. unfold demoRandom.
  assert (Hten : (0 : Qc) < #10) by (by vm_compute).
  assert (Hmod : (k mod 10 < 10)%nat) by (by apply Nat.mod_upper_bound).
  pose proof (ofNat_nonneg (k mod 10)) as Hlow.
  pose proof (ofNat_lt _ _ Hmod) as Hhigh.
  assert (Hnat : ofNat 10 = #10) by (apply Qc_is_canon; by vm_compute).
  rewrite Hnat in Hhigh.
  split.
  - apply Qcdiv_ge_iff; [done|]. by rewrite Qcmult_0_l.
  - apply Qcnot_le_lt. intros Hle. apply Qcdiv_ge_iff in Hle; [|done].
    rewrite Qcmult_1_l in Hle. by apply Qcle_not_lt in Hle.
Qed.



(** Witness of X27: the demo state in a window of 800 by 600, with the
    demo draws. *)
Lemma resize_draws_in_range_witness :
  unitDraws demoRandom ∧ 0 < qualityScale demoSim
  ∧ ∃ s' drawn', onResize (H := demoHost) demoRandom #800 #600 0 demoSim
                 = Done (s', drawn')
      ∧ ∀ i, (i < ForegroundData.count (foregroundData s'))%nat →
          ∃ c, cellStored (foregroundData s') (glyphs s') (offsets s') i c
            ∧ drawsInRange (viewportWidth s') (viewportHeight s')
                (foregroundStep s') c.
Proof.
  assert (Hquality : 0 < qualityScale demoSim) by (by vm_compute).
  split; [exact demoRandom_unitDraws|]. split; [exact Hquality|].
  exact (resize_draws_in_range (H := demoHost) demoRandom #800 #600 0 demoSim
           demoRandom_unitDraws Hquality).
Defined.

(** ** The sampler of the target points *)





Lemma insert_entries_Forall (P : N → nat → Prop) (entries : list (N * nat))
    (map : gmap N nat) :
  map_Forall P map → Forall (λ entry, P entry.1 entry.2) entries →
  map_Forall P (foldl (λ map entry, <[entry.1 := entry.2]> map) map entries).
Proof.
  intros Hmap Hentries. revert map Hmap.
  induction Hentries as [|entry entries Hentry _ IH]; intros map Hmap; simpl;
    [done|].
  apply IH. by apply map_Forall_insert_2.
Qed.

(** The indices of the map are those of the list of glyphs. *)
Lemma glyphByChar_index (char : N) (g : nat) :
  glyphByChar !! char = Some g → (g < length FOREGROUND_GLYPHS)%nat.
Proof.
  revert char g.
  change (map_Forall (λ _ g, (g < length FOREGROUND_GLYPHS)%nat) glyphByChar).
  apply insert_entries_Forall; [apply map_Forall_empty|].
  apply Forall_forall.
  intros entry (idx & char & -> & Hidx)%elem_of_lookup_imap.
  simpl. by apply lookup_lt_Some in Hidx.
Qed.

(** The map decodes through the list of glyphs. *)
Lemma glyphByChar_decodes (char : N) (g : nat) :
  glyphByChar !! char = Some g → FOREGROUND_GLYPHS !! g = Some char.
Proof.
  revert char g.
  change (map_Forall (λ char g, FOREGROUND_GLYPHS !! g = Some char)
            glyphByChar).
  apply insert_entries_Forall; [apply map_Forall_empty|].
  apply Forall_forall.
  by intros entry (idx & char & -> & Hidx)%elem_of_lookup_imap.
Qed.

Lemma insert_entries_is_Some (entries : list (N * nat)) (map : gmap N nat)
    (char : N) :
  is_Some (map !! char) ∨ char ∈ entries.*1 →
  is_Some (foldl (λ map entry, <[entry.1 := entry.2]> map) map entries
             !! char).
Proof.
  revert map. induction entries as [|entry entries IH]; intros map; simpl.
  - intros [Hmap|Hin%elem_of_nil]; done.
  - intros [Hmap|[->|Hin]%elem_of_cons]; apply IH.
    + left. destruct (decide (entry.1 = char)) as [->|Hne].
      * rewrite lookup_insert_eq. by eexists.
      * by rewrite lookup_insert_ne.
    + left. rewrite lookup_insert_eq. by eexists.
    + by right.
Qed.

(** A character without an entry in the map is not a glyph. *)
Lemma glyphByChar_None (char : N) :
  glyphByChar !! char = None → char ∉ FOREGROUND_GLYPHS.
Proof.
  intros Hnone Hin.
  assert (Hsome : is_Some (glyphByChar !! char)).
  { apply insert_entries_is_Some. right.
    apply list_elem_of_lookup in Hin as [idx Hidx].
    apply list_elem_of_fmap. exists (char, idx). split; [done|].
    by apply (elem_of_lookup_imap_2 (λ idx char, (char, idx))). }
  rewrite Hnone in Hsome. by destruct Hsome.
Qed.

Lemma rangesFrom_chars (width : N → num) (cursor : num) (chars : list N) :
  Range.char <$> rangesFrom width cursor chars = chars.
Proof.
  revert cursor. induction chars as [|char chars IH]; intros cursor; simpl;
    [done|].
  by rewrite IH.
Qed.

Section SamplerProperties.
Variable measureText : num → jsstring → jsstring → num.
Variable imageAlpha : Z → Z → num → jsstring → jsstring → Z → Z → Z.

Lemma targetAt_glyph (width height : Z) (startX : num)
    (ranges : list Range.t) (chars : list N) (x y : Z) :
  ∃ g : nat, (g < length FOREGROUND_GLYPHS)%nat
    ∧ Target.glyph (targetAt width height startX ranges chars x y) = ofNat g.
Proof.
  unfold targetAt. cbv zeta. cbn [Target.glyph].
  destruct (glyphByChar !! _) as [g|] eqn:Hg.
  - exists g. split; [by eapply glyphByChar_index | done].
  - exists 0%nat. split; [cbn; lia | done].
Qed.

(** Every target that the sampler returns has a glyph of the atlas. *)
Lemma sampleTargets_glyph
    (viewportWidth viewportHeight foregroundStep : num)
    (family targetWord : jsstring) (t : Target.t) :
  t ∈ (sampleTargets measureText imageAlpha viewportWidth viewportHeight
         foregroundStep family targetWord).1 →
  glyphIndex (Target.glyph t).
Proof.
  unfold sampleTargets. cbv zeta. cbn [fst].
  intros (y & Hrow & _)%list_elem_of_bind.
  apply list_elem_of_omap in Hrow as (x & _ & Hsome).
  case_decide; [|done]. injection Hsome as <-. apply targetAt_glyph.
Qed.


(** The character that a target takes is one of the word. *)
Lemma targetChar_of_word (width : N → num) (startX : num) (chars : list N)
    (x : Z) :
  chars ≠ [] →
  let ranges := rangesFrom width startX chars in
  let rangeIdx : Z :=
    match list_find (λ range, Range.start range ≤ ofZ x
                              ∧ ofZ x ≤ Range.end_ range) ranges with
    | Some (idx, _) => Z.of_nat idx
    | None =>
        if decide (ofZ x < startX) then 0%Z
        else (Z.of_nat (length ranges) - 1)%Z
    end in
  ∃ char, char ∈ chars
    ∧ Range.char <$> ranges !! Z.to_nat (Z.max 0 rangeIdx) = Some char.
Proof.
  intros Hchars ranges rangeIdx.
  assert (Hlength : length ranges = length chars).
  { unfold ranges.
    by rewrite <- (rangesFrom_chars width startX chars) at 2;
      rewrite length_fmap. }
  assert (Hpos : (0 < length chars)%nat) by (destruct chars; [done|simpl; lia]).
  assert (Hidx : (Z.to_nat (Z.max 0 rangeIdx) < length ranges)%nat).
  { unfold rangeIdx.
    destruct (list_find _ ranges) as [[idx range]|] eqn:Hfind.
    - apply list_find_Some in Hfind as (Hlookup%lookup_lt_Some & _). lia.
    - case_decide; lia. }
  destruct (lookup_lt_is_Some_2 _ _ Hidx) as [range Hrange].
  exists (Range.char range). rewrite Hrange. split; [|done].
  rewrite <- (rangesFrom_chars width startX chars).
  apply list_elem_of_fmap. exists range. split; [done|].
  by eapply list_elem_of_lookup_2.
Qed.

(** X29: when the word is not empty (as every normalised word), the glyph of
    every target is that of a character of the word: the index of the
    character in the list of the 36 glyphs of the atlas, or 0 for a
    character that is not among them (the space).  The character is the one
    whose range holds the pixel, or the first or last one for a pixel left
    or right of all ranges. *)
Theorem target_glyph_of_word
    (viewportWidth viewportHeight foregroundStep : num)
    (family targetWord : jsstring) :
  targetWord ≠ [] →
  Forall (λ t, ∃ char, char ∈ targetWord
            ∧ ((∃ g : nat, FOREGROUND_GLYPHS !! g = Some char
                           ∧ Target.glyph t = ofNat g)
               ∨ ((char ∉ FOREGROUND_GLYPHS) ∧ Target.glyph t = ofNat 0)))
         (sampleTargets measureText imageAlpha viewportWidth viewportHeight
            foregroundStep family targetWord).1.
Proof.
  intros Hword. apply Forall_forall. intros t.
  unfold sampleTargets. cbv zeta. cbn [fst].
  intros (y & Hrow & _)%list_elem_of_bind.
  apply list_elem_of_omap in Hrow as (x & _ & Hsome).
  case_decide; [|done]. injection Hsome as <-.
  unfold targetAt. cbv zeta. cbn [Target.glyph].
  edestruct (targetChar_of_word) as (char & Hchar & ->); [exact Hword|].
  exists char. split; [exact Hchar|]. cbn [default from_option id].
  destruct (glyphByChar !! char) as [g|] eqn:Hg.
  - left. exists g. split; [by apply glyphByChar_decodes | done].
  - right. split; [by apply glyphByChar_None | done].
Qed.

End SamplerProperties.


(** Witness of X29: the word GEIST on the demo canvas. *)
Lemma target_glyph_of_word_witness :
  js "GEIST" ≠ []
  ∧ Forall (λ t, ∃ char, char ∈ js "GEIST"
              ∧ ((∃ g : nat, FOREGROUND_GLYPHS !! g = Some char
                             ∧ Target.glyph t = ofNat g)
                 ∨ ((char ∉ FOREGROUND_GLYPHS) ∧ Target.glyph t = ofNat 0)))
           (sampleTargets demoMeasure demoAlpha #640 #480 #16
              (js "monospace") (js "GEIST")).1.
Proof.
  assert (Hword : js "GEIST" ≠ []) by done.
  split; [exact Hword|].
  exact (target_glyph_of_word demoMeasure demoAlpha #640 #480 #16
           (js "monospace") (js "GEIST") Hword).
Defined.

(** ** The glyphs shown are glyphs of the atlas *)

Lemma assigned_valid (targets : list Target.t) (d : ForegroundData.t) :
  ForegroundData.wf d → targetsAssigned targets d →
  Forall glyphIndex (Target.glyph <$> targets) →
  Forall glyphIndex (ForegroundData.baseGlyph d) →
  Forall glyphIndex (ForegroundData.targetGlyph d).
Proof.
  intros Hwf Hassigned Htargets Hbase.
  pose proof Hwf as (_ & _ & _ & _ & _ & _ & _ & _ & _ & _ & Hlength & _).
  apply Forall_lookup. intros i g Hg.
  assert (Hi : (i < ForegroundData.count d)%nat).
  { rewrite <- Hlength. by eapply lookup_lt_Some. }
  destruct (Hassigned i Hi) as (g' & Hg' & Hfrom).
  rewrite Hg in Hg'. injection Hg' as <-.
  destruct Hfrom as [Hin|Hlookup].
  - by eapply (proj1 (Forall_forall _ _) Htargets).
  - by eapply (proj1 (Forall_lookup _ _) Hbase).
Qed.

Section GlyphProperties.
Context `{Host}.

Lemma sampled_glyphs_valid (text : jsstring) (s : Sim) :
  samplerHost →
  Forall glyphIndex (Target.glyph <$> (buildForegroundTargets text s).1).
Proof.
  intros (measureText & imageAlpha & Hsampler).
  unfold buildForegroundTargets. cbv zeta. rewrite Hsampler.
  apply Forall_forall. intros g (t & -> & Hin)%list_elem_of_fmap.
  by eapply sampleTargets_glyph.
Qed.

Lemma writeParticle_glyph (s : Sim) (i : nat) (next : Stepped.t) :
  ForegroundData.wf (foregroundData s) →
  (i < ForegroundData.count (foregroundData s))%nat →
  ∃ glyph,
    (ForegroundData.targetGlyph (foregroundData s) !! i = Some glyph
     ∨ ForegroundData.baseGlyph (foregroundData s) !! i = Some glyph)
    ∧ writeParticle s i next
      = Done (withParticles
                (ForegroundData.withMotion
                   (<[i := Stepped.posX next]>
                      (ForegroundData.posX (foregroundData s)))
                   (<[i := Stepped.posY next]>
                      (ForegroundData.posY (foregroundData s)))
                   (<[i := Stepped.velX next]>
                      (ForegroundData.velX (foregroundData s)))
                   (<[i := Stepped.velY next]>
                      (ForegroundData.velY (foregroundData s)))
                   (foregroundData s))
                (<[i := glyph]> (glyphs s))
                (<[(i * 2 + 1)%nat := Stepped.posY next]>
                   (<[(i * 2)%nat := Stepped.posX next]> (offsets s)))
                s).
Proof.
  intros Hwf Hi. unfold writeParticle. cbv zeta.
  pose proof Hwf as (_ & _ & _ & _ & _ & _ & _ & _ & _ & Hbase & Htarget & _).
  destruct (Stepped.showTarget next).
  - destruct (readCell_lt (ForegroundData.targetGlyph (foregroundData s)) i)
      as (glyph & Hglyph & ->); [lia|].
    exists glyph. split; [by left | done].
  - destruct (readCell_lt (ForegroundData.baseGlyph (foregroundData s)) i)
      as (glyph & Hglyph & ->); [lia|].
    exists glyph. split; [by right | done].
Qed.

Lemma animateParticle_valid (f : Frame) (s : Sim) (i : nat) :
  ForegroundData.wf (foregroundData s) → glyphsValid s →
  (i < ForegroundData.count (foregroundData s))%nat →
  ∃ s', animateParticle f s i = Done s'
    ∧ ForegroundData.wf (foregroundData s') ∧ glyphsValid s'
    ∧ ForegroundData.count (foregroundData s')
      = ForegroundData.count (foregroundData s).
Proof.
  intros Hwf (Hbase & Htarget & Hshown) Hi. unfold animateParticle.
  destruct (readParticle_wf _ _ Hwf Hi) as (p & ->).
  cbn [mbind result_bind].
  destruct (writeParticle_glyph s i (integrate f s p) Hwf Hi)
    as (glyph & Hfrom & ->).
  set (next := integrate f s p). clearbody next.
  eexists. split; [done|].
  cbn [foregroundData withParticles].
  split; [by apply withMotion_wf|]. split; [|done].
  unfold glyphsValid.
  cbn [foregroundData glyphs withParticles ForegroundData.baseGlyph
       ForegroundData.targetGlyph ForegroundData.withMotion].
  split; [exact Hbase|]. split; [exact Htarget|].
  apply Forall_insert; [exact Hshown|].
  destruct Hfrom as [Hlookup|Hlookup].
  - by eapply (proj1 (Forall_lookup _ _) Htarget).
  - by eapply (proj1 (Forall_lookup _ _) Hbase).
Qed.

Lemma animateField_valid (f : Frame) (s : Sim) :
  ForegroundData.wf (foregroundData s) → glyphsValid s →
  ∃ s', animateField f s = Done s'
    ∧ ForegroundData.wf (foregroundData s') ∧ glyphsValid s'.
Proof.
  intros Hwf Hvalid. unfold animateField. cbv zeta.
  assert (Hdata : foregroundData (animateScalars f s) = foregroundData s)
    by reflexivity.
  assert (Hglyphs : glyphs (animateScalars f s) = glyphs s) by reflexivity.
  set (s1 := animateScalars f s) in *. clearbody s1.
  assert (Hvalid1 : glyphsValid s1)
    by (unfold glyphsValid; by rewrite Hdata, Hglyphs).
  rewrite <-Hdata in Hwf.
  case_match; [|by exists s1].
  destruct (forEach_total
              (λ a, ForegroundData.wf (foregroundData a) ∧ glyphsValid a
                    ∧ ForegroundData.count (foregroundData a)
                      = ForegroundData.count (foregroundData s1))
              (animateParticle f)
              (seq 0 (ForegroundData.count (foregroundData s1))) s1)
    as (s' & Hloop & Hwf' & Hvalid' & _); [|done|by exists s'].
  intros a i (Hwfa & Hvalida & Hcount) Hi%elem_of_seq.
  destruct (animateParticle_valid f a i Hwfa Hvalida)
    as (a' & Hstep & ? & ? & Hcount'); [lia|].
  exists a'. split; [done|]. split; [done|]. split; [done|].
  by rewrite Hcount'.
Qed.

Lemma animate_valid (f : Frame) (s : Sim) :
  ForegroundData.wf (foregroundData s) → glyphsValid s →
  ∃ s', animate f s = Done s'
    ∧ ForegroundData.wf (foregroundData s') ∧ glyphsValid s'.
Proof.
  intros Hwf Hvalid. unfold animate.
  destruct (disposed s); [by exists s|].
  cbv zeta. repeat case_decide.
  - eexists. split; [done|]. by split.
  - by apply (animateField_valid f (withQuality _ _ _ s)).
  - by apply (animateField_valid f (withQuality _ _ _ s)).
Qed.

Lemma retargetWord_valid (word : option jsstring) (s : Sim) :
  samplerHost →
  ForegroundData.wf (foregroundData s) → glyphsValid s →
  ∃ s', retargetWord word s = Done s'
    ∧ ForegroundData.wf (foregroundData s') ∧ glyphsValid s'.
Proof.
  intros Hsampler Hwf (Hbase & Htarget & Hshown). unfold retargetWord.
  case_match; [by exists s|].
  set (sampled := buildForegroundTargets (normalizeWord word) s).
  set (s1 := withWord (normalizeWord word) sampled.1 sampled.2 s).
  destruct (assignForegroundTargets_wf true s1 Hwf)
    as (d' & -> & Hwf' & Hsame & Hassigned).
  cbn [mbind result_bind mret result_ret].
  eexists. split; [reflexivity|].
  cbn [foregroundData withRetarget withAssignment].
  split; [exact Hwf'|].
  pose proof Hsame as (_ & _ & _ & _ & _ & _ & _ & _ & Hbase').
  assert (Hbased : Forall glyphIndex (ForegroundData.baseGlyph d'))
    by (rewrite Hbase'; exact Hbase).
  unfold glyphsValid.
  cbn [foregroundData glyphs withRetarget withAssignment].
  split; [exact Hbased|]. split; [|exact Hshown].
  apply (assigned_valid (foregroundTargets s1)); [done | done | | done].
  by apply sampled_glyphs_valid.
Qed.

Lemma handle_valid (e : Event) (s : Sim) :
  samplerHost →
  ForegroundData.wf (foregroundData s) → glyphsValid s →
  ∃ s', handle e s = Done s'
    ∧ ForegroundData.wf (foregroundData s') ∧ glyphsValid s'.
Proof.
  intros Hsampler Hwf Hvalid. destruct e as [f|cx cy| |word]; simpl.
  - by apply animate_valid.
  - by eexists.
  - by eexists.
  - by apply retargetWord_valid.
Qed.

Lemma trace_valid (events : list Event) (s : Sim) :
  samplerHost →
  ForegroundData.wf (foregroundData s) → glyphsValid s →
  Forall endsGlyphsValid (trace events s).
Proof.
  intros Hsampler. revert s.
  induction events as [|e events IH]; intros s Hwf Hvalid; simpl; [done|].
  destruct (handle_valid e s Hsampler Hwf Hvalid) as (s' & -> & Hwf' & Hvalid').
  constructor; [by exists s' | by apply IH].
Qed.

Variable random : nat → num.

(** The glyphs after a build. *)
Lemma meshBuilt_valid (drawn : nat) (s' : Sim) :
  samplerHost → unitDraws random → 0 < foregroundStep s' →
  meshBuilt random drawn s' →
  targetsAssigned (foregroundTargets s') (foregroundData s') →
  (∃ text s0, foregroundTargets s' = (buildForegroundTargets text s0).1) →
  glyphsValid s'.
Proof.
  intros Hsampler Hdraws Hstep
    (Hwf & Hcount & Hglyphs & _ & _ & _ & Hcells) Hassigned
    (text & s0 & Htargets).
  pose proof Hwf as (_ & _ & _ & _ & _ & _ & _ & _ & _ & Hlength & _).
  assert (Hcell : ∀ i, (i < ForegroundData.count (foregroundData s'))%nat →
            ∃ g, glyphIndex g
              ∧ ForegroundData.baseGlyph (foregroundData s') !! i = Some g
              ∧ glyphs s' !! i = Some g).
  { intros i Hi. rewrite Hcount in Hi.
    destruct (cell_index_split _ _ i Hi) as (row & col & Hrow & Hcol & ->).
    destruct (Hcells row col Hrow Hcol)
      as (_ & _ & _ & _ & _ & _ & _ & Hbase & Hshown & _).
    eexists. split; [|split; [exact Hbase | exact Hshown]].
    by apply (cellOf_glyph random). }
  assert (Hbase : Forall glyphIndex
                    (ForegroundData.baseGlyph (foregroundData s'))).
  { apply Forall_lookup. intros i g Hg.
    destruct (Hcell i) as (g' & Hvalid & Hg' & _).
    - rewrite <- Hlength. by eapply lookup_lt_Some.
    - rewrite Hg in Hg'. by injection Hg' as <-. }
  split; [exact Hbase|]. split.
  - apply (assigned_valid (foregroundTargets s')); [done | done | | done].
    rewrite Htargets. by apply sampled_glyphs_valid.
  - apply Forall_lookup. intros i g Hg.
    destruct (Hcell i) as (g' & Hvalid & _ & Hg').
    + rewrite <- Hglyphs. by eapply lookup_lt_Some.
    + rewrite Hg in Hg'. by injection Hg' as <-.
Qed.

(** X30: the mesh never shows a glyph outside the atlas.  When the
    rasteriser of the host is the sampler of the source, the draws of
    [Math.random] are in [[0, 1)] and the quality scale is positive, a resize
    leaves every base glyph, target glyph and displayed glyph an index into
    the 36 glyphs of the atlas, and this stays so through every run of
    frames, pointer events and word changes that follows: every event ends
    normally in such a state. *)
Theorem glyphs_stay_in_atlas (innerWidth innerHeight : num) (drawn : nat)
    (s : Sim) (events : list Event) :
  samplerHost → unitDraws random → 0 < qualityScale s →
  ∃ s' drawn', onResize random innerWidth innerHeight drawn s
               = Done (s', drawn')
    ∧ glyphsValid s'
    ∧ Forall endsGlyphsValid (trace events s').
Proof.
  intros Hsampler Hdraws _.
  destruct (onResize_built random innerWidth innerHeight drawn s)
    as (s' & Hdone & Hbuilt & (Hassigned & Htargets) & Hwidth & Hheight
        & Hstep & Hstep').
  destruct (resized_positive s' _ _ Hwidth Hheight Hstep)
    as (_ & _ & Hpos).
  assert (Hvalid : glyphsValid s') by (by eapply meshBuilt_valid).
  exists s', (drawn + 12 * ForegroundData.count (foregroundData s'))%nat.
  split; [exact Hdone|]. split; [exact Hvalid|].
  apply trace_valid; [done | | done].
  by destruct Hbuilt as (Hwf & _).
Qed.

End GlyphProperties.

Lemma canvasHost_samplerHost : samplerHost (H := canvasHost).
Proof. by exists demoMeasure, demoAlpha. Qed.

(** Witness of X30: the demo state in a window of 800 by 600, on the demo
    canvas, followed by the demo run. *)
Lemma glyphs_stay_in_atlas_witness :
  samplerHost (H := canvasHost) ∧ unitDraws demoRandom
  ∧ 0 < qualityScale demoSim
  ∧ ∃ s' drawn', onResize (H := canvasHost) demoRandom #800 #600 0 demoSim
                 = Done (s', drawn')
      ∧ glyphsValid s'
      ∧ Forall endsGlyphsValid (trace (H := canvasHost) demoRun s').
Proof.
  assert (Hquality : 0 < qualityScale demoSim) by (by vm_compute).
  split; [exact canvasHost_samplerHost|].
  split; [exact demoRandom_unitDraws|].
  split; [exact Hquality|].
  exact (glyphs_stay_in_atlas (H := canvasHost) demoRandom #800 #600 0 demoSim
           demoRun canvasHost_samplerHost demoRandom_unitDraws Hquality).
Defined.
